(** * Chunked lyric tokenization: a shallow embedding of
    [note/utils/lyric_tokenizer.py]

    The development follows the Python module top down: strings and the
    string primitives the module calls, the whitespace chunker
    [_iter_space_chunks] (a generator with a [while] loop that need not
    terminate), the text normalizer [_clean_text], the morpheme filter and
    [base_tokenize].  Theorems come after all definitions. *)

From Stdlib Require Import ZArith NArith List Bool Lia.
Import ListNotations.
Local Open Scope Z_scope.

(* ===================================================================== *)
(** * Python strings *)
(* ===================================================================== *)

(** A Python [str] is a sequence of Unicode code points; [len] counts code
    points and every length the chunker computes is a Python [int]. *)
Abbreviation codepoint := N (only parsing).
Abbreviation str := (list N) (only parsing).

Definition len {A : Type} (s : list A) : Z := Z.of_nat (length s).

(** Truth value of a string or list: non-empty. *)
Definition truthy {A : Type} (s : list A) : bool :=
  match s with [] => false | _ :: _ => true end.

Definition str_eqb (a b : str) : bool :=
  if list_eq_dec N.eq_dec a b then true else false.

(** Membership in a Python [set] of strings; only membership and emptiness
    of these sets are ever observed. *)
Abbreviation pyset := (list (list N)) (only parsing).
Definition mem (x : str) (s : pyset) : bool := existsb (str_eqb x) s.

(** The code points for which [str.isspace], [str.strip] and the regular
    expression class [\s] agree (CPython's [Py_UNICODE_ISSPACE]). *)
Definition is_space (c : codepoint) : bool :=
  ((0x09 <=? c) && (c <=? 0x0D) || (0x1C <=? c) && (c <=? 0x20)
   || (c =? 0x85) || (c =? 0xA0) || (c =? 0x1680)
   || (0x2000 <=? c) && (c <=? 0x200A)
   || (c =? 0x2028) || (c =? 0x2029) || (c =? 0x202F) || (c =? 0x205F)
   || (c =? 0x3000))%N.

Definition SP : codepoint := 0x20%N.

(** [s.strip()] *)
Fixpoint lstrip (s : str) : str :=
  match s with
  | c :: s' => if is_space c then lstrip s' else s
  | [] => []
  end.
Definition rstrip (s : str) : str := rev (lstrip (rev s)).
Definition strip (s : str) : str := rstrip (lstrip s).

(** [re.compile(r"\s+").split(s)]: the pieces between maximal runs of
    whitespace, empty pieces at either end included; [in_run] says that the
    previous character was whitespace, [cur] is the piece being read. *)
Fixpoint space_split_from (in_run : bool) (cur : str) (s : str) : list str :=
  match s with
  | [] => [cur]
  | c :: s' =>
      if is_space c
      then if in_run then space_split_from true cur s'
           else cur :: space_split_from true [] s'
      else space_split_from false (cur ++ [c]) s'
  end.
Definition _SPACE_SPLIT_split (s : str) : list str := space_split_from false [] s.

(** [" ".join(l)] *)
Fixpoint join_space (l : list str) : str :=
  match l with
  | [] => []
  | w :: l' => match l' with [] => w | _ :: _ => w ++ SP :: join_space l' end
  end.

(** Slices [s[:k]] and [s[k:]] with Python's treatment of a negative or
    too large bound. *)
Definition slice_bound (n k : Z) : nat :=
  Z.to_nat (if k <? 0 then Z.max 0 (n + k) else Z.min k n).
Definition slice_to (s : str) (k : Z) : str := firstn (slice_bound (len s) k) s.
Definition slice_from (s : str) (k : Z) : str := skipn (slice_bound (len s) k) s.

(** [buf[-1]], which raises [IndexError] on an empty list, and the list
    left by [buf.pop()]. *)
Definition last_item {A : Type} (l : list A) : option A :=
  match rev l with x :: _ => Some x | [] => None end.

(* ===================================================================== *)
(** * Generators and exceptions *)
(* ===================================================================== *)

(** The exceptions of the model.  [IndexError] and [RuntimeError] are the
    ones the module's own code raises; [AnalyzerError] stands for any other
    exception of the class [Exception] that the analyzer raises;
    [KeyboardInterrupt], [SystemExit] and the [PanicException] of the
    analyzer's Rust core derive from [BaseException] only. *)
Inductive exn :=
| IndexError
| RuntimeError
| AnalyzerError
| KeyboardInterrupt
| SystemExit
| PanicException.

(** [isinstance(e, Exception)], what [except Exception] tests. *)
Definition isinstance_Exception (e : exn) : bool :=
  match e with
  | IndexError | RuntimeError | AnalyzerError => true
  | KeyboardInterrupt | SystemExit | PanicException => false
  end.

(** How a computation ends: it returns, it raises, or (in the model) its
    fuel ran out while a loop was still running. *)
Inductive outcome (A : Type) :=
| Normal (a : A)
| Raise (e : exn)
| Spin.
Arguments Normal {A} a.
Arguments Raise {A} e.
Arguments Spin {A}.

(** A generator body: the chunks yielded so far, in order, and how the
    body ended. *)
Definition gen (A : Type) : Type := list str * outcome A.

Definition ret {A} (a : A) : gen A := ([], Normal a).
Definition yield (c : str) : gen unit := ([c], Normal tt).
Definition raise {A} (e : exn) : gen A := ([], Raise e).
Definition spin {A} : gen A := ([], Spin).
Definition bind {A B} (m : gen A) (k : A -> gen B) : gen B :=
  match m with
  | (ys, Normal a) => let (ys', r) := k a in (ys ++ ys', r)
  | (ys, Raise e) => (ys, Raise e)
  | (ys, Spin) => (ys, Spin)
  end.

Notation "x <- m ;; k" := (bind m (fun x => k))
  (at level 61, m at next level, right associativity).
Notation "m ;;; k" := (bind m (fun _ => k))
  (at level 61, right associativity).

Definition yielded {A} (g : gen A) : list str := fst g.
Definition ending {A} (g : gen A) : outcome A := snd g.

(* ===================================================================== *)
(** * The chunker [_iter_space_chunks] *)
(* ===================================================================== *)

(** [sum(len(x) for x in buf) + max(0, len(buf) - 1)] *)
Definition sum_len (buf : list str) : Z := fold_right (fun x a => len x + a) 0 buf.
Definition joined_len (buf : list str) : Z := sum_len buf + Z.max 0 (len buf - 1).

(** The [while len(buf[-1]) > hard_max_chars] loop.  One unit of [fuel] is
    spent per test of the loop condition. *)
Fixpoint force_split (fuel : nat) (hard_max_chars : Z) (buf : list str) (cur_len : Z)
  : gen (list str * Z) :=
  match fuel with
  | O => spin
  | S fuel' =>
      match last_item buf with
      | None => raise IndexError
      | Some last =>
          if len last >? hard_max_chars then
            let long_piece := last in
            let buf := removelast buf in
            yield (slice_to long_piece hard_max_chars) ;;;
            let rest := slice_from long_piece hard_max_chars in
            let buf := if truthy rest then buf ++ [rest] else buf in
            force_split fuel' hard_max_chars buf (joined_len buf)
          else ret (buf, cur_len)
      end
  end.

(** The [for i, w in enumerate(buf)] loop of the fail-safe: the words put in
    [out] before the [break]. *)
Fixpoint failsafe_out (hard_max_chars : Z) (i : nat) (total : Z) (buf : list str)
  : list str :=
  match buf with
  | [] => []
  | w :: buf' =>
      let add := len w + (if (0 <? i)%nat then 1 else 0) in
      if total + add >? hard_max_chars then []
      else w :: failsafe_out hard_max_chars (S i) (total + add) buf'
  end.

(** Lines 67-74: the word [p] joins the buffer, after the buffer was flushed
    when [p] would take it past [max_chars]. *)
Definition add_word (max_chars : Z) (p : str) (st : list str * Z)
  : gen (list str * Z) :=
  let '(buf, cur_len) := st in
  let add_len := (if truthy buf then 1 else 0) + len p in
  if (cur_len + add_len >? max_chars) && truthy buf
  then yield (join_space buf) ;;; ret ([p], len p)
  else ret (buf ++ [p], cur_len + add_len).

(** Lines 86-98: the fail-safe for a buffer longer than [hard_max_chars]. *)
Definition failsafe (hard_max_chars : Z) (st : list str * Z) : gen (list str * Z) :=
  let '(buf, cur_len) := st in
  if cur_len >? hard_max_chars then
    let out := failsafe_out hard_max_chars 0 0 buf in
    if truthy out then
      yield (join_space out) ;;;
      let buf := skipn (length out) buf in
      ret (buf, joined_len buf)
    else ret (buf, cur_len)
  else ret (buf, cur_len).

(** One pass through the body of [for p in parts]. *)
Definition chunk_step (fuel : nat) (max_chars hard_max_chars : Z) (p : str)
  (st : list str * Z) : gen (list str * Z) :=
  if negb (truthy p) then ret st else
  st1 <- add_word max_chars p st ;;
  st2 <- force_split fuel hard_max_chars (fst st1) (snd st1) ;;
  failsafe hard_max_chars st2.

Fixpoint chunk_loop (fuel : nat) (max_chars hard_max_chars : Z) (parts : list str)
  (st : list str * Z) : gen (list str * Z) :=
  match parts with
  | [] => ret st
  | p :: parts' =>
      st' <- chunk_step fuel max_chars hard_max_chars p st ;;
      chunk_loop fuel max_chars hard_max_chars parts' st'
  end.

Definition _iter_space_chunks (fuel : nat) (text : str) (max_chars hard_max_chars : Z)
  : gen unit :=
  if negb (truthy text) then ret tt else
  let parts := _SPACE_SPLIT_split (strip text) in
  st <- chunk_loop fuel max_chars hard_max_chars parts ([], 0) ;;
  if truthy (fst st) then yield (join_space (fst st)) else ret tt.

(* ===================================================================== *)
(** * The normalizer [_clean_text] *)
(* ===================================================================== *)

(** [set("?？「」.-！!(（)）…・")] *)
Definition NOISE_CHARS : list codepoint :=
  [0x3F; 0xFF1F; 0x300C; 0x300D; 0x2E; 0x2D; 0xFF01; 0x21;
   0x28; 0xFF08; 0x29; 0xFF09; 0x2026; 0x30FB]%N.

(** [text.translate(table)] for the table that [str.maketrans] builds from
    [chars] as its third argument: every occurrence of a character of
    [chars] is deleted. *)
Definition translate_delete (chars : list codepoint) (text : str) : str :=
  filter (fun c => negb (existsb (N.eqb c) chars)) text.

Section Normalizer.

(** [unicodedata.normalize("NFKC", s)] is a primitive of the Python
    library; the normalizer is modelled over any such function. *)
Variable _nfkc : str -> str.

Definition _clean_text (text : str) : str :=
  let text := _nfkc text in
  if truthy NOISE_CHARS then translate_delete NOISE_CHARS text else text.

(** A character is [simple] for a class [plain] of characters when NFKC
    turns it, on its own, into characters of that class. *)
Definition simple (plain : codepoint -> bool) (c : codepoint) : bool :=
  forallb plain (_nfkc [c]).

End Normalizer.

(* ===================================================================== *)
(** * Morphemes and the token filter *)
(* ===================================================================== *)

(** What the code reads of an analyzer morpheme: [m.surface()],
    [m.dictionary_form()] and the tuple [m.part_of_speech()]. *)
Record Morpheme := {
  surface : str;
  dictionary_form : str;
  part_of_speech : list str
}.

Inductive SplitMode := ModeA | ModeB | ModeC.

(** What a call [tok.tokenize(chunk, split_mode)] does: it returns the
    morphemes of the chunk or it raises. *)
Inductive analysis :=
| Morphemes (ms : list Morpheme)
| Raises (e : exn).

Record Tokenizer := {
  tokenize : str -> SplitMode -> analysis
}.

(** "動詞" (verb) and "形容詞" (adjective) *)
Definition POS_VERB : str := [0x52D5; 0x8A5E]%N.
Definition POS_ADJECTIVE : str := [0x5F62; 0x5BB9; 0x8A5E]%N.

(** {"名詞", "形容詞", "動詞", "代名詞", "連体詞"} *)
Definition DEFAULT_KEEP_POS : pyset :=
  [[0x540D; 0x8A5E]; [0x5F62; 0x5BB9; 0x8A5E]; [0x52D5; 0x8A5E];
   [0x4EE3; 0x540D; 0x8A5E]; [0x9023; 0x4F53; 0x8A5E]]%N.

Definition NG_SURFACE : pyset := [].

Definition normalize_baseform (m : Morpheme) : outcome str :=
  match part_of_speech m with
  | [] => Raise IndexError
  | pos0 :: _ =>
      Normal (if mem pos0 [POS_VERB; POS_ADJECTIVE]
              then dictionary_form m else surface m)
  end.

(** The body of [for m in tok.tokenize(...)]: [Normal (Some surf)] when
    [surf] is appended to [toks], [Normal None] when the morpheme is passed
    over. *)
Definition keep_token (_keep_pos _ng_words : pyset) (m : Morpheme)
  : outcome (option str) :=
  match part_of_speech m with
  | [] => Raise IndexError
  | pos0 :: _ =>
      if truthy _keep_pos && negb (mem pos0 _keep_pos) then Normal None
      else
        match normalize_baseform m with
        | Normal surf =>
            if truthy _ng_words && (negb (truthy surf) || mem surf _ng_words)
            then Normal None
            else if truthy surf then Normal (Some surf) else Normal None
        | Raise e => Raise e
        | Spin => Spin
        end
  end.

(** The [for m in ...] loop over the analyzer's morphemes, appending to
    [toks]; an exception stops the loop and leaves [toks] as it is then. *)
Fixpoint scan_morphemes (_keep_pos _ng_words : pyset) (ms : list Morpheme)
  (toks : list str) : list str * outcome unit :=
  match ms with
  | [] => (toks, Normal tt)
  | m :: ms' =>
      match keep_token _keep_pos _ng_words m with
      | Normal (Some surf) => scan_morphemes _keep_pos _ng_words ms' (toks ++ [surf])
      | Normal None => scan_morphemes _keep_pos _ng_words ms' toks
      | Raise e => (toks, Raise e)
      | Spin => (toks, Spin)
      end
  end.

(** The body of [for chunk in _iter_space_chunks(...)], with its
    [try: ... except Exception: continue]: an exception of the class
    [Exception] ends the chunk and leaves [toks] as it is then; any other
    exception is not caught and leaves the function. *)
Definition analyse_chunk (tok : Tokenizer) (split_mode : SplitMode)
  (_keep_pos _ng_words : pyset) (toks : list str) (chunk : str)
  : outcome (list str) :=
  if negb (truthy chunk) then Normal toks else
  match tokenize tok chunk split_mode with
  | Raises e => if isinstance_Exception e then Normal toks else Raise e
  | Morphemes ms =>
      match scan_morphemes _keep_pos _ng_words ms toks with
      | (toks, Normal _) => Normal toks
      | (toks, Raise e) => if isinstance_Exception e then Normal toks else Raise e
      | (_, Spin) => Spin
      end
  end.

(** The loop [for chunk in _iter_space_chunks(...)] over the chunks the
    generator yields, in their order. *)
Fixpoint analyse_chunks (tok : Tokenizer) (split_mode : SplitMode)
  (_keep_pos _ng_words : pyset) (chunks : list str) (toks : list str)
  : outcome (list str) :=
  match chunks with
  | [] => Normal toks
  | chunk :: chunks' =>
      match analyse_chunk tok split_mode _keep_pos _ng_words toks chunk with
      | Normal toks => analyse_chunks tok split_mode _keep_pos _ng_words chunks' toks
      | Raise e => Raise e
      | Spin => Spin
      end
  end.

(** The overloaded arguments [keep_pos] and [ng_words]:
    [Sequence[str] | str | bool]. *)
Inductive str_seq_or_bool :=
| ArgBool (b : bool)
| ArgStr (s : str)
| ArgSeq (l : list str).

Definition normalize_keep_pos (keep_pos : str_seq_or_bool) : pyset :=
  match keep_pos with
  | ArgBool b => if b then DEFAULT_KEEP_POS else []
  | ArgStr s => [s]
  | ArgSeq l => l
  end.

Definition normalize_ng_words (ng_words : str_seq_or_bool) : pyset :=
  match ng_words with
  | ArgBool b => if negb b then [] else NG_SURFACE
  | ArgStr s => [s]
  | ArgSeq l => l
  end.

(* ===================================================================== *)
(** * The pipeline [base_tokenize] *)
(* ===================================================================== *)

Definition _SPLIT_MODE : option SplitMode := Some ModeC.

Section Pipeline.

Variable _nfkc : str -> str.
(** The module-level analyzer, built when the module is loaded. *)
Variable _TOK : option Tokenizer.

(** The generator is consumed as it runs: each chunk is analysed before the
    generator is resumed, so an exception that leaves the analysis of a
    chunk comes before whatever the generator would do after that chunk. *)
Definition base_tokenize (fuel : nat) (text : str)
  (keep_pos ng_words : str_seq_or_bool)
  (max_chars_per_chunk hard_max_chars : Z)
  (tok : option Tokenizer) (split_mode : option SplitMode)
  : outcome (list str) :=
  let tok := match tok with None => _TOK | Some _ => tok end in
  let split_mode := match split_mode with None => _SPLIT_MODE | Some _ => split_mode end in
  match tok, split_mode with
  | Some tok, Some split_mode =>
      let _keep_pos := normalize_keep_pos keep_pos in
      let _ng_words := normalize_ng_words ng_words in
      let cleaned := _clean_text _nfkc text in
      let (chunks, ended) :=
        _iter_space_chunks fuel cleaned max_chars_per_chunk hard_max_chars in
      match analyse_chunks tok split_mode _keep_pos _ng_words chunks [] with
      | Normal toks =>
          match ended with
          | Normal _ => Normal toks
          | Raise e => Raise e
          | Spin => Spin
          end
      | Raise e => Raise e
      | Spin => Spin
      end
  | _, _ => Raise RuntimeError
  end.

End Pipeline.

(* ===================================================================== *)
(** * Notions the specification speaks of *)
(* ===================================================================== *)

(** The words of a text, as the chunker reads them: the non-empty pieces of
    the stripped text. *)
Definition words (text : str) : list str :=
  filter truthy (_SPACE_SPLIT_split (strip text)).

(** The whitespace-collapsed text, in the specification's words: every run
    of whitespace replaced by one space, then leading and trailing
    whitespace removed. *)
Fixpoint squeeze_from (in_run : bool) (s : str) : str :=
  match s with
  | [] => []
  | c :: s' =>
      if is_space c
      then if in_run then squeeze_from true s' else SP :: squeeze_from true s'
      else c :: squeeze_from false s'
  end.
Definition collapse_whitespace (text : str) : str := strip (squeeze_from false text).

(** The words of a string read off directly: [cur] is the word being
    read. *)
Fixpoint words_from (cur : str) (s : str) : list str :=
  match s with
  | [] => if truthy cur then [cur] else []
  | c :: s' =>
      if is_space c
      then if truthy cur then cur :: words_from [] s' else words_from [] s'
      else words_from (cur ++ [c]) s'
  end.

Definition space_free (w : str) : Prop := Forall (fun c => is_space c = false) w.

(** What the chunker can put in a buffer: a non-empty run of
    non-whitespace characters. *)
Definition is_word (w : str) : Prop := w <> [] /\ space_free w.

(** A word cut from the left into pieces of [hard] characters, the last one
    holding what is left ([n] bounds the number of cuts). *)
Fixpoint pieces_upto (n : nat) (hard : Z) (w : str) : list str :=
  match n with
  | O => [w]
  | S n' =>
      if len w >? hard
      then slice_to w hard :: pieces_upto n' hard (slice_from w hard)
      else [w]
  end.
Definition pieces (hard : Z) (w : str) : list str := pieces_upto (length w) hard w.

(** A group is the list of words (or pieces of a word) behind one chunk. *)
Definition good_group (hard : Z) (g : list str) : Prop :=
  g <> [] /\ joined_len g <= hard.

(** A generator body that does not end by raising [RuntimeError]. *)
Definition no_runtime_error {A : Type} (g : gen A) : Prop :=
  ending g <> Raise RuntimeError.

(** A word of the text is fragmented when no chunk has it as one of its
    words. *)
Definition whole_in (w : str) (chunk : str) : bool := mem w (words chunk).
Definition fragmented_words (text : str) (chunks : list str) : list str :=
  filter (fun w => negb (existsb (whole_in w) chunks)) (words text).

(** The tokens one chunk adds: what the loop body, run on an empty [toks],
    leaves in it. *)
Definition chunk_tokens (tok : Tokenizer) (split_mode : SplitMode)
  (_keep_pos _ng_words : pyset) (chunk : str) : list str :=
  match analyse_chunk tok split_mode _keep_pos _ng_words [] chunk with
  | Normal toks => toks
  | _ => []
  end.

(** The token a morpheme adds, if any. *)
Definition kept (_keep_pos _ng_words : pyset) (m : Morpheme) : list str :=
  match keep_token _keep_pos _ng_words m with
  | Normal (Some surf) => [surf]
  | _ => []
  end.

(** One round of the [while] loop on a buffer of one word. *)
Ltac unroll_force_split :=
  cbn [force_split];
  repeat match goal with
         | |- context [last_item [?w]] => change (last_item [w]) with (Some w)
         end;
  cbv beta iota.

(* ===================================================================== *)
(** * A table-driven NFKC for the code points of the examples *)
(* ===================================================================== *)

Module NFKC.

(** Modelled from the spec: [unicodedata.normalize("NFKC", s)] is not
    part of the module; this is the normalization algorithm of the Unicode
    standard (compatibility decomposition, canonical ordering, canonical
    composition) run on the character data of the code points listed
    below.  It agrees with the library on strings over these code points
    and over code points that have no decomposition, combining class 0
    and take part in no composition (ASCII, kana, CJK ideographs); it is
    used for concrete inputs only. *)
Definition decomposition_table : list (codepoint * list codepoint) :=
  [ (0x00A0, [0x20]); (0x3000, [0x20]);
    (0xFF01, [0x21]); (0xFF08, [0x28]); (0xFF09, [0x29]); (0xFF1F, [0x3F]);
    (0x2026, [0x2E; 0x2E; 0x2E]);
    (0xFF62, [0x300C]); (0xFF63, [0x300D]); (0xFF65, [0x30FB]);
    (0x00E9, [0x65; 0x301]);
    (0xFF76, [0x30AB]); (0xFF9E, [0x3099]); (0x30AC, [0x30AB; 0x3099]) ]%N.

Definition combining_table : list (codepoint * N) :=
  [ (0x301, 230); (0x3099, 8) ]%N.

Definition composition_table : list (codepoint * codepoint * codepoint) :=
  [ (0x65, 0x301, 0xE9); (0x30AB, 0x3099, 0x30AC) ]%N.

Fixpoint assoc {V : Type} (k : codepoint) (t : list (codepoint * V)) : option V :=
  match t with
  | [] => None
  | (k', v) :: t' => if (k =? k')%N then Some v else assoc k t'
  end.

Definition decompose (c : codepoint) : list codepoint :=
  match assoc c decomposition_table with Some d => d | None => [c] end.

Definition ccc (c : codepoint) : N :=
  match assoc c combining_table with Some n => n | None => 0%N end.

Fixpoint primary_composite_in (t : list (codepoint * codepoint * codepoint))
  (l c : codepoint) : option codepoint :=
  match t with
  | [] => None
  | (l', c', lc) :: t' =>
      if ((l =? l') && (c =? c'))%N then Some lc else primary_composite_in t' l c
  end.
Definition primary_composite := primary_composite_in composition_table.

(** Canonical ordering: a combining mark moves left past the marks of a
    higher combining class; [done] is the text read so far, reversed. *)
Fixpoint insert_mark (c : codepoint) (done : list codepoint) : list codepoint :=
  match done with
  | b :: done' =>
      if ((0 <? ccc c) && (ccc c <? ccc b))%N
      then b :: insert_mark c done' else c :: done
  | [] => [c]
  end.
Definition canonical_order (s : str) : str :=
  rev (fold_left (fun done c => insert_mark c done) s []).

(** Canonical composition: [starter] is the last starter read, [marks] the
    characters kept after it. *)
Fixpoint compose_from (starter : option codepoint) (marks : list codepoint)
  (s : str) : str :=
  match s with
  | [] => match starter with Some l => l :: marks | None => marks end
  | c :: s' =>
      match starter with
      | None =>
          if (ccc c =? 0)%N then compose_from (Some c) [] s'
          else c :: compose_from None [] s'
      | Some l =>
          let blocked := existsb (fun b => (ccc c <=? ccc b)%N) marks in
          match (if blocked then None else primary_composite l c) with
          | Some lc => compose_from (Some lc) marks s'
          | None =>
              if (ccc c =? 0)%N then l :: marks ++ compose_from (Some c) [] s'
              else compose_from (Some l) (marks ++ [c]) s'
          end
      end
  end.

Definition nfkc (s : str) : str :=
  compose_from None [] (canonical_order (flat_map decompose s)).

End NFKC.

(* ===================================================================== *)
(** * Sample data *)
(* ===================================================================== *)

Definition A_ : codepoint := 0x61%N.
Definition B_ : codepoint := 0x62%N.
Definition C_ : codepoint := 0x63%N.
Definition D_ : codepoint := 0x64%N.

(** "名詞" (noun), "助詞" (particle) and "一般" (general) *)
Definition POS_NOUN : str := [0x540D; 0x8A5E]%N.
Definition POS_PARTICLE : str := [0x52A9; 0x8A5E]%N.
Definition POS_GENERAL : str := [0x4E00; 0x822C]%N.

(** The verb morpheme with surface "食べた" and dictionary form "食べる". *)
Definition tabeta : Morpheme :=
  {| surface := [0x98DF; 0x3079; 0x305F]%N;
     dictionary_form := [0x98DF; 0x3079; 0x308B]%N;
     part_of_speech := [POS_VERB; POS_GENERAL] |}.

(** An analyzer that reads a chunk as one noun, the chunk itself, and fails
    on the chunk "bbb" with an exception of the class [Exception]. *)
Definition noun_tok : Tokenizer :=
  {| tokenize := fun chunk _ =>
       if str_eqb chunk [B_; B_; B_] then Raises AnalyzerError
       else Morphemes [ {| surface := chunk; dictionary_form := chunk;
                           part_of_speech := [POS_NOUN; POS_GENERAL] |} ] |}.

(** The same analyzer, interrupted from the keyboard on the chunk "bbb". *)
Definition interrupted_tok : Tokenizer :=
  {| tokenize := fun chunk _ =>
       if str_eqb chunk [B_; B_; B_] then Raises KeyboardInterrupt
       else Morphemes [ {| surface := chunk; dictionary_form := chunk;
                           part_of_speech := [POS_NOUN; POS_GENERAL] |} ] |}.

(** A class of characters that NFKC leaves as they are in any company, for
    the examples: the ASCII characters and the katakana KA. *)
Definition sample_plain (c : codepoint) : bool := ((c <? 0x80) || (c =? 0x30AB))%N.

(** An analyzer whose second morpheme of three has no part-of-speech
    tags. *)
Definition faulty_tok : Tokenizer :=
  {| tokenize := fun chunk _ =>
       Morphemes
         [ {| surface := chunk; dictionary_form := chunk;
              part_of_speech := [POS_NOUN; POS_GENERAL] |};
           {| surface := chunk; dictionary_form := chunk; part_of_speech := [] |};
           {| surface := chunk; dictionary_form := chunk;
              part_of_speech := [POS_NOUN; POS_GENERAL] |} ] |}.

(* ===================================================================== *)
(** * Notions for the chunker under any [max_chars] *)
(* ===================================================================== *)

(** A group respects the soft limit when it is within [max] or is a single
    item. *)
Definition soft (max : Z) (g : list str) : Prop :=
  joined_len g <= max \/ (length g <= 1)%nat.

(** What a buffer, or a group behind a chunk, always is when
    [0 < hard]: made of words, within the hard limit, and within the soft
    limit unless it is one item. *)
Definition tidy (max hard : Z) (g : list str) : Prop :=
  Forall is_word g /\ joined_len g <= hard /\ soft max g.

(** Greedy packing: no group could have taken the first item of the next
    group within [max]; on groups, and on the chunks they are joined into. *)
Fixpoint greedy (max : Z) (gs : list (list str)) : Prop :=
  match gs with
  | [] => True
  | g :: tl =>
      match tl with
      | [] => True
      | h :: _ => max < joined_len g + 1 + len (hd [] h) /\ greedy max tl
      end
  end.

Fixpoint packed (max : Z) (chunks : list str) : Prop :=
  match chunks with
  | [] => True
  | c :: tl =>
      match tl with
      | [] => True
      | d :: _ => max < len c + 1 + len (hd [] (words d)) /\ packed max tl
      end
  end.

(* ===================================================================== *)
(** * The collector [note/utils/lyric_collect.py] *)
(* ===================================================================== *)

Module Collect.

(** [s.startswith(old)] *)
Definition starts_with (old s : str) : bool :=
  str_eqb (firstn (length old) s) old.

(** [s.replace(old, new)] for a non-empty [old]: the text is read from the
    left; where [old] starts, [new] is written and [old] is passed over
    ([skip] counts the characters of it still to pass). *)
Fixpoint replace_from (skip : nat) (old new s : str) : str :=
  match s with
  | [] => []
  | c :: s' =>
      match skip with
      | S k => replace_from k old new s'
      | O =>
          if starts_with old (c :: s')
          then new ++ replace_from (Nat.pred (length old)) old new s'
          else c :: replace_from O old new s'
      end
  end.

(** [s.replace(old, new)]; with an empty [old], [new] is written before
    every character and at the end. *)
Definition str_replace (s old new : str) : str :=
  match old with
  | [] => new ++ flat_map (fun c => c :: new) s
  | _ :: _ => replace_from O old new s
  end.

(** "\n", "　" and "<NL>" *)
Definition LINE_FEED : str := [0x0A]%N.
Definition IDEOGRAPHIC_SPACE : str := [0x3000]%N.
Definition NL_MARK : str := [0x3C; 0x4E; 0x4C; 0x3E]%N.

Section CleanText.

(** [neologdn.normalize] and [str.lower] are library primitives. *)
Variable neologdn_normalize : str -> str.
Variable lower : str -> str.

Definition clean_text (text : str) : str :=
  let text := str_replace (str_replace text LINE_FEED NL_MARK) IDEOGRAPHIC_SPACE NL_MARK in
  let res := neologdn_normalize text in
  let res := str_replace text NL_MARK [SP] in
  let res := lower res in
  res.

End CleanText.

(** A line feed or an ideographic space read as a space. *)
Definition spaced (c : codepoint) : codepoint :=
  if ((c =? 0x0A) || (c =? 0x3000))%N then SP else c.

(** A line feed or an ideographic space written as the mark. *)
Definition marked (c : codepoint) : str :=
  if ((c =? 0x0A) || (c =? 0x3000))%N then NL_MARK else [c].

(** The exceptions the module raises itself, and results with them. *)
Inductive py_error := TypeError | ValueError.

Inductive result (A : Type) :=
| Ok (a : A)
| Error (e : py_error).
Arguments Ok {A} a.
Arguments Error {A} e.

(** A song as [get_song_list_from_soup] builds it, a dict with six keys
    whose values may be [None]; [lyric] and [release] are the keys that
    [get_whole_song_lyrics] adds ([None] here: the key is absent). *)
Record Song := {
  title : option str;
  artist : option str;
  lyricist : option str;
  composer : option str;
  arranger : option str;
  lyrics_url : option str;
  lyric : option str;
  release : option str
}.

(** [song["lyric"] = lyric; song["release"] = release] *)
Definition set_lyric (song : Song) (ly rel : str) : Song :=
  {| title := title song; artist := artist song; lyricist := lyricist song;
     composer := composer song; arranger := arranger song;
     lyrics_url := lyrics_url song;
     lyric := Some ly; release := Some rel |}.

(** "artist", "lyricist", "composer", "arranger" *)
Definition ARTIST : str := [0x61; 0x72; 0x74; 0x69; 0x73; 0x74]%N.
Definition LYRICIST : str := [0x6C; 0x79; 0x72; 0x69; 0x63; 0x69; 0x73; 0x74]%N.
Definition COMPOSER : str := [0x63; 0x6F; 0x6D; 0x70; 0x6F; 0x73; 0x65; 0x72]%N.
Definition ARRANGER : str := [0x61; 0x72; 0x72; 0x61; 0x6E; 0x67; 0x65; 0x72]%N.

(** A request sent with [requests.get]: a page of a listing, named by what
    its URL is built from (the lowered target, the id, the mode and the page
    number, under the fixed base URL), or the page of one lyric, named by
    its URL. *)
Inductive request :=
| ListingPage (lower_target target_id : str) (mode page_no : Z)
| LyricPage (lyrics_url : str).

(** A computation that sends requests: the requests sent, in order, and its
    result. *)
Definition io (A : Type) : Type := list request * result A.

Definition io_ret {A} (a : A) : io A := ([], Ok a).
Definition io_bind {A B} (m : io A) (k : A -> io B) : io B :=
  match m with
  | (log, Ok a) => let (log', r) := k a in (log ++ log', r)
  | (log, Error e) => (log, Error e)
  end.
Definition io_lift {A} (r : result A) : io A := ([], r).

(** [range(lo, hi)] *)
Definition py_range (lo hi : Z) : list Z :=
  map (fun i => lo + Z.of_nat i) (seq 0 (Z.to_nat (hi - lo))).

Section Listing.

(** The library and the network: [str.lower], the parsed page a request
    returns (the site is taken to answer a request the same way throughout
    one call), and what the code reads off a page through BeautifulSoup and
    regular expressions. *)
Variable lower : str -> str.
Variable neologdn_normalize : str -> str.
Variable Soup : Type.
Variable page_of : request -> Soup.
Variable parse_total_pages : Soup -> result Z.
Variable get_song_list_from_soup : Soup -> result (list Song).
(** [target_div.get_text(" ").strip() if target_div else ""] and the
    release date found in the song information, or [""]. *)
Variable kashi_area_text : Soup -> str.
Variable release_date_of : Soup -> str.

Definition get_target_lyric_soup (target_id target : str) (mode page_no : Z) : io Soup :=
  let lower_target := lower target in
  if negb (mem lower_target [ARTIST; LYRICIST; COMPOSER; ARRANGER])
  then io_lift (Error ValueError)
  else if negb ((1 <=? mode) && (mode <=? 6))
  then io_lift (Error ValueError)
  else ([ListingPage lower_target target_id mode page_no],
        Ok (page_of (ListingPage lower_target target_id mode page_no))).

(** The loop [for i in range(1, ttl_page)]: the pages are asked for with the
    default target and mode of [get_target_lyric_soup].  What the module
    prints and its [time.sleep] calls are left out here and below. *)
Fixpoint fetch_more_pages (target_id : str) (pages : list Z) (soup_list : list Soup)
  : io (list Soup) :=
  match pages with
  | [] => io_ret soup_list
  | i :: pages' =>
      io_bind (get_target_lyric_soup target_id ARTIST 4 i) (fun soup =>
      fetch_more_pages target_id pages' (soup_list ++ [soup]))
  end.

(** The loop [for soup in soup_list: song_list += ...]. *)
Fixpoint gather_songs (soup_list : list Soup) (song_list : list Song)
  : result (list Song) :=
  match soup_list with
  | [] => Ok song_list
  | soup :: soup_list' =>
      match get_song_list_from_soup soup with
      | Ok songs => gather_songs soup_list' (song_list ++ songs)
      | Error e => Error e
      end
  end.

Definition get_whole_song_list (target_id target : str) (mode : Z) : io (list Song) :=
  io_bind (get_target_lyric_soup target_id target mode 1) (fun soup =>
  io_bind (io_lift (parse_total_pages soup)) (fun ttl_page =>
  io_bind (fetch_more_pages target_id (py_range 1 ttl_page) [soup]) (fun soup_list =>
  io_lift (gather_songs soup_list [])))).

Definition get_lyric_and_release (lyrics_url : str) (clean : bool) : io (str * str) :=
  let soup := page_of (LyricPage lyrics_url) in
  let row_lyric := kashi_area_text soup in
  let out_lyric := if clean then clean_text neologdn_normalize lower row_lyric
                   else row_lyric in
  ([LyricPage lyrics_url], Ok (out_lyric, release_date_of soup)).

(** The loop [for i, song in enumerate(song_list[:sample_n])]: the title is
    formatted with a width, which raises [TypeError] on [None]; the dicts
    are updated in place, here rebuilt. *)
Fixpoint fill_lyrics (songs : list Song) : io (list Song) :=
  match songs with
  | [] => io_ret []
  | song :: songs' =>
      match title song with
      | None => io_lift (Error TypeError)
      | Some _ =>
          io_bind (match lyrics_url song with
                   | Some url => if truthy url then get_lyric_and_release url true
                                 else io_ret ([], [])
                   | None => io_ret ([], [])
                   end) (fun lr =>
          io_bind (fill_lyrics songs') (fun filled =>
          io_ret (set_lyric song (fst lr) (snd lr) :: filled)))
      end
  end.

(** [min(sample_n, len(song_list)) if sample_n else len(song_list)] *)
Definition sample_bound (sample_n : option Z) (n : Z) : Z :=
  match sample_n with
  | Some k => if k =? 0 then n else Z.min k n
  | None => n
  end.

Definition get_whole_song_lyrics (target_id target : str) (mode : Z)
  (sample_n : option Z) : io (list Song) :=
  io_bind (get_whole_song_list target_id target mode) (fun song_list =>
  let sample_n := sample_bound sample_n (len song_list) in
  let k := slice_bound (len song_list) sample_n in
  io_bind (fill_lyrics (firstn k song_list)) (fun filled =>
  io_ret (filled ++ skipn k song_list))).

(** What the loop does with one titled song: the request it sends, if the
    song has a URL, and the song it leaves. *)
Definition lyric_requests (song : Song) : list request :=
  match lyrics_url song with
  | Some url => if truthy url then [LyricPage url] else []
  | None => []
  end.

Definition with_lyric (song : Song) : Song :=
  match lyrics_url song with
  | Some url =>
      if truthy url
      then set_lyric song
             (clean_text neologdn_normalize lower
                (kashi_area_text (page_of (LyricPage url))))
             (release_date_of (page_of (LyricPage url)))
      else set_lyric song [] []
  | None => set_lyric song [] []
  end.

End Listing.

(** How many songs, from the first, are given lyrics: all of them for no
    [sample_n] and for 0, at most [sample_n] for a positive one, and all but
    the last [-sample_n] for a negative one. *)
Definition sampled (sample_n : option Z) (n : Z) : nat :=
  Z.to_nat
    match sample_n with
    | None => n
    | Some k => if k =? 0 then n else if 0 <? k then Z.min k n else Z.max 0 (n + k)
    end.

(** A sample site: a page is known by its number (0 for a lyric page), a
    listing has three pages of one song each, and only the song of page 1
    has a URL. *)
Definition sample_page_of (r : request) : Z :=
  match r with
  | ListingPage _ _ _ page_no => page_no
  | LyricPage _ => 0
  end.

Definition sample_song (page_no : Z) : Song :=
  {| title := Some [0x61; 0x62]%N; artist := Some [0x63]%N; lyricist := Some [0x63]%N;
     composer := Some [0x63]%N; arranger := Some [0x63]%N;
     lyrics_url := if page_no =? 1 then Some [0x75]%N else None;
     lyric := None; release := None |}.

Definition sample_total_pages (_ : Z) : result Z := Ok 3.
Definition sample_song_list (page_no : Z) : result (list Song) := Ok [sample_song page_no].
Definition sample_text (_ : Z) : str := [0x4C; 0x0A; 0x61]%N.
Definition sample_date (_ : Z) : str := [0x32; 0x30]%N.
Definition same (s : str) : str := s.

End Collect.

(* ===================================================================== *)
(** * Lengths, truth values and the generator monad *)
(* ===================================================================== *)

Lemma len_nil {A} : len (@nil A) = 0.
Proof. reflexivity. Qed.

Lemma len_cons {A} (a : A) (l : list A) : len (a :: l) = 1 + len l.
Proof. unfold len. cbn [length]. lia. Qed.

Lemma len_app {A} (l1 l2 : list A) : len (l1 ++ l2) = len l1 + len l2.
Proof. unfold len. rewrite length_app. lia. Qed.

Lemma len_nonneg {A} (l : list A) : 0 <= len l.
Proof. unfold len. lia. Qed.

Lemma truthy_true {A} (l : list A) : truthy l = true <-> l <> [].
Proof. destruct l; cbn; split; congruence. Qed.

Lemma truthy_false {A} (l : list A) : truthy l = false <-> l = [].
Proof. destruct l; cbn; split; congruence. Qed.

Lemma truthy_len {A} (l : list A) : truthy l = true <-> 0 < len l.
Proof. unfold len. destruct l; cbn [truthy length]; split; (congruence || lia). Qed.

Lemma str_eqb_eq (a b : str) : str_eqb a b = true <-> a = b.
Proof. unfold str_eqb. destruct (list_eq_dec N.eq_dec a b); split; congruence. Qed.

Lemma mem_In (x : str) (s : pyset) : mem x s = true <-> In x s.
Proof.
  unfold mem. rewrite existsb_exists. split.
  - intros (y & Hin & Heq). apply str_eqb_eq in Heq. now subst.
  - intros Hin. exists x. split; [assumption | now apply str_eqb_eq].
Qed.

Lemma bind_normal {A B} (ys : list str) (a : A) (k : A -> gen B) :
  bind (ys, Normal a) k = (ys ++ fst (k a), snd (k a)).
Proof. cbn. now destruct (k a). Qed.

Lemma bind_ret {A B} (a : A) (k : A -> gen B) : bind (ret a) k = k a.
Proof. unfold ret. rewrite bind_normal. now destruct (k a). Qed.

Lemma bind_yield {B} (c : str) (k : unit -> gen B) :
  bind (yield c) k = (c :: fst (k tt), snd (k tt)).
Proof. unfold yield. now rewrite bind_normal. Qed.

(* ===================================================================== *)
(** * Stripping, splitting and joining *)
(* ===================================================================== *)

Lemma filter_split_words (s : str) : forall in_run cur,
  (in_run = true -> cur = []) ->
  filter truthy (space_split_from in_run cur s) = words_from cur s.
Proof.
  induction s as [|c s IH]; intros in_run cur Hrun; cbn.
  - now destruct (truthy cur).
  - destruct (is_space c).
    + destruct in_run.
      * rewrite (Hrun eq_refl). cbn. now apply IH.
      * cbn [filter]. rewrite IH by reflexivity. reflexivity.
    + apply IH. discriminate.
Qed.

Lemma lstrip_snoc (a : str) (c : codepoint) :
  lstrip (a ++ [c]) =
  match lstrip a with [] => lstrip [c] | _ :: _ => lstrip a ++ [c] end.
Proof.
  induction a as [|x a IH]; [reflexivity|].
  cbn [app lstrip]. destruct (is_space x); [exact IH | reflexivity].
Qed.

(** [rstrip] read from the left. *)
Lemma rstrip_cons (c : codepoint) (x : str) :
  rstrip (c :: x) =
  match rstrip x with
  | [] => if is_space c then [] else [c]
  | _ :: _ => c :: rstrip x
  end.
Proof.
  unfold rstrip. cbn [rev]. rewrite lstrip_snoc.
  destruct (lstrip (rev x)) as [|y r] eqn:E.
  - cbn. now destruct (is_space c).
  - rewrite rev_app_distr. cbn [rev app].
    destruct (rev r ++ [y]) eqn:E'; [now destruct (rev r) | reflexivity].
Qed.

Lemma rstrip_cons_word (c : codepoint) (x : str) :
  is_space c = false -> rstrip (c :: x) = c :: rstrip x.
Proof. intros H. rewrite rstrip_cons, H. now destruct (rstrip x). Qed.

Lemma words_from_lstrip (s : str) : words_from [] (lstrip s) = words_from [] s.
Proof.
  induction s as [|c s IH]; [reflexivity|].
  cbn [lstrip]. destruct (is_space c) eqn:E; [|reflexivity].
  cbn [words_from truthy]. now rewrite E.
Qed.

Lemma words_from_cons (cur : str) (c : codepoint) (s : str) :
  words_from cur (c :: s) =
  if is_space c
  then if truthy cur then cur :: words_from [] s else words_from [] s
  else words_from (cur ++ [c]) s.
Proof. reflexivity. Qed.

Lemma words_from_rstrip (s : str) : forall cur,
  words_from cur (rstrip s) = words_from cur s.
Proof.
  induction s as [|c s IH]; intros cur; [reflexivity|].
  rewrite rstrip_cons. destruct (rstrip s) as [|y r] eqn:E.
  - rewrite (words_from_cons cur c s).
    destruct (is_space c) eqn:Ec.
    + rewrite <- (IH []). reflexivity.
    + rewrite <- (IH (cur ++ [c])). cbn [words_from]. now rewrite Ec.
  - rewrite (words_from_cons cur c s), (words_from_cons cur c (y :: r)).
    now rewrite !IH.
Qed.

Lemma words_words_from (text : str) : words text = words_from [] text.
Proof.
  unfold words, _SPACE_SPLIT_split, strip.
  rewrite filter_split_words by discriminate.
  now rewrite words_from_rstrip, words_from_lstrip.
Qed.

Lemma words_from_is_word (s : str) : forall cur,
  space_free cur -> Forall is_word (words_from cur s).
Proof.
  induction s as [|c s IH]; intros cur Hcur; cbn [words_from].
  - destruct (truthy cur) eqn:E; constructor; [|constructor].
    split; [now apply truthy_true | assumption].
  - destruct (is_space c) eqn:Ec.
    + destruct (truthy cur) eqn:E.
      * constructor; [split; [now apply truthy_true | assumption]|].
        apply IH. constructor.
      * apply IH. constructor.
    + apply IH. unfold space_free. apply Forall_app. split; [assumption|].
      constructor; [assumption | constructor].
Qed.

Lemma words_is_word (text : str) : Forall is_word (words text).
Proof. rewrite words_words_from. apply words_from_is_word. constructor. Qed.

Lemma is_space_SP : is_space SP = true.
Proof. reflexivity. Qed.

Lemma lstrip_squeeze_run (s : str) :
  lstrip (squeeze_from true s) = squeeze_from true s.
Proof.
  induction s as [|c s IH]; [reflexivity|].
  cbn [squeeze_from]. destruct (is_space c) eqn:E; [exact IH|].
  cbn [lstrip]. now rewrite E.
Qed.

Lemma lstrip_squeeze (s : str) :
  lstrip (squeeze_from false s) = squeeze_from true s.
Proof.
  destruct s as [|c s]; [reflexivity|].
  cbn [squeeze_from]. destruct (is_space c) eqn:E.
  - cbn [lstrip]. rewrite is_space_SP. apply lstrip_squeeze_run.
  - cbn [lstrip]. now rewrite E.
Qed.

Lemma join_space_cons (w : str) (l : list str) :
  join_space (w :: l) = if truthy l then w ++ SP :: join_space l else w.
Proof. now destruct l. Qed.

Lemma join_space_nonempty (l : list str) :
  Forall (fun w => w <> []) l -> l <> [] -> join_space l <> [].
Proof.
  intros Hall Hl. destruct l as [|w l]; [congruence|].
  inversion Hall as [|? ? Hw _]; subst.
  rewrite join_space_cons. destruct (truthy l); [|assumption].
  destruct w; [congruence | discriminate].
Qed.

Lemma is_word_nonempty (l : list str) :
  Forall is_word l -> Forall (fun w => w <> []) l.
Proof. apply Forall_impl. now intros w [H _]. Qed.

(** Joining the words of a string gives the squeezed string without its
    trailing space; a word in progress stays in front. *)
Lemma join_words_from (s : str) : forall cur,
  (cur <> [] ->
   join_space (words_from cur s) = cur ++ rstrip (squeeze_from false s))
  /\ join_space (words_from [] s) = rstrip (squeeze_from true s).
Proof.
  induction s as [|c s IH]; intros cur.
  - split; [|reflexivity]. intros Hcur. cbn [words_from].
    apply truthy_true in Hcur. rewrite Hcur. cbn. now rewrite app_nil_r.
  - destruct (IH []) as [_ IHnil]. split.
    + intros Hcur. rewrite words_from_cons. cbn [squeeze_from].
      destruct (is_space c) eqn:Ec.
      * pose proof Hcur as Ht. apply truthy_true in Ht. rewrite Ht.
        rewrite join_space_cons, rstrip_cons, is_space_SP, <- IHnil.
        destruct (words_from [] s) as [|w l] eqn:Ew.
        -- cbn. now rewrite app_nil_r.
        -- cbn [truthy].
           assert (Hne : join_space (w :: l) <> []).
           { apply join_space_nonempty; [|discriminate].
             apply is_word_nonempty. rewrite <- Ew.
             apply words_from_is_word. constructor. }
           destruct (join_space (w :: l)); [congruence | reflexivity].
      * destruct (IH (cur ++ [c])) as [IHc _].
        rewrite IHc by (destruct cur; discriminate).
        rewrite rstrip_cons_word by assumption.
        now rewrite <- app_assoc.
    + rewrite words_from_cons. cbn [squeeze_from truthy].
      destruct (is_space c) eqn:Ec; [exact IHnil|].
      destruct (IH ([] ++ [c])) as [IHc _].
      rewrite IHc by discriminate.
      now rewrite rstrip_cons_word by assumption.
Qed.

Lemma join_words_collapse (text : str) :
  join_space (words text) = collapse_whitespace text.
Proof.
  rewrite words_words_from. unfold collapse_whitespace, strip.
  rewrite lstrip_squeeze. apply (join_words_from text []).
Qed.

Lemma join_space_app (l1 l2 : list str) :
  l1 <> [] -> l2 <> [] ->
  join_space (l1 ++ l2) = join_space l1 ++ SP :: join_space l2.
Proof.
  intros H1 H2. induction l1 as [|w l1 IH]; [congruence|].
  cbn [app]. rewrite !join_space_cons. destruct l1 as [|w' l1].
  - cbn [app truthy]. apply truthy_true in H2. now rewrite H2.
  - cbn [truthy app]. cbn [app] in IH. rewrite IH by discriminate.
    now rewrite <- app_assoc.
Qed.

Lemma join_join_concat (gs : list (list str)) :
  Forall (fun g => g <> []) gs ->
  join_space (map join_space gs) = join_space (concat gs).
Proof.
  induction gs as [|g gs IH]; intros Hall; [reflexivity|].
  inversion Hall as [|? ? Hg Hgs]; subst.
  cbn [map concat]. rewrite join_space_cons. destruct gs as [|g' gs].
  - cbn. now rewrite app_nil_r.
  - cbn [map truthy]. rewrite join_space_app.
    + f_equal. f_equal. apply (IH Hgs).
    + assumption.
    + inversion Hgs; subst. cbn [concat]. destruct g'; [congruence | discriminate].
Qed.

Lemma sum_len_app (l1 l2 : list str) : sum_len (l1 ++ l2) = sum_len l1 + sum_len l2.
Proof.
  unfold sum_len. induction l1 as [|w l1 IH]; cbn [app fold_right]; [reflexivity|].
  rewrite IH. lia.
Qed.

Lemma joined_len_single (w : str) : joined_len [w] = len w.
Proof. unfold joined_len, sum_len, len. cbn. lia. Qed.

Lemma joined_len_snoc (l : list str) (w : str) :
  l <> [] -> joined_len (l ++ [w]) = joined_len l + 1 + len w.
Proof.
  intros Hl. unfold joined_len. rewrite sum_len_app, len_app.
  assert (0 < len l) by (apply truthy_len; now apply truthy_true).
  change (sum_len [w]) with (len w + 0). change (len [w]) with 1. lia.
Qed.

Lemma len_join_space (l : list str) :
  l <> [] -> len (join_space l) = joined_len l.
Proof.
  induction l as [|w l IH]; intros Hl; [congruence|].
  rewrite join_space_cons. destruct l as [|w' l].
  - cbn [truthy]. now rewrite joined_len_single.
  - cbn [truthy]. rewrite len_app, len_cons, IH by discriminate.
    unfold joined_len. cbn [sum_len fold_right]. rewrite !len_cons.
    pose proof (len_nonneg l). lia.
Qed.

Lemma words_from_word (w : str) : forall cur s,
  space_free w -> words_from cur (w ++ s) = words_from (cur ++ w) s.
Proof.
  induction w as [|c w IH]; intros cur s Hw.
  - now rewrite app_nil_r.
  - inversion Hw as [|? ? Hc Hw']; subst. cbn [app]. rewrite words_from_cons, Hc.
    rewrite IH by assumption. now rewrite <- app_assoc.
Qed.

Lemma words_join_space (g : list str) :
  Forall is_word g -> words (join_space g) = g.
Proof.
  rewrite words_words_from.
  induction g as [|w g IH]; intros Hall; [reflexivity|].
  inversion Hall as [|? ? [Hne Hsf] Hg]; subst.
  rewrite join_space_cons. destruct g as [|w' g].
  - cbn [truthy]. pose proof (words_from_word w [] [] Hsf) as Hw.
    rewrite app_nil_r in Hw. rewrite Hw. cbn.
    apply truthy_true in Hne. now rewrite Hne.
  - cbn [truthy]. rewrite words_from_word by assumption.
    cbn [app]. rewrite words_from_cons, is_space_SP.
    apply truthy_true in Hne. rewrite Hne. now rewrite (IH Hg).
Qed.

(* ===================================================================== *)
(** * Slices and the pieces of a long word *)
(* ===================================================================== *)

Lemma slice_bound_inside (n k : Z) :
  0 <= k <= n -> slice_bound n k = Z.to_nat k.
Proof.
  intros H. unfold slice_bound.
  destruct (k <? 0) eqn:E; [apply Z.ltb_lt in E; lia|].
  f_equal. lia.
Qed.

Lemma slice_to_from (w : str) (k : Z) : slice_to w k ++ slice_from w k = w.
Proof. apply firstn_skipn. Qed.

Lemma len_slice_to (w : str) (k : Z) :
  0 <= k <= len w -> len (slice_to w k) = k.
Proof.
  intros H. unfold slice_to. rewrite slice_bound_inside by assumption.
  unfold len in *. rewrite length_firstn. lia.
Qed.

Lemma len_slice_from (w : str) (k : Z) :
  0 <= k <= len w -> len (slice_from w k) = len w - k.
Proof.
  intros H. unfold slice_from. rewrite slice_bound_inside by assumption.
  unfold len in *. rewrite length_skipn. lia.
Qed.

Lemma space_free_slice_to (w : str) (k : Z) : space_free w -> space_free (slice_to w k).
Proof.
  intros H.
  assert (H' : space_free (slice_to w k ++ slice_from w k))
    by now rewrite slice_to_from.
  now apply Forall_app in H'.
Qed.

Lemma space_free_slice_from (w : str) (k : Z) : space_free w -> space_free (slice_from w k).
Proof.
  intros H.
  assert (H' : space_free (slice_to w k ++ slice_from w k))
    by now rewrite slice_to_from.
  now apply Forall_app in H'.
Qed.

Lemma len_pos_nonempty {A} (l : list A) : 0 < len l -> l <> [].
Proof. intros H ->. unfold len in H. cbn in H. lia. Qed.

Lemma pieces_upto_short (n : nat) (hard : Z) (w : str) :
  len w <= hard -> pieces_upto n hard w = [w].
Proof.
  intros H. destruct n; [reflexivity|]. cbn [pieces_upto].
  destruct (len w >? hard) eqn:E; [apply Z.gtb_lt in E; lia | reflexivity].
Qed.

Lemma pieces_upto_stable (hard : Z) : 0 < hard -> forall n m w,
  (length w <= n)%nat -> (length w <= m)%nat ->
  pieces_upto n hard w = pieces_upto m hard w.
Proof.
  intros Hh. induction n as [|n IH]; intros m w Hn Hm.
  - destruct w; [|cbn in Hn; lia].
    rewrite !pieces_upto_short by (rewrite len_nil; lia). reflexivity.
  - destruct (Z_le_gt_dec (len w) hard) as [Hs|Hl].
    + now rewrite !pieces_upto_short by assumption.
    + destruct m as [|m]; [unfold len in Hl; lia|].
      assert (Hb : (len w >? hard) = true) by (apply Z.gtb_lt; lia).
      cbn [pieces_upto]. rewrite Hb. f_equal.
      assert (Hr : len (slice_from w hard) = len w - hard)
        by (apply len_slice_from; lia).
      unfold len in Hr, Hl. apply IH; lia.
Qed.

Lemma pieces_short (hard : Z) (w : str) : len w <= hard -> pieces hard w = [w].
Proof. apply pieces_upto_short. Qed.

Lemma pieces_long (hard : Z) (w : str) :
  0 < hard -> hard < len w ->
  pieces hard w = slice_to w hard :: pieces hard (slice_from w hard).
Proof.
  intros Hh Hl. unfold pieces at 1.
  destruct (length w) as [|n] eqn:En; [unfold len in Hl; lia|].
  cbn [pieces_upto]. pose proof Hl as Hb. apply Z.gtb_lt in Hb. rewrite Hb.
  f_equal. unfold pieces.
  assert (Hr : len (slice_from w hard) = len w - hard)
    by (apply len_slice_from; lia).
  unfold len in Hr, Hl. apply pieces_upto_stable; lia.
Qed.

(** The pieces of a word, put end to end, are the word. *)
Lemma concat_pieces_upto (n : nat) (hard : Z) : forall w,
  concat (pieces_upto n hard w) = w.
Proof.
  induction n as [|n IH]; intros w; cbn [pieces_upto].
  - cbn. apply app_nil_r.
  - destruct (len w >? hard).
    + cbn [concat]. rewrite IH. apply slice_to_from.
    + cbn. apply app_nil_r.
Qed.

Lemma concat_pieces (hard : Z) (w : str) : concat (pieces hard w) = w.
Proof. apply concat_pieces_upto. Qed.

Lemma removelast_cons_ne {A} (a : A) (l : list A) :
  l <> [] -> removelast (a :: l) = a :: removelast l.
Proof. destruct l; [congruence | reflexivity]. Qed.

Lemma pieces_upto_nonempty (n : nat) (hard : Z) (w : str) : pieces_upto n hard w <> [].
Proof. destruct n; cbn [pieces_upto]; [|destruct (len w >? hard)]; discriminate. Qed.

(** With a positive bound every piece of a word is a word within the
    bound. *)
Lemma pieces_upto_bounded (hard : Z) : 0 < hard -> forall n w,
  (length w <= n)%nat -> is_word w ->
  Forall (fun p => is_word p /\ len p <= hard) (pieces_upto n hard w).
Proof.
  intros Hh. induction n as [|n IH]; intros w Hn [Hne Hsf].
  - destruct w; [congruence | cbn in Hn; lia].
  - cbn [pieces_upto]. destruct (len w >? hard) eqn:E.
    + apply Z.gtb_lt in E.
      assert (Hr : len (slice_from w hard) = len w - hard)
        by (apply len_slice_from; lia).
      assert (Ht : len (slice_to w hard) = hard) by (apply len_slice_to; lia).
      constructor.
      * split; [split|lia].
        -- apply len_pos_nonempty. lia.
        -- now apply space_free_slice_to.
      * apply IH.
        -- unfold len in Hr, E. lia.
        -- split; [apply len_pos_nonempty; lia | now apply space_free_slice_from].
    + constructor; [|constructor].
      split; [now split|]. destruct (Z.gtb_spec (len w) hard); [discriminate | lia].
Qed.

(** Every piece but the last has exactly [hard] characters. *)
Lemma pieces_upto_exact (hard : Z) : 0 < hard -> forall n w,
  Forall (fun p => len p = hard) (removelast (pieces_upto n hard w)).
Proof.
  intros Hh. induction n as [|n IH]; intros w; [constructor|].
  cbn [pieces_upto]. destruct (len w >? hard) eqn:E; [|constructor].
  apply Z.gtb_lt in E. rewrite removelast_cons_ne by apply pieces_upto_nonempty.
  constructor; [apply len_slice_to; lia | apply IH].
Qed.

Lemma pieces_bounded (hard : Z) (w : str) :
  0 < hard -> is_word w ->
  Forall (fun p => is_word p /\ len p <= hard) (pieces hard w).
Proof. intros Hh Hw. apply pieces_upto_bounded; [assumption | lia | assumption]. Qed.

(* ===================================================================== *)
(** * The forced split of a long word *)
(* ===================================================================== *)

Lemma last_item_snoc {A} (l : list A) (x : A) : last_item (l ++ [x]) = Some x.
Proof. unfold last_item. now rewrite rev_app_distr. Qed.

Lemma last_cons {A} (a d : A) (l : list A) : l <> [] -> last (a :: l) d = last l d.
Proof. destruct l; [congruence | reflexivity]. Qed.

(** With a positive bound the loop ends: it yields every piece of the last
    word but the final one, which stays in the buffer. *)
Lemma force_split_spec (hard : Z) (pre : list str) : 0 < hard ->
  forall fuel w, (length w < fuel)%nat ->
  force_split fuel hard (pre ++ [w]) (joined_len (pre ++ [w])) =
  (removelast (pieces hard w),
   Normal (pre ++ [last (pieces hard w) []],
           joined_len (pre ++ [last (pieces hard w) []]))).
Proof.
  intros Hh. induction fuel as [|fuel IH]; intros w Hfuel; [lia|].
  cbn [force_split]. rewrite last_item_snoc.
  destruct (len w >? hard) eqn:E.
  - apply Z.gtb_lt in E. rewrite removelast_last, bind_yield.
    assert (Hr : len (slice_from w hard) = len w - hard)
      by (apply len_slice_from; lia).
    assert (Ht : truthy (slice_from w hard) = true) by (apply truthy_len; lia).
    rewrite Ht, IH by (unfold len in Hr, E; lia).
    rewrite (pieces_long hard w Hh E). cbn [fst snd].
    rewrite removelast_cons_ne, last_cons by apply pieces_upto_nonempty.
    reflexivity.
  - rewrite pieces_short by (destruct (Z.gtb_spec (len w) hard); [discriminate | lia]).
    reflexivity.
Qed.

(* ===================================================================== *)
(** * The chunker under [0 < hard_max_chars] and [max_chars <= hard_max_chars] *)
(* ===================================================================== *)

Lemma map_join_singletons (l : list str) :
  map join_space (map (fun x => [x]) l) = l.
Proof. induction l as [|x l IH]; cbn [map]; [reflexivity|]. now rewrite IH. Qed.

Lemma concat_singletons (l : list str) : concat (map (fun x : str => [x]) l) = l.
Proof. induction l as [|x l IH]; cbn [map concat]; [reflexivity|]. now rewrite IH. Qed.

Lemma pieces_split_last (hard : Z) (p : str) :
  pieces hard p = removelast (pieces hard p) ++ [last (pieces hard p) []].
Proof. apply app_removelast_last, pieces_upto_nonempty. Qed.

Lemma pieces_parts_bounded (hard : Z) (p : str) :
  0 < hard -> is_word p ->
  Forall (fun x => len x <= hard) (removelast (pieces hard p))
  /\ len (last (pieces hard p) []) <= hard.
Proof.
  intros Hh Hp. pose proof (pieces_bounded hard p Hh Hp) as Hall.
  rewrite pieces_split_last in Hall. apply Forall_app in Hall.
  destruct Hall as [Hinit Hlast]. split.
  - revert Hinit. apply Forall_impl. now intros x [_ Hx].
  - inversion Hlast as [|? ? [_ Hx] _]; subst. exact Hx.
Qed.

Lemma yield_then_ret {A} (c : str) (a : A) :
  (yield c ;;; ret a) = ([c], Normal a).
Proof. reflexivity. Qed.

Lemma failsafe_idle (hard : Z) (buf : list str) (cur_len : Z) :
  cur_len <= hard -> failsafe hard (buf, cur_len) = ret (buf, cur_len).
Proof.
  intros H. unfold failsafe.
  destruct (Z.gtb_spec cur_len hard); [lia | reflexivity].
Qed.

Lemma singleton_groups_good (hard : Z) (l : list str) :
  Forall (fun x => len x <= hard) l ->
  Forall (good_group hard) (map (fun x => [x]) l).
Proof.
  induction 1 as [|x l Hx _ IH]; cbn [map]; constructor; [|assumption].
  split; [discriminate | now rewrite joined_len_single].
Qed.

Lemma split_parts_space_free (s : str) : forall in_run cur,
  space_free cur -> Forall space_free (space_split_from in_run cur s).
Proof.
  induction s as [|c s IH]; intros in_run cur Hcur; cbn [space_split_from].
  - now constructor.
  - destruct (is_space c) eqn:Ec.
    + destruct in_run; [now apply IH|].
      constructor; [assumption | apply IH; constructor].
    + apply IH. apply Forall_app. split; [assumption|].
      constructor; [assumption | constructor].
Qed.

Lemma split_parts_length (s : str) : forall in_run cur,
  Forall (fun p => (length p <= length cur + length s)%nat)
         (space_split_from in_run cur s).
Proof.
  induction s as [|c s IH]; intros in_run cur; cbn [space_split_from length].
  - constructor; [lia | constructor].
  - destruct (is_space c).
    + destruct in_run.
      * eapply Forall_impl; [|apply IH]. cbn beta. intros; lia.
      * constructor; [lia|].
        eapply Forall_impl; [|apply IH]. cbn [length]. intros; lia.
    + eapply Forall_impl; [|apply IH]. cbn beta. intros p.
      rewrite length_app. cbn [length]. lia.
Qed.

Lemma lstrip_length (s : str) : (length (lstrip s) <= length s)%nat.
Proof.
  induction s as [|c s IH]; cbn [lstrip length]; [lia|].
  destruct (is_space c); cbn [length]; lia.
Qed.

Lemma strip_length (s : str) : (length (strip s) <= length s)%nat.
Proof.
  unfold strip, rstrip. rewrite length_rev.
  etransitivity; [apply lstrip_length|]. rewrite length_rev. apply lstrip_length.
Qed.

Section BoundedChunker.

(** The limits of a run, with the assumptions under which the fail-safe
    never fires and the forced split ends. *)
Variables max hard : Z.
Hypothesis hard_pos : 0 < hard.
Hypothesis max_le_hard : max <= hard.

(** One word through the loop body: the groups yielded and the buffer left
    hold, in order, the old buffer followed by the pieces of the word. *)
Lemma chunk_step_spec (fuel : nat) (p : str) (buf : list str) :
  joined_len buf <= hard ->
  is_word p -> (length p < fuel)%nat ->
  exists gs buf',
    chunk_step fuel max hard p (buf, joined_len buf)
    = (map join_space gs, Normal (buf', joined_len buf'))
    /\ concat gs ++ buf' = buf ++ pieces hard p
    /\ Forall (good_group hard) gs
    /\ joined_len buf' <= hard.
Proof.
  intros Hbuf Hp Hfuel.
  destruct (pieces_parts_bounded hard p hard_pos Hp) as [Hinit Hlast].
  pose proof Hp as [Hne _]. apply truthy_true in Hne.
  unfold chunk_step, add_word. rewrite Hne. cbn [negb].
  pose proof (force_split_spec hard [] hard_pos fuel p Hfuel) as push.
  cbn [app] in push. rewrite joined_len_single in push.
  destruct ((joined_len buf + ((if truthy buf then 1 else 0) + len p) >? max)
            && truthy buf) eqn:E.
  - (* the buffer is flushed and [p] starts a new one *)
    apply andb_prop in E. destruct E as [_ Hb]. apply truthy_true in Hb.
    exists (buf :: map (fun x => [x]) (removelast (pieces hard p))),
           [last (pieces hard p) []].
    rewrite yield_then_ret, bind_normal. cbn [fst snd].
    rewrite push, bind_normal.
    rewrite failsafe_idle by (now rewrite joined_len_single).
    cbn [fst snd ret map]. rewrite map_join_singletons, app_nil_r.
    rewrite joined_len_single. repeat split.
    + cbn [concat]. rewrite concat_singletons, <- app_assoc.
      now rewrite <- pieces_split_last.
    + constructor; [now split | now apply singleton_groups_good].
    + assumption.
  - rewrite bind_ret. cbn [fst snd]. destruct buf as [|b buf].
    + (* [p] is the first word of an empty buffer *)
      exists (map (fun x => [x]) (removelast (pieces hard p))),
             [last (pieces hard p) []].
      cbn [app truthy]. change (joined_len []) with 0.
      replace (0 + (0 + len p)) with (len p) by lia.
      rewrite push, bind_normal.
      rewrite failsafe_idle by (now rewrite joined_len_single).
      cbn [fst snd ret]. rewrite map_join_singletons, app_nil_r.
      rewrite joined_len_single. repeat split.
      * rewrite concat_singletons. now rewrite <- pieces_split_last.
      * now apply singleton_groups_good.
      * assumption.
    + (* [p] is appended: it fits within [max] *)
      cbn [truthy] in E |- *. rewrite andb_true_r in E.
      destruct (Z.gtb_spec (joined_len (b :: buf) + (1 + len p)) max) as [|Hfit];
        [discriminate|].
      assert (Hj : joined_len ((b :: buf) ++ [p]) = joined_len (b :: buf) + (1 + len p))
        by (rewrite joined_len_snoc by discriminate; lia).
      assert (Hshort : len p <= hard).
      { assert (0 <= joined_len (b :: buf)).
        { unfold joined_len, sum_len. cbn [fold_right].
          pose proof (len_nonneg b).
          assert (0 <= fold_right (fun x a => len x + a) 0 buf).
          { clear. induction buf as [|x l IH]; cbn [fold_right]; [lia|].
            pose proof (len_nonneg x). lia. }
          lia. }
        pose proof max_le_hard. lia. }
      pose proof (force_split_spec hard (b :: buf) hard_pos fuel p Hfuel) as push'.
      rewrite pieces_short in push' by assumption. cbn [removelast last] in push'.
      exists [], ((b :: buf) ++ [p]).
      rewrite <- Hj, push', bind_normal.
      rewrite failsafe_idle by (pose proof max_le_hard; lia).
      cbn [fst snd ret map app]. rewrite pieces_short by assumption.
      cbn [app] in Hj |- *.
      split; [reflexivity|]. split; [reflexivity|].
      split; [constructor | pose proof max_le_hard; lia].
Qed.

Lemma chunk_loop_spec (fuel : nat) :
  forall (parts : list str) (buf : list str),
    joined_len buf <= hard ->
    Forall (fun p => space_free p /\ (length p < fuel)%nat) parts ->
    exists gs buf',
      chunk_loop fuel max hard parts (buf, joined_len buf)
      = (map join_space gs, Normal (buf', joined_len buf'))
      /\ concat gs ++ buf' = buf ++ flat_map (pieces hard) (filter truthy parts)
      /\ Forall (good_group hard) gs
      /\ joined_len buf' <= hard.
Proof.
  induction parts as [|p parts IH]; intros buf Hbuf Hparts.
  - exists [], buf. cbn. rewrite app_nil_r. auto.
  - inversion Hparts as [|? ? [Hsf Hfuel] Hrest]; subst.
    cbn [chunk_loop filter]. destruct (truthy p) eqn:Ep.
    + assert (Hp : is_word p) by (split; [now apply truthy_true | assumption]).
      destruct (chunk_step_spec fuel p buf Hbuf Hp Hfuel)
        as (gs1 & buf1 & Hstep & Hcat1 & Hgood1 & Hbuf1).
      destruct (IH buf1 Hbuf1 Hrest) as (gs2 & buf2 & Hloop & Hcat2 & Hgood2 & Hbuf2).
      exists (gs1 ++ gs2), buf2.
      rewrite Hstep, bind_normal, Hloop. cbn [fst snd flat_map].
      rewrite map_app. split; [reflexivity|]. split; [|split].
      * rewrite concat_app, <- app_assoc, Hcat2, !app_assoc. now rewrite Hcat1.
      * apply Forall_app. now split.
      * assumption.
    + unfold chunk_step. rewrite Ep. cbn [negb]. rewrite bind_ret.
      now apply IH.
Qed.

(** The chunker, group by group: it returns, its chunks are the joined
    groups, and the groups hold, in order, the words of the text with every
    long word replaced by its pieces. *)
Lemma chunker_groups (fuel : nat) (text : str) :
  (length text < fuel)%nat ->
  exists gs,
    _iter_space_chunks fuel text max hard = (map join_space gs, Normal tt)
    /\ concat gs = flat_map (pieces hard) (words text)
    /\ Forall (good_group hard) gs.
Proof.
  intros Hfuel. unfold _iter_space_chunks.
  destruct (truthy text) eqn:Et; cbn [negb].
  2:{ apply truthy_false in Et. subst. exists []. cbn. auto. }
  assert (Hparts : Forall (fun p => space_free p /\ (length p < fuel)%nat)
                          (_SPACE_SPLIT_split (strip text))).
  { unfold _SPACE_SPLIT_split. apply Forall_forall. intros p Hin. split.
    - pose proof (split_parts_space_free (strip text) false [] (Forall_nil _)) as H.
      rewrite Forall_forall in H. now apply H.
    - pose proof (split_parts_length (strip text) false []) as H.
      rewrite Forall_forall in H. apply H in Hin. cbn [length] in Hin.
      pose proof (strip_length text). lia. }
  assert (H0 : joined_len [] <= hard)
    by (change (joined_len []) with 0; pose proof hard_pos; lia).
  destruct (chunk_loop_spec fuel _ [] H0 Hparts)
    as (gs & buf & Hloop & Hcat & Hgood & Hbuf).
  change (joined_len []) with 0 in Hloop. rewrite Hloop, bind_normal.
  cbn [fst snd app] in Hcat |- *. fold (words text) in Hcat.
  destruct buf as [|b buf]; cbn [truthy].
  - exists gs. cbn. rewrite !app_nil_r in *. auto.
  - exists (gs ++ [b :: buf]). cbn [yield fst snd]. rewrite map_app. cbn [map].
    split; [reflexivity|]. split.
    + rewrite concat_app. cbn [concat]. now rewrite app_nil_r.
    + apply Forall_app. split; [assumption|].
      constructor; [|constructor]. split; [discriminate | assumption].
Qed.

End BoundedChunker.

(** In a run as above every group consists of words. *)
Lemma groups_of_words (hard : Z) (text : str) (gs : list (list str)) :
  0 < hard -> concat gs = flat_map (pieces hard) (words text) ->
  Forall (Forall is_word) gs.
Proof.
  intros Hh Hcat.
  assert (Hall : Forall is_word (concat gs)).
  { rewrite Hcat. apply Forall_flat_map.
    eapply Forall_impl; [|apply words_is_word]. intros w Hw.
    eapply Forall_impl; [|apply (pieces_bounded hard w Hh Hw)]. now intros p [Hp _]. }
  clear Hcat. induction gs as [|g gs IH]; constructor.
  - cbn [concat] in Hall. now apply Forall_app in Hall.
  - apply IH. cbn [concat] in Hall. now apply Forall_app in Hall.
Qed.

(* ===================================================================== *)
(** * Texts without words, single words, and a zero bound *)
(* ===================================================================== *)

Lemma chunk_loop_blank (fuel : nat) (max hard : Z) (parts : list str) :
  filter truthy parts = [] ->
  forall st, chunk_loop fuel max hard parts st = ret st.
Proof.
  induction parts as [|p parts IH]; intros Hf st; [reflexivity|].
  cbn [filter] in Hf. destruct (truthy p) eqn:Ep; [discriminate|].
  cbn [chunk_loop]. unfold chunk_step. rewrite Ep. cbn [negb].
  rewrite bind_ret. now apply IH.
Qed.

Lemma chunker_no_words (fuel : nat) (text : str) (max hard : Z) :
  words text = [] -> _iter_space_chunks fuel text max hard = ([], Normal tt).
Proof.
  intros Hw. unfold _iter_space_chunks.
  destruct (truthy text); cbn [negb]; [|reflexivity].
  rewrite chunk_loop_blank by exact Hw. now rewrite bind_ret.
Qed.

Lemma lstrip_all_space (s : str) : forallb is_space s = true -> lstrip s = [].
Proof.
  induction s as [|c s IH]; [reflexivity|]. cbn [forallb lstrip].
  intros H. apply andb_prop in H. destruct H as [Hc Hs]. rewrite Hc. now apply IH.
Qed.

Lemma words_all_space (text : str) : forallb is_space text = true -> words text = [].
Proof.
  intros H. unfold words, strip. now rewrite (lstrip_all_space text H).
Qed.

Lemma lstrip_word (w : str) : space_free w -> lstrip w = w.
Proof.
  intros H. destruct w as [|c w]; [reflexivity|].
  inversion H as [|? ? Hc _]; subst. cbn [lstrip]. now rewrite Hc.
Qed.

Lemma strip_word (w : str) : space_free w -> strip w = w.
Proof.
  intros H. unfold strip, rstrip. rewrite (lstrip_word w H).
  rewrite lstrip_word; [apply rev_involutive|].
  unfold space_free. now apply Forall_rev.
Qed.

Lemma split_word (w : str) : forall cur,
  space_free w -> space_split_from false cur w = [cur ++ w].
Proof.
  induction w as [|c w IH]; intros cur H; cbn [space_split_from].
  - now rewrite app_nil_r.
  - inversion H as [|? ? Hc Hw]; subst. rewrite Hc, IH by assumption.
    now rewrite <- app_assoc.
Qed.

(** A text that is one word goes through the loop body once, from an empty
    buffer. *)
Lemma chunker_single_word (fuel : nat) (w : str) (max hard : Z) :
  is_word w ->
  _iter_space_chunks fuel w max hard =
  (st <- (st2 <- force_split fuel hard [w] (len w) ;; failsafe hard st2) ;;
   if truthy (fst st) then yield (join_space (fst st)) else ret tt).
Proof.
  intros [Hne Hsf]. unfold _iter_space_chunks, _SPACE_SPLIT_split.
  apply truthy_true in Hne. rewrite Hne. cbn [negb].
  rewrite (strip_word w Hsf), (split_word w [] Hsf). cbn [app chunk_loop].
  unfold chunk_step, add_word. rewrite Hne. cbn [negb truthy andb app].
  rewrite andb_false_r, !bind_ret. cbn [fst snd].
  replace (0 + (0 + len w)) with (len w) by lia.
  destruct (st2 <- force_split fuel hard [w] (len w);; failsafe hard st2)
    as [ys [[buf cur]| |]]; cbn; try reflexivity.
  destruct (truthy buf); now rewrite ?app_nil_r.
Qed.

(** With [hard_max_chars = 0] the forced split of a non-empty word never
    ends: each round yields the empty string and puts the word back. *)
Lemma force_split_zero (w : str) : w <> [] ->
  forall fuel cur, force_split fuel 0 [w] cur = (repeat [] fuel, Spin).
Proof.
  intros Hne. induction fuel as [|fuel IH]; intros cur; [reflexivity|].
  assert (Hl : (len w >? 0) = true).
  { apply Z.gtb_lt. apply truthy_len. now apply truthy_true. }
  unroll_force_split. rewrite Hl. cbn [removelast].
  assert (Hs : slice_from w 0 = w).
  { unfold slice_from, slice_bound. cbn. pose proof (len_nonneg w).
    replace (Z.to_nat (Z.min 0 (len w))) with O by lia. reflexivity. }
  assert (Ht : slice_to w 0 = []).
  { unfold slice_to, slice_bound. cbn. pose proof (len_nonneg w).
    replace (Z.to_nat (Z.min 0 (len w))) with O by lia. reflexivity. }
  rewrite Hs, Ht. pose proof Hne as Hw. apply truthy_true in Hw. rewrite Hw.
  cbn [app]. rewrite bind_yield, IH. reflexivity.
Qed.

Lemma flat_map_pieces_short (hard : Z) (l : list str) :
  Forall (fun w => len w <= hard) l -> flat_map (pieces hard) l = l.
Proof.
  induction 1 as [|w l Hw _ IH]; [reflexivity|].
  cbn [flat_map]. now rewrite pieces_short, IH by assumption.
Qed.

Lemma in_group_len (w : str) (g : list str) : In w g -> len w <= joined_len g.
Proof.
  intros Hin. unfold joined_len.
  assert (len w <= sum_len g).
  { unfold sum_len. induction g as [|x g IH]; [contradiction|].
    cbn [fold_right].
    assert (0 <= fold_right (fun x a => len x + a) 0 g).
    { clear. induction g as [|y g IH]; cbn [fold_right]; [lia|].
      pose proof (len_nonneg y). lia. }
    destruct Hin as [->|Hin]; [lia|].
    specialize (IH Hin). pose proof (len_nonneg x). lia. }
  lia.
Qed.

Lemma good_groups_nonempty (hard : Z) (gs : list (list str)) :
  Forall (good_group hard) gs -> Forall (fun g => g <> []) gs.
Proof. apply Forall_impl. now intros g [H _]. Qed.

(* ===================================================================== *)
(** * Properties of the chunker *)
(* ===================================================================== *)

(** C1, as stated, fails: the word "abcd" with both limits 3 is cut into
    "abc" and "d", which joined with a space read "abc d", not "abcd". *)
Lemma rejoin_counterexample :
  3 <= 3
  /\ _iter_space_chunks 10 [A_; B_; C_; D_] 3 3 = ([[A_; B_; C_]; [D_]], Normal tt)
  /\ join_space (yielded (_iter_space_chunks 10 [A_; B_; C_; D_] 3 3))
     <> collapse_whitespace [A_; B_; C_; D_].
Proof. split; [lia|]. split; [reflexivity|]. vm_compute. discriminate. Qed.

(** C1, amended: when [max_chars <= hard_max_chars] and no word of the text
    is longer than [hard_max_chars], the chunker returns and its chunks,
    joined with single spaces in output order, are exactly the
    whitespace-collapsed text. *)
Theorem chunks_rejoin_collapsed (fuel : nat) (text : str) (max_chars hard_max_chars : Z) :
  max_chars <= hard_max_chars ->
  Forall (fun w => len w <= hard_max_chars) (words text) ->
  (length text < fuel)%nat ->
  ending (_iter_space_chunks fuel text max_chars hard_max_chars) = Normal tt
  /\ join_space (yielded (_iter_space_chunks fuel text max_chars hard_max_chars))
     = collapse_whitespace text.
Proof.
  intros Hmax Hshort Hfuel. rewrite <- join_words_collapse.
  destruct (words text) as [|w ws] eqn:Ew.
  - rewrite chunker_no_words by assumption. now split.
  - assert (Hh : 0 < hard_max_chars).
    { pose proof (words_is_word text) as Hw. rewrite Ew in Hw.
      inversion Hw as [|? ? [Hne _] _]; subst.
      inversion Hshort as [|? ? Hlen _]; subst.
      apply truthy_true, truthy_len in Hne. lia. }
    destruct (chunker_groups max_chars hard_max_chars Hh Hmax fuel text Hfuel)
      as (gs & Hrun & Hcat & Hgood).
    rewrite Hrun. cbn [ending yielded fst snd]. split; [reflexivity|].
    rewrite join_join_concat by (now apply good_groups_nonempty with hard_max_chars).
    rewrite Hcat, Ew. now rewrite flat_map_pieces_short.
Qed.

Lemma chunks_rejoin_collapsed_witness :
  ending (_iter_space_chunks 20 [SP; A_; B_; SP; 0x3000%N; C_; D_; A_; SP; B_; 9%N] 4 5)
  = Normal tt
  /\ join_space
       (yielded (_iter_space_chunks 20 [SP; A_; B_; SP; 0x3000%N; C_; D_; A_; SP; B_; 9%N] 4 5))
     = collapse_whitespace [SP; A_; B_; SP; 0x3000%N; C_; D_; A_; SP; B_; 9%N].
Proof.
  apply (chunks_rejoin_collapsed 20 [SP; A_; B_; SP; 0x3000%N; C_; D_; A_; SP; B_; 9%N] 4 5).
  - lia.
  - vm_compute. repeat constructor; discriminate.
  - cbn. lia.
Defined.

(** C2, as stated, fails: limits 0 and 0 satisfy [maxChars <= hardMaxChars],
    and on the text "a" the chunker yields empty strings, one per round of
    the forced split, without ever returning. *)
Lemma chunk_bound_counterexample :
  0 <= 0
  /\ yielded (_iter_space_chunks 3 [A_] 0 0) = [[]; []; []]
  /\ ~ Forall (fun c : str => c <> [] /\ len c <= 0)
         (yielded (_iter_space_chunks 3 [A_] 0 0)).
Proof.
  split; [lia|]. split; [reflexivity|]. intros H.
  change (yielded (_iter_space_chunks 3 [A_] 0 0)) with ([[]; []; []] : list str) in H.
  inversion H as [|? ? [Hne _] _]; subst. now apply Hne.
Qed.

(** C2, amended: for [1 <= hard_max_chars] and
    [max_chars <= hard_max_chars] the chunker returns, and every chunk it
    yields is a non-empty string of at most [hard_max_chars] characters. *)
Theorem chunks_within_hard_limit (fuel : nat) (text : str) (max_chars hard_max_chars : Z) :
  0 < hard_max_chars -> max_chars <= hard_max_chars ->
  (length text < fuel)%nat ->
  ending (_iter_space_chunks fuel text max_chars hard_max_chars) = Normal tt
  /\ Forall (fun c : str => c <> [] /\ len c <= hard_max_chars)
       (yielded (_iter_space_chunks fuel text max_chars hard_max_chars)).
Proof.
  intros Hh Hmax Hfuel.
  destruct (chunker_groups max_chars hard_max_chars Hh Hmax fuel text Hfuel)
    as (gs & Hrun & Hcat & Hgood).
  pose proof (groups_of_words hard_max_chars text gs Hh Hcat) as Hwords.
  rewrite Hrun. cbn [ending yielded fst snd]. split; [reflexivity|].
  apply Forall_map. rewrite Forall_forall in *. intros g Hg.
  destruct (Hgood g Hg) as [Hne Hlen]. split.
  - apply join_space_nonempty; [|assumption].
    apply is_word_nonempty. now apply Hwords.
  - now rewrite len_join_space.
Qed.

Lemma chunks_within_hard_limit_witness :
  ending (_iter_space_chunks 20 [A_; B_; SP; C_; D_; A_; B_; C_; D_; A_; SP; B_] 4 5)
  = Normal tt
  /\ Forall (fun c : str => c <> [] /\ len c <= 5)
       (yielded (_iter_space_chunks 20 [A_; B_; SP; C_; D_; A_; B_; C_; D_; A_; SP; B_] 4 5)).
Proof.
  apply (chunks_within_hard_limit 20 [A_; B_; SP; C_; D_; A_; B_; C_; D_; A_; SP; B_] 4 5).
  - lia.
  - lia.
  - cbn. lia.
Defined.

(** C5, as stated, fails: in "aaaa  bbbb" with both limits 3 two words, not
    at most one, are fragmented. *)
Lemma fragmented_counterexample :
  3 <= 3
  /\ _iter_space_chunks 10 [A_; A_; A_; A_; SP; SP; B_; B_; B_; B_] 3 3
     = ([[A_; A_; A_]; [A_]; [B_; B_; B_]; [B_]], Normal tt)
  /\ fragmented_words [A_; A_; A_; A_; SP; SP; B_; B_; B_; B_]
       (yielded (_iter_space_chunks 10 [A_; A_; A_; A_; SP; SP; B_; B_; B_; B_] 3 3))
     = [[A_; A_; A_; A_]; [B_; B_; B_; B_]]
  /\ ~ (length (fragmented_words [A_; A_; A_; A_; SP; SP; B_; B_; B_; B_]
          (yielded (_iter_space_chunks 10 [A_; A_; A_; A_; SP; SP; B_; B_; B_; B_] 3 3)))
        <= 1)%nat.
Proof.
  split; [lia|]. split; [reflexivity|]. split; [reflexivity|].
  vm_compute. lia.
Qed.

(** C5, amended: for [1 <= hard_max_chars] and
    [max_chars <= hard_max_chars] every chunk is a group of consecutive
    items joined by single spaces, where the items are, in text order, the
    words of at most [hard_max_chars] characters, whole, and, for each longer
    word (there may be several), its consecutive pieces from left to right;
    the pieces of a word put end to end are the word; and the fragmented
    words are exactly the words longer than [hard_max_chars]. *)
Theorem only_long_words_fragmented (fuel : nat) (text : str) (max_chars hard_max_chars : Z) :
  0 < hard_max_chars -> max_chars <= hard_max_chars ->
  (length text < fuel)%nat ->
  exists groups : list (list str),
    _iter_space_chunks fuel text max_chars hard_max_chars
    = (map join_space groups, Normal tt)
    /\ concat groups = flat_map (pieces hard_max_chars) (words text)
    /\ (forall w, concat (pieces hard_max_chars w) = w
                  /\ (len w <= hard_max_chars -> pieces hard_max_chars w = [w])
                  /\ Forall (fun p => len p = hard_max_chars)
                        (removelast (pieces hard_max_chars w)))
    /\ fragmented_words text (map join_space groups)
       = filter (fun w => hard_max_chars <? len w) (words text).
Proof.
  intros Hh Hmax Hfuel.
  destruct (chunker_groups max_chars hard_max_chars Hh Hmax fuel text Hfuel)
    as (gs & Hrun & Hcat & Hgood).
  pose proof (groups_of_words hard_max_chars text gs Hh Hcat) as Hwords.
  exists gs. split; [assumption|]. split; [assumption|]. split.
  - intros w. split; [apply concat_pieces|].
    split; [apply pieces_short | now apply pieces_upto_exact].
  - unfold fragmented_words. apply filter_ext_in. intros w Hw.
    destruct (Z.ltb_spec hard_max_chars (len w)) as [Hlong|Hshort].
    + (* a long word fits in no chunk *)
      apply negb_true_iff.
      destruct (existsb (whole_in w) (map join_space gs)) eqn:E; [exfalso|reflexivity].
      apply existsb_exists in E. destruct E as (chunk & Hchunk & Hwhole).
      apply in_map_iff in Hchunk. destruct Hchunk as (g & <- & Hg).
      rewrite Forall_forall in Hwords, Hgood.
      unfold whole_in in Hwhole. rewrite words_join_space in Hwhole by now apply Hwords.
      apply mem_In in Hwhole. apply in_group_len in Hwhole.
      destruct (Hgood g Hg) as [_ Hlen]. lia.
    + (* a short word is an item of some group *)
      apply negb_false_iff.
      assert (Hpiece : In w (concat gs)).
      { rewrite Hcat. apply in_flat_map. exists w. split; [assumption|].
        rewrite pieces_short by assumption. now left. }
      apply in_concat in Hpiece. destruct Hpiece as (g & Hg & Hwg).
      apply existsb_exists. exists (join_space g). split; [now apply in_map|].
      unfold whole_in. rewrite words_join_space.
      * now apply mem_In.
      * rewrite Forall_forall in Hwords. now apply Hwords.
Qed.

Lemma only_long_words_fragmented_witness :
  exists groups : list (list str),
    _iter_space_chunks 20 [A_; B_; SP; C_; D_; A_; B_; C_; D_; A_; SP; B_] 4 5
    = (map join_space groups, Normal tt)
    /\ concat groups
       = flat_map (pieces 5) (words [A_; B_; SP; C_; D_; A_; B_; C_; D_; A_; SP; B_])
    /\ (forall w, concat (pieces 5 w) = w
                  /\ (len w <= 5 -> pieces 5 w = [w])
                  /\ Forall (fun p => len p = 5) (removelast (pieces 5 w)))
    /\ fragmented_words [A_; B_; SP; C_; D_; A_; B_; C_; D_; A_; SP; B_]
         (map join_space groups)
       = filter (fun w => 5 <? len w)
           (words [A_; B_; SP; C_; D_; A_; B_; C_; D_; A_; SP; B_]).
Proof.
  apply (only_long_words_fragmented 20 [A_; B_; SP; C_; D_; A_; B_; C_; D_; A_; SP; B_] 4 5).
  - lia.
  - lia.
  - cbn. lia.
Defined.

(** C6, as stated, fails for [hardMaxChars = 0]: the one-character word "a"
    has length [hardMaxChars + 1], but the chunker does not yield two
    chunks, the empty string and "a"; it yields empty strings for ever and
    never returns. *)
Lemma single_word_counterexample :
  is_word [A_] /\ len [A_] = 0 + 1
  /\ yielded (_iter_space_chunks 3 [A_] 0 0) = [[]; []; []]
  /\ ~ (exists fuel,
          _iter_space_chunks fuel [A_] 0 0
          = ([firstn (Z.to_nat 0) [A_]; skipn (Z.to_nat 0) [A_]], Normal tt)).
Proof.
  assert (Hw : is_word [A_]).
  { split; [discriminate|]. constructor; [reflexivity | constructor]. }
  split; [exact Hw|]. split; [reflexivity|]. split; [reflexivity|].
  intros [fuel H]. rewrite (chunker_single_word fuel [A_] 0 0 Hw) in H.
  rewrite force_split_zero in H by discriminate. cbn in H. discriminate.
Qed.

(** C6, amended: a text that is a single word of exactly [hard_max_chars]
    characters is yielded as one chunk, the word itself; and, when
    [1 <= hard_max_chars], a single word of [hard_max_chars + 1] characters
    is yielded as exactly two chunks, its first [hard_max_chars] characters
    and then its last character.  Neither depends on [max_chars]. *)
Theorem single_word_at_hard_limit (fuel : nat) (w : str) (max_chars hard_max_chars : Z) :
  is_word w ->
  (len w = hard_max_chars -> (0 < fuel)%nat ->
   _iter_space_chunks fuel w max_chars hard_max_chars = ([w], Normal tt))
  /\ (len w = hard_max_chars + 1 -> 0 < hard_max_chars -> (1 < fuel)%nat ->
      _iter_space_chunks fuel w max_chars hard_max_chars
      = ([firstn (Z.to_nat hard_max_chars) w; skipn (Z.to_nat hard_max_chars) w],
         Normal tt)
      /\ len (firstn (Z.to_nat hard_max_chars) w) = hard_max_chars
      /\ len (skipn (Z.to_nat hard_max_chars) w) = 1).
Proof.
  intros Hw. rewrite (chunker_single_word fuel w max_chars hard_max_chars Hw). split.
  - intros Hlen Hfuel. destruct fuel as [|fuel]; [lia|].
    unroll_force_split.
    destruct (Z.gtb_spec (len w) hard_max_chars); [lia|].
    rewrite bind_ret, failsafe_idle by lia. now rewrite bind_ret.
  - intros Hlen Hh Hfuel. destruct fuel as [|[|fuel]]; [lia | lia |].
    assert (Hto : slice_to w hard_max_chars = firstn (Z.to_nat hard_max_chars) w).
    { unfold slice_to. now rewrite slice_bound_inside by lia. }
    assert (Hfrom : slice_from w hard_max_chars = skipn (Z.to_nat hard_max_chars) w).
    { unfold slice_from. now rewrite slice_bound_inside by lia. }
    assert (Hl1 : len (slice_to w hard_max_chars) = hard_max_chars)
      by (apply len_slice_to; lia).
    assert (Hl2 : len (slice_from w hard_max_chars) = 1)
      by (rewrite len_slice_from; lia).
    rewrite <- Hto, <- Hfrom. split; [|now split].
    remember (S fuel) as fuel1 eqn:Ef.
    unroll_force_split.
    destruct (Z.gtb_spec (len w) hard_max_chars); [|lia].
    assert (Ht : truthy (slice_from w hard_max_chars) = true)
      by (apply truthy_len; lia).
    rewrite Ht. cbn [removelast app]. subst fuel1.
    unroll_force_split.
    destruct (Z.gtb_spec (len (slice_from w hard_max_chars)) hard_max_chars); [lia|].
    rewrite yield_then_ret, bind_normal.
    rewrite failsafe_idle by (rewrite joined_len_single; lia).
    cbn [ret fst snd]. rewrite bind_normal. cbn. reflexivity.
Qed.

Lemma single_word_at_hard_limit_witness :
  _iter_space_chunks 5 [A_; B_; C_] 2 3 = ([[A_; B_; C_]], Normal tt)
  /\ _iter_space_chunks 5 [A_; B_; C_] 2 2 = ([[A_; B_]; [C_]], Normal tt).
Proof.
  assert (Hw : is_word [A_; B_; C_]).
  { split; [discriminate|]. repeat constructor. }
  destruct (single_word_at_hard_limit 5 [A_; B_; C_] 2 3 Hw) as [Hone _].
  destruct (single_word_at_hard_limit 5 [A_; B_; C_] 2 2 Hw) as [_ Htwo].
  split.
  - apply Hone; [reflexivity | lia].
  - apply Htwo; [reflexivity | lia | lia].
Defined.

(* ===================================================================== *)
(** * Properties of the normalizer *)
(* ===================================================================== *)

Lemma translate_delete_idempotent (chars : list codepoint) (text : str) :
  translate_delete chars (translate_delete chars text) = translate_delete chars text.
Proof.
  unfold translate_delete. induction text as [|c text IH]; [reflexivity|].
  cbn [filter]. destruct (negb (existsb (N.eqb c) chars)) eqn:E; [|exact IH].
  cbn [filter]. now rewrite E, IH.
Qed.

(** C7, as stated, fails: from the three characters e, full stop, combining
    acute accent (U+0065 U+002E U+0301) the
    normalizer deletes the full stop and leaves "é" as e followed by the
    combining accent, which a second pass composes into the single
    character U+00E9. *)
Lemma normalize_twice_counterexample :
  _clean_text NFKC.nfkc [0x65; 0x2E; 0x301]%N = [0x65; 0x301]%N
  /\ _clean_text NFKC.nfkc (_clean_text NFKC.nfkc [0x65; 0x2E; 0x301]%N) = [0xE9]%N
  /\ _clean_text NFKC.nfkc (_clean_text NFKC.nfkc [0x65; 0x2E; 0x301]%N)
     <> _clean_text NFKC.nfkc [0x65; 0x2E; 0x301]%N.
Proof. split; [reflexivity|]. split; [reflexivity|]. vm_compute. discriminate. Qed.

Lemma forallb_flat_map {A B : Type} (p : B -> bool) (f : A -> list B) (l : list A) :
  forallb p (flat_map f l) = forallb (fun a => forallb p (f a)) l.
Proof.
  induction l as [|a l IH]; [reflexivity|].
  cbn [flat_map forallb]. now rewrite forallb_app, IH.
Qed.

Lemma flat_map_ext_on {A B : Type} (f g : A -> list B) (l : list A) :
  (forall a, In a l -> f a = g a) -> flat_map f l = flat_map g l.
Proof.
  induction l as [|a l IH]; intros H; [reflexivity|].
  cbn [flat_map]. rewrite (H a (or_introl eq_refl)), IH; [reflexivity|].
  intros b Hb. apply H. now right.
Qed.

Lemma forallb_filter_keeps {A : Type} (p q : A -> bool) (l : list A) :
  forallb p l = true -> forallb p (filter q l) = true.
Proof.
  rewrite !forallb_forall. intros H a Ha. apply filter_In in Ha. now apply H.
Qed.

(** C7, amended: normalizing twice gives the same as normalizing once for
    every string of simple characters, that is of characters that NFKC
    turns, each on its own, into plain characters; [plain] is any class of
    characters that NFKC leaves as they are and on strings of whose simple
    characters NFKC works character by character.  For the library's NFKC
    the characters of combining class 0 with the Quick_Check value Yes are
    such a class (ASCII, kana and ideographs among them); full-width and
    half-width forms are then simple, combining marks are not. *)
Theorem clean_text_idempotent_on_simple_text
  (_nfkc : str -> str) (plain : codepoint -> bool) (x : str) :
  (forall c, plain c = true -> _nfkc [c] = [c]) ->
  (forall s, forallb (simple _nfkc plain) s = true ->
             _nfkc s = flat_map (fun c => _nfkc [c]) s) ->
  forallb (simple _nfkc plain) x = true ->
  _clean_text _nfkc (_clean_text _nfkc x) = _clean_text _nfkc x.
Proof.
  intros Hplain Hpoint Hx.
  assert (Hclean : forall y, _clean_text _nfkc y
                             = translate_delete NOISE_CHARS (_nfkc y)) by reflexivity.
  assert (Hfix : forall s, forallb plain s = true -> _nfkc s = s).
  { intros s Hs. rewrite Hpoint.
    - induction s as [|c s IH]; [reflexivity|].
      cbn [forallb] in Hs. apply andb_true_iff in Hs. destruct Hs as [Hc Hs].
      cbn [flat_map]. now rewrite (Hplain c Hc), (IH Hs).
    - rewrite forallb_forall in *. intros c Hc. unfold simple.
      rewrite (Hplain c (Hs c Hc)). cbn [forallb]. now rewrite (Hs c Hc). }
  assert (Hout : forallb plain (_clean_text _nfkc x) = true).
  { rewrite Hclean. unfold translate_delete. apply forallb_filter_keeps.
    rewrite (Hpoint x Hx), forallb_flat_map. exact Hx. }
  rewrite (Hclean (_clean_text _nfkc x)), (Hfix _ Hout), Hclean.
  apply translate_delete_idempotent.
Qed.

Lemma sample_plain_inert (c : codepoint) :
  sample_plain c = true ->
  NFKC.assoc c NFKC.decomposition_table = None /\ NFKC.ccc c = 0%N.
Proof.
  unfold sample_plain. intros H. apply orb_true_iff in H. destruct H as [H | H].
  - apply N.ltb_lt in H.
    unfold NFKC.ccc, NFKC.combining_table, NFKC.decomposition_table, NFKC.assoc.
    repeat match goal with
           | |- context [N.eqb c ?k] => destruct (N.eqb_spec c k); [lia|]
           end.
    now split.
  - apply N.eqb_eq in H. subst c. now split.
Qed.

Lemma starter_has_no_composite (l c : codepoint) :
  NFKC.ccc c = 0%N -> NFKC.primary_composite l c = None.
Proof.
  intros Hc. unfold NFKC.primary_composite, NFKC.composition_table.
  cbn [NFKC.primary_composite_in].
  repeat match goal with
         | |- context [N.eqb c ?k] =>
             destruct (N.eqb_spec c k); [subst c; discriminate Hc|]
         end.
  now rewrite !andb_false_r.
Qed.

Lemma canonical_order_starters (s : str) :
  Forall (fun c => NFKC.ccc c = 0%N) s -> NFKC.canonical_order s = s.
Proof.
  intros Hs. unfold NFKC.canonical_order.
  assert (H : forall acc,
             fold_left (fun done c => NFKC.insert_mark c done) s acc = rev s ++ acc).
  { induction Hs as [|c s Hc _ IH]; intros acc; [reflexivity|].
    cbn [fold_left rev].
    assert (Hi : NFKC.insert_mark c acc = c :: acc).
    { destruct acc as [|b acc]; [reflexivity|]. cbn [NFKC.insert_mark].
      now rewrite Hc. }
    rewrite Hi, IH, <- app_assoc. reflexivity. }
  rewrite H, app_nil_r. apply rev_involutive.
Qed.

Lemma compose_starters (s : str) :
  Forall (fun c => NFKC.ccc c = 0%N) s ->
  (forall l, NFKC.compose_from (Some l) [] s = l :: s)
  /\ NFKC.compose_from None [] s = s.
Proof.
  induction 1 as [|c s Hc _ [IHs _]]; [now split|]. split.
  - intros l. cbn [NFKC.compose_from existsb].
    rewrite (starter_has_no_composite l c Hc), Hc. cbn [N.eqb app].
    now rewrite IHs.
  - cbn [NFKC.compose_from]. rewrite Hc. cbn [N.eqb]. apply IHs.
Qed.

Lemma nfkc_starters (s : str) :
  Forall (fun c => NFKC.ccc c = 0%N) (flat_map NFKC.decompose s) ->
  NFKC.nfkc s = flat_map NFKC.decompose s.
Proof.
  intros Hs. unfold NFKC.nfkc. rewrite (canonical_order_starters _ Hs).
  now apply compose_starters.
Qed.

Lemma nfkc_sample_plain (c : codepoint) :
  sample_plain c = true -> NFKC.nfkc [c] = [c].
Proof.
  intros Hc. destruct (sample_plain_inert c Hc) as [Hd Hccc].
  assert (Hdec : NFKC.decompose c = [c]) by (unfold NFKC.decompose; now rewrite Hd).
  rewrite nfkc_starters; cbn [flat_map]; rewrite Hdec; [reflexivity|].
  constructor; [assumption | constructor].
Qed.

Lemma nfkc_unlisted (c : codepoint) :
  NFKC.assoc c NFKC.decomposition_table = None -> NFKC.nfkc [c] = [c].
Proof.
  intros Hd. unfold NFKC.nfkc, NFKC.decompose. cbn [flat_map]. rewrite Hd.
  cbn [app NFKC.canonical_order fold_left NFKC.insert_mark rev NFKC.compose_from].
  now destruct (NFKC.ccc c =? 0)%N.
Qed.

Lemma simple_decompose (c : codepoint) :
  simple NFKC.nfkc sample_plain c = true ->
  forallb sample_plain (NFKC.decompose c) = true.
Proof.
  unfold simple.
  destruct (NFKC.assoc c NFKC.decomposition_table) as [d|] eqn:Hd.
  - revert Hd. unfold NFKC.decompose, NFKC.decomposition_table, NFKC.assoc.
    repeat match goal with
           | |- context [N.eqb c ?k] =>
               destruct (N.eqb_spec c k);
               [subst c; intros _; vm_compute; intros H; exact H|]
           end.
    discriminate.
  - rewrite (nfkc_unlisted c Hd). unfold NFKC.decompose. now rewrite Hd.
Qed.

Lemma simple_decompose_starters (s : str) :
  forallb (simple NFKC.nfkc sample_plain) s = true ->
  Forall (fun c => NFKC.ccc c = 0%N) (flat_map NFKC.decompose s).
Proof.
  intros Hs. apply Forall_forall. intros d Hd.
  apply in_flat_map in Hd. destruct Hd as (c & Hc & Hd).
  rewrite forallb_forall in Hs. pose proof (simple_decompose c (Hs c Hc)) as Hp.
  rewrite forallb_forall in Hp. now apply sample_plain_inert, Hp.
Qed.

Lemma nfkc_pointwise (s : str) :
  forallb (simple NFKC.nfkc sample_plain) s = true ->
  NFKC.nfkc s = flat_map (fun c => NFKC.nfkc [c]) s.
Proof.
  intros Hs. rewrite (nfkc_starters s (simple_decompose_starters s Hs)).
  apply flat_map_ext_on. intros c Hc.
  rewrite forallb_forall in Hs.
  assert (H1 : forallb (simple NFKC.nfkc sample_plain) [c] = true).
  { cbn [forallb]. now rewrite (Hs c Hc). }
  rewrite (nfkc_starters [c] (simple_decompose_starters [c] H1)).
  cbn [flat_map]. now rewrite app_nil_r.
Qed.

Lemma clean_text_idempotent_on_simple_text_witness :
  _clean_text NFKC.nfkc
    (_clean_text NFKC.nfkc [0xFF76; 0xFF1F; 0x3000; A_; 0x2026]%N)
  = _clean_text NFKC.nfkc [0xFF76; 0xFF1F; 0x3000; A_; 0x2026]%N.
Proof.
  apply (clean_text_idempotent_on_simple_text NFKC.nfkc sample_plain
           [0xFF76; 0xFF1F; 0x3000; A_; 0x2026]%N).
  - exact nfkc_sample_plain.
  - exact nfkc_pointwise.
  - reflexivity.
Defined.

(* ===================================================================== *)
(** * Properties of the token filter *)
(* ===================================================================== *)

Lemma keep_token_tagged (K NG : pyset) (m : Morpheme) (pos0 : str) (rest : list str) :
  part_of_speech m = pos0 :: rest ->
  let cand := if mem pos0 [POS_VERB; POS_ADJECTIVE]
              then dictionary_form m else surface m in
  normalize_baseform m = Normal cand
  /\ keep_token K NG m
     = Normal (if (truthy K && negb (mem pos0 K)) || negb (truthy cand)
                  || (truthy NG && mem cand NG)
               then None else Some cand).
Proof.
  intros Hpos cand. unfold keep_token, normalize_baseform. rewrite Hpos.
  split; [reflexivity|]. fold cand.
  destruct (truthy K && negb (mem pos0 K)); [reflexivity|].
  cbn [orb].
  destruct (truthy cand); destruct (truthy NG); cbn [negb andb orb]; try reflexivity.
  now destruct (mem cand NG).
Qed.

(** C8: for a morpheme with primary part-of-speech tag [pos0], the candidate
    token is the dictionary form when [pos0] is "動詞" or "形容詞" and the
    surface form otherwise. *)
Theorem baseform_for_inflecting (m : Morpheme) (pos0 : str) (rest : list str) :
  part_of_speech m = pos0 :: rest ->
  (pos0 = POS_VERB \/ pos0 = POS_ADJECTIVE ->
   normalize_baseform m = Normal (dictionary_form m))
  /\ (pos0 <> POS_VERB -> pos0 <> POS_ADJECTIVE ->
      normalize_baseform m = Normal (surface m)).
Proof.
  intros Hpos. unfold normalize_baseform. rewrite Hpos. split.
  - intros Hin.
    assert (H : mem pos0 [POS_VERB; POS_ADJECTIVE] = true).
    { apply mem_In. cbn. destruct Hin; auto. }
    now rewrite H.
  - intros Hv Ha.
    destruct (mem pos0 [POS_VERB; POS_ADJECTIVE]) eqn:H; [|reflexivity].
    apply mem_In in H. cbn in H. destruct H as [H | [H | []]]; congruence.
Qed.

Lemma baseform_for_inflecting_witness :
  normalize_baseform tabeta = Normal [0x98DF; 0x3079; 0x308B]%N.
Proof.
  destruct (baseform_for_inflecting tabeta POS_VERB [POS_GENERAL] eq_refl) as [H _].
  apply H. left. reflexivity.
Defined.

(** C9: a morpheme with primary tag [pos0] and candidate token [cand] is
    rejected exactly when the allow-list is non-empty and lacks [pos0], or
    [cand] is empty, or the NG-word set is non-empty and has [cand];
    otherwise [cand] is emitted as it is. *)
Theorem filter_rejects_exactly (_keep_pos _ng_words : pyset) (m : Morpheme)
  (pos0 : str) (rest : list str) :
  part_of_speech m = pos0 :: rest ->
  exists cand,
    normalize_baseform m = Normal cand
    /\ keep_token _keep_pos _ng_words m
       = Normal (if (truthy _keep_pos && negb (mem pos0 _keep_pos))
                    || negb (truthy cand)
                    || (truthy _ng_words && mem cand _ng_words)
                 then None else Some cand).
Proof.
  intros Hpos. destruct (keep_token_tagged _keep_pos _ng_words m pos0 rest Hpos) as [Hc Hk].
  eexists. split; [exact Hc | exact Hk].
Qed.

Lemma filter_rejects_exactly_witness :
  keep_token [POS_NOUN] [] tabeta = Normal None
  /\ keep_token [] [] tabeta = Normal (Some [0x98DF; 0x3079; 0x308B]%N)
  /\ keep_token DEFAULT_KEEP_POS [[0x98DF; 0x3079; 0x308B]%N] tabeta = Normal None.
Proof.
  split; [|split].
  - destruct (filter_rejects_exactly [POS_NOUN] [] tabeta POS_VERB [POS_GENERAL] eq_refl)
      as (cand & Hc & Hk).
    injection Hc as <-. exact Hk.
  - destruct (filter_rejects_exactly [] [] tabeta POS_VERB [POS_GENERAL] eq_refl)
      as (cand & Hc & Hk).
    injection Hc as <-. exact Hk.
  - destruct (filter_rejects_exactly DEFAULT_KEEP_POS [[0x98DF; 0x3079; 0x308B]%N]
                tabeta POS_VERB [POS_GENERAL] eq_refl)
      as (cand & Hc & Hk).
    injection Hc as <-. exact Hk.
Defined.

(* ===================================================================== *)
(** * Properties of the pipeline *)
(* ===================================================================== *)

Lemma scan_morphemes_app (K NG : pyset) (ms : list Morpheme) : forall toks,
  fst (scan_morphemes K NG ms toks) = toks ++ fst (scan_morphemes K NG ms []).
Proof.
  induction ms as [|m ms IH]; intros toks; cbn [scan_morphemes].
  - cbn. now rewrite app_nil_r.
  - destruct (keep_token K NG m) as [[surf|]| |]; cbn [fst]; try now rewrite app_nil_r.
    + rewrite (IH (toks ++ [surf])), (IH ([] ++ [surf])). now rewrite <- app_assoc.
    + apply IH.
Qed.

Lemma keep_token_outcome (K NG : pyset) (m : Morpheme) :
  (exists r, keep_token K NG m = Normal r) \/ keep_token K NG m = Raise IndexError.
Proof.
  unfold keep_token, normalize_baseform.
  destruct (part_of_speech m) as [|pos0 rest]; [now right|]. left.
  destruct (truthy K && negb (mem pos0 K)); [eauto|].
  destruct (truthy NG && _); [eauto|].
  destruct (truthy _); eauto.
Qed.

(** The loop over the morphemes ends normally or with the [IndexError] of
    [part_of_speech()[0]]. *)
Lemma scan_morphemes_outcome (K NG : pyset) (ms : list Morpheme) : forall toks,
  snd (scan_morphemes K NG ms toks) = Normal tt
  \/ snd (scan_morphemes K NG ms toks) = Raise IndexError.
Proof.
  induction ms as [|m ms IH]; intros toks; cbn [scan_morphemes]; [now left|].
  destruct (keep_token_outcome K NG m) as [[[surf|] Hk] | Hk]; rewrite Hk.
  - apply IH.
  - apply IH.
  - now right.
Qed.

Lemma analyse_chunk_morphemes (t : Tokenizer) (mode : SplitMode) (K NG : pyset)
  (toks : list str) (chunk : str) (ms : list Morpheme) :
  chunk <> [] -> tokenize t chunk mode = Morphemes ms ->
  analyse_chunk t mode K NG toks chunk
  = Normal (fst (scan_morphemes K NG ms toks)).
Proof.
  intros Hne Hms. unfold analyse_chunk. apply truthy_true in Hne.
  rewrite Hne, Hms. cbn [negb].
  destruct (scan_morphemes_outcome K NG ms toks) as [H | H];
    destruct (scan_morphemes K NG ms toks) as [toks' o];
    cbn [fst snd] in *; subst o; reflexivity.
Qed.

Lemma chunk_tokens_morphemes (t : Tokenizer) (mode : SplitMode) (K NG : pyset)
  (chunk : str) (ms : list Morpheme) :
  chunk <> [] -> tokenize t chunk mode = Morphemes ms ->
  chunk_tokens t mode K NG chunk = fst (scan_morphemes K NG ms []).
Proof.
  intros Hne Hms. unfold chunk_tokens.
  now rewrite (analyse_chunk_morphemes t mode K NG [] chunk ms Hne Hms).
Qed.

Lemma chunk_tokens_raises (t : Tokenizer) (mode : SplitMode) (K NG : pyset)
  (chunk : str) (e : exn) :
  tokenize t chunk mode = Raises e -> chunk_tokens t mode K NG chunk = [].
Proof.
  intros He. unfold chunk_tokens, analyse_chunk. rewrite He.
  destruct (negb (truthy chunk)); [reflexivity|].
  now destruct (isinstance_Exception e).
Qed.

(** One chunk: either whatever the analyzer raises on it is caught and the
    chunk's tokens are appended, or the analyzer raises outside [Exception]
    and that exception leaves the loop. *)
Lemma analyse_chunk_cases (t : Tokenizer) (mode : SplitMode) (K NG : pyset)
  (toks : list str) (chunk : str) :
  (analyse_chunk t mode K NG toks chunk
   = Normal (toks ++ chunk_tokens t mode K NG chunk)
   /\ forall e, chunk <> [] -> tokenize t chunk mode = Raises e ->
                isinstance_Exception e = true)
  \/ (exists e, chunk <> [] /\ tokenize t chunk mode = Raises e
                /\ isinstance_Exception e = false
                /\ analyse_chunk t mode K NG toks chunk = Raise e).
Proof.
  destruct chunk as [|c chunk].
  - left. split; [|congruence]. unfold chunk_tokens, analyse_chunk.
    cbn [truthy negb]. now rewrite app_nil_r.
  - assert (Hne : c :: chunk <> []) by discriminate.
    destruct (tokenize t (c :: chunk) mode) as [ms|e] eqn:Hms.
    + left. split; [|discriminate].
      rewrite (analyse_chunk_morphemes t mode K NG toks _ ms Hne Hms).
      rewrite (chunk_tokens_morphemes t mode K NG _ ms Hne Hms).
      now rewrite scan_morphemes_app.
    + destruct (isinstance_Exception e) eqn:He.
      * left. split; [|congruence].
        rewrite (chunk_tokens_raises t mode K NG _ e Hms), app_nil_r.
        unfold analyse_chunk. cbn [truthy negb]. now rewrite Hms, He.
      * right. exists e. repeat split; try assumption.
        unfold analyse_chunk. cbn [truthy negb]. now rewrite Hms, He.
Qed.

(** The loop over the chunks: it appends the tokens of every chunk, unless
    the analyzer raises outside [Exception] on a chunk, and then the first
    such exception leaves the loop. *)
Lemma analyse_chunks_cases (t : Tokenizer) (mode : SplitMode) (K NG : pyset)
  (chunks : list str) : forall toks,
  (analyse_chunks t mode K NG chunks toks
   = Normal (toks ++ flat_map (chunk_tokens t mode K NG) chunks)
   /\ forall c e, In c chunks -> c <> [] -> tokenize t c mode = Raises e ->
                  isinstance_Exception e = true)
  \/ (exists before c after e,
        chunks = before ++ c :: after
        /\ (forall c' e', In c' before -> c' <> [] ->
                          tokenize t c' mode = Raises e' ->
                          isinstance_Exception e' = true)
        /\ c <> [] /\ tokenize t c mode = Raises e
        /\ isinstance_Exception e = false
        /\ analyse_chunks t mode K NG chunks toks = Raise e).
Proof.
  induction chunks as [|chunk chunks IH]; intros toks.
  - left. cbn [analyse_chunks flat_map]. rewrite app_nil_r.
    split; [reflexivity | contradiction].
  - cbn [analyse_chunks flat_map].
    destruct (analyse_chunk_cases t mode K NG toks chunk)
      as [[Hrun Hcaught] | (e & Hne & He & Hcls & Hrun)]; rewrite Hrun.
    + destruct (IH (toks ++ chunk_tokens t mode K NG chunk))
        as [[Hrest Hall] | (before & c & after & e & -> & Hbefore & Hne & He & Hcls & Hrest)].
      * left. rewrite Hrest, <- app_assoc. split; [reflexivity|].
        intros c e [<- | Hin]; [apply Hcaught | now apply Hall].
      * right. exists (chunk :: before), c, after, e.
        split; [reflexivity|]. split.
        { intros c' e' [<- | Hin]; [apply Hcaught | now apply Hbefore]. }
        auto.
    + right. exists [], chunk, chunks, e.
      split; [reflexivity|]. split; [contradiction|]. auto.
Qed.

Lemma analyse_chunks_caught (t : Tokenizer) (mode : SplitMode) (K NG : pyset)
  (chunks : list str) (toks : list str) :
  (forall c e, In c chunks -> tokenize t c mode = Raises e ->
               isinstance_Exception e = true) ->
  analyse_chunks t mode K NG chunks toks
  = Normal (toks ++ flat_map (chunk_tokens t mode K NG) chunks).
Proof.
  intros Hall.
  destruct (analyse_chunks_cases t mode K NG chunks toks)
    as [[Hrun _] | (before & c & after & e & -> & _ & _ & He & Hcls & _)];
    [exact Hrun|].
  rewrite (Hall c e) in Hcls; [discriminate | | assumption].
  apply in_or_app. right. now left.
Qed.

Lemma analyse_chunks_normal (t : Tokenizer) (mode : SplitMode) (K NG : pyset)
  (chunks : list str) (toks result : list str) :
  analyse_chunks t mode K NG chunks toks = Normal result ->
  result = toks ++ flat_map (chunk_tokens t mode K NG) chunks.
Proof.
  intros H.
  destruct (analyse_chunks_cases t mode K NG chunks toks)
    as [[Hrun _] | (before & c & after & e & _ & _ & _ & _ & _ & Hrun)];
    rewrite Hrun in H; [now injection H | discriminate].
Qed.

Lemma analyse_chunks_raise (t : Tokenizer) (mode : SplitMode) (K NG : pyset)
  (chunks : list str) (toks : list str) (e : exn) :
  analyse_chunks t mode K NG chunks toks = Raise e ->
  isinstance_Exception e = false.
Proof.
  intros H.
  destruct (analyse_chunks_cases t mode K NG chunks toks)
    as [[Hrun _] | (before & c & after & e' & _ & _ & _ & _ & Hcls & Hrun)];
    rewrite Hrun in H; [discriminate|].
  injection H as <-. exact Hcls.
Qed.

Lemma scan_tagged_morphemes (K NG : pyset) (ms : list Morpheme) :
  Forall (fun mo => part_of_speech mo <> []) ms ->
  fst (scan_morphemes K NG ms []) = flat_map (kept K NG) ms.
Proof.
  induction 1 as [|m ms Hm _ IH]; [reflexivity|].
  cbn [scan_morphemes flat_map]. unfold kept at 1.
  destruct (part_of_speech m) as [|pos0 rest] eqn:Hpos; [congruence|].
  destruct (keep_token_tagged K NG m pos0 rest Hpos) as [_ Hk].
  rewrite Hk.
  destruct ((truthy K && negb (mem pos0 K)) || negb (truthy _)
            || (truthy NG && mem _ NG)).
  - exact IH.
  - rewrite scan_morphemes_app, IH. reflexivity.
Qed.

Lemma no_runtime_error_bind {A B} (m : gen A) (k : A -> gen B) :
  no_runtime_error m -> (forall a, no_runtime_error (k a)) ->
  no_runtime_error (bind m k).
Proof.
  unfold no_runtime_error, ending. intros Hm Hk.
  destruct m as [ys [a|e|]]; cbn [bind snd] in *.
  - specialize (Hk a). destruct (k a). exact Hk.
  - intros H. apply Hm. congruence.
  - discriminate.
Qed.

Lemma force_split_no_runtime_error (hard : Z) : forall fuel buf cur,
  no_runtime_error (force_split fuel hard buf cur).
Proof.
  induction fuel as [|fuel IH]; intros buf cur; cbn [force_split]; [discriminate|].
  destruct (last_item buf) as [w|]; [|discriminate].
  destruct (len w >? hard); [|discriminate].
  apply no_runtime_error_bind; [discriminate | intros _; apply IH].
Qed.

Lemma chunk_step_no_runtime_error (fuel : nat) (max hard : Z) (p : str)
  (st : list str * Z) : no_runtime_error (chunk_step fuel max hard p st).
Proof.
  unfold chunk_step. destruct (negb (truthy p)); [discriminate|].
  apply no_runtime_error_bind.
  - unfold add_word. destruct st as [buf cur].
    destruct ((cur + ((if truthy buf then 1 else 0) + len p) >? max) && truthy buf);
      discriminate.
  - intros st1. apply no_runtime_error_bind; [apply force_split_no_runtime_error|].
    intros [buf cur]. unfold failsafe.
    destruct (cur >? hard); [|discriminate].
    destruct (truthy (failsafe_out hard 0 0 buf)); discriminate.
Qed.

Lemma chunker_no_runtime_error (fuel : nat) (text : str) (max hard : Z) :
  no_runtime_error (_iter_space_chunks fuel text max hard).
Proof.
  unfold _iter_space_chunks. destruct (negb (truthy text)); [discriminate|].
  apply no_runtime_error_bind.
  - generalize (@nil (list N), 0) as st.
    induction (_SPACE_SPLIT_split (strip text)) as [|p parts IH]; intros st;
      cbn [chunk_loop]; [discriminate|].
    apply no_runtime_error_bind; [apply chunk_step_no_runtime_error | apply IH].
  - intros st. destruct (truthy (fst st)); discriminate.
Qed.

(** C4, as stated, fails: with [maxChars = 5 > hardMaxChars = 3] the
    pipeline raises nothing; it chunks "aaaa bb" into "aaa", "a", "bb" and
    returns their tokens. *)
Lemma config_check_counterexample :
  5 > 3
  /\ yielded (_iter_space_chunks 20 (_clean_text NFKC.nfkc [A_; A_; A_; A_; SP; B_; B_]) 5 3)
     = [[A_; A_; A_]; [A_]; [B_; B_]]
  /\ base_tokenize NFKC.nfkc None 20 [A_; A_; A_; A_; SP; B_; B_]
       (ArgBool true) (ArgBool false) 5 3 (Some noun_tok) None
     = Normal [[A_; A_; A_]; [A_]; [B_; B_]].
Proof. split; [lia|]. split; reflexivity. Qed.

(** C4, amended: the pipeline does not check [maxChars <= hardMaxChars].
    The only configuration error it raises is for a missing analyzer: it
    raises [RuntimeError] exactly when no analyzer is passed and the module
    has none, whatever the text, the limits and the fuel (so, before any
    chunking or analysis). *)
Theorem config_error_iff_no_analyzer
  (_nfkc : str -> str) (_TOK : option Tokenizer) (fuel : nat) (text : str)
  (keep_pos ng_words : str_seq_or_bool) (max_chars_per_chunk hard_max_chars : Z)
  (tok : option Tokenizer) (split_mode : option SplitMode) :
  base_tokenize _nfkc _TOK fuel text keep_pos ng_words
    max_chars_per_chunk hard_max_chars tok split_mode = Raise RuntimeError
  <-> (tok = None /\ _TOK = None).
Proof.
  unfold base_tokenize. split.
  - intros H. destruct tok as [t|]; [|destruct _TOK as [t|]]; [| |now split];
      exfalso; destruct split_mode as [m|]; cbn [_SPLIT_MODE] in H;
      pose proof (chunker_no_runtime_error fuel (_clean_text _nfkc text)
                    max_chars_per_chunk hard_max_chars) as Hno;
      unfold no_runtime_error, ending in Hno;
      destruct (_iter_space_chunks fuel (_clean_text _nfkc text)
                  max_chars_per_chunk hard_max_chars) as [ys ended];
      cbn [snd] in Hno;
      match type of H with
      | context [analyse_chunks ?t ?m ?K ?NG ys []] =>
          destruct (analyse_chunks t m K NG ys []) as [toks|e|] eqn:Hrun
      end;
      try discriminate;
      try (apply analyse_chunks_raise in Hrun; injection H as ->; discriminate);
      destruct ended as [u|e|]; try discriminate; congruence.
  - intros [-> ->]. now destruct split_mode.
Qed.

(** C10: for a text of whitespace characters only (the empty text
    included), the chunker yields no chunk and returns; and the pipeline,
    given an analyzer, returns the empty token list, provided NFKC maps the
    text to whitespace (as it does: it maps whitespace characters to
    whitespace characters). *)
Theorem whitespace_only_text (text : str) :
  forallb is_space text = true ->
  (forall fuel max_chars hard_max_chars,
     _iter_space_chunks fuel text max_chars hard_max_chars = ([], Normal tt))
  /\ (forall (_nfkc : str -> str) (_TOK : option Tokenizer) fuel keep_pos ng_words
             max_chars_per_chunk hard_max_chars tok split_mode,
        forallb is_space (_nfkc text) = true ->
        tok <> None \/ _TOK <> None ->
        base_tokenize _nfkc _TOK fuel text keep_pos ng_words
          max_chars_per_chunk hard_max_chars tok split_mode = Normal []).
Proof.
  intros Hws. split.
  - intros fuel max_chars hard_max_chars.
    apply chunker_no_words. now apply words_all_space.
  - intros _nfkc _TOK fuel keep_pos ng_words max hard tok split_mode Hn Htok.
    assert (Hclean : forallb is_space (_clean_text _nfkc text) = true).
    { unfold _clean_text, translate_delete. cbn [truthy NOISE_CHARS].
      rewrite forallb_forall in *. intros c Hc. apply filter_In in Hc.
      now apply Hn. }
    unfold base_tokenize.
    rewrite chunker_no_words by (now apply words_all_space).
    destruct tok as [t|]; [|destruct _TOK as [t|]];
      try (destruct split_mode; reflexivity).
    destruct Htok; congruence.
Qed.

Lemma whitespace_only_text_witness :
  _iter_space_chunks 0 [SP; 0x3000%N; 9%N; 10%N] 2000 4000 = ([], Normal tt)
  /\ base_tokenize NFKC.nfkc None 0 [SP; 0x3000%N; 9%N; 10%N]
       (ArgBool true) (ArgBool false) 2000 4000 (Some noun_tok) None = Normal [].
Proof.
  destruct (whitespace_only_text [SP; 0x3000%N; 9%N; 10%N] eq_refl) as [Hc Hp].
  split.
  - apply Hc.
  - apply Hp; [reflexivity | left; discriminate].
Defined.

(* ===================================================================== *)
(** * The chunker for any [max_chars]: the fail-safe *)
(* ===================================================================== *)

Lemma sum_len_nonneg (l : list str) : 0 <= sum_len l.
Proof.
  unfold sum_len. induction l as [|x l IH]; cbn [fold_right]; [lia|].
  pose proof (len_nonneg x). lia.
Qed.

Lemma joined_len_nonneg (l : list str) : 0 <= joined_len l.
Proof. unfold joined_len. pose proof (sum_len_nonneg l). lia. Qed.

Lemma joined_len_step (l : list str) (w : str) :
  joined_len (l ++ [w])
  = joined_len l + (len w + (if (0 <? length l)%nat then 1 else 0)).
Proof.
  destruct l as [|x l].
  - cbn [app length Nat.ltb Nat.leb]. rewrite joined_len_single.
    change (joined_len []) with 0. lia.
  - rewrite joined_len_snoc by discriminate. cbn [length Nat.ltb Nat.leb]. lia.
Qed.

Lemma joined_len_prefix (l1 l2 : list str) : joined_len l1 <= joined_len (l1 ++ l2).
Proof.
  unfold joined_len. rewrite sum_len_app, len_app.
  pose proof (sum_len_nonneg l2). pose proof (len_nonneg l2). lia.
Qed.

(** The fail-safe keeps the longest prefix of the buffer that fits: when
    all but the last word fit, that is all but the last word. *)
Lemma failsafe_out_all_but_last (hard : Z) (x : str) : forall pre done,
  joined_len (done ++ pre) <= hard ->
  hard < joined_len (done ++ pre ++ [x]) ->
  failsafe_out hard (length done) (joined_len done) (pre ++ [x]) = pre.
Proof.
  induction pre as [|w pre IH]; intros done Hfit Hover; cbn [app failsafe_out].
  - rewrite <- joined_len_step.
    destruct (Z.gtb_spec (joined_len (done ++ [x])) hard); [reflexivity | cbn [app] in Hover; lia].
  - rewrite <- joined_len_step.
    pose proof (joined_len_prefix (done ++ [w]) pre) as Hmono.
    rewrite <- app_assoc in Hmono. cbn [app] in Hmono.
    destruct (Z.gtb_spec (joined_len (done ++ [w])) hard); [lia|].
    f_equal.
    replace (S (length done)) with (length (done ++ [w]))
      by (rewrite length_app; cbn [length]; lia).
    apply IH; rewrite <- app_assoc; assumption.
Qed.

Lemma len_last_piece (hard : Z) (p : str) : len (last (pieces hard p) []) <= len p.
Proof.
  pose proof (concat_pieces hard p) as Hcat.
  rewrite pieces_split_last, concat_app in Hcat. cbn [concat] in Hcat.
  rewrite app_nil_r in Hcat.
  assert (H : len p = len (concat (removelast (pieces hard p)))
                      + len (last (pieces hard p) []))
    by (rewrite <- len_app; now rewrite Hcat).
  pose proof (len_nonneg (concat (removelast (pieces hard p)))). lia.
Qed.

Lemma pieces_parts_words (hard : Z) (p : str) :
  0 < hard -> is_word p ->
  Forall is_word (removelast (pieces hard p)) /\ is_word (last (pieces hard p) []).
Proof.
  intros Hh Hp. pose proof (pieces_bounded hard p Hh Hp) as Hall.
  rewrite pieces_split_last in Hall. apply Forall_app in Hall.
  destruct Hall as [Hinit Hlast]. split.
  - revert Hinit. apply Forall_impl. now intros x [Hx _].
  - inversion Hlast as [|? ? [Hx _] _]; subst. exact Hx.
Qed.

Lemma singleton_groups_tidy (max hard : Z) (l : list str) :
  Forall is_word l -> Forall (fun x => len x <= hard) l ->
  Forall (fun g => g <> [] /\ tidy max hard g) (map (fun x => [x]) l).
Proof.
  intros Hw Hl. induction l as [|x l IH]; cbn [map]; constructor.
  - inversion Hw; inversion Hl; subst. split; [discriminate|].
    split; [now constructor|]. split; [now rewrite joined_len_single|].
    right. cbn. lia.
  - inversion Hw; inversion Hl; subst. now apply IH.
Qed.

Section AnyMax.

Variables max hard : Z.
Hypothesis hard_pos : 0 < hard.

(** One word through the loop body, whatever [max] is: the buffer stays
    tidy, every group yielded is tidy, and a word within the hard limit goes
    through in order. *)
Lemma chunk_step_tidy (fuel : nat) (p : str) (buf : list str) :
  tidy max hard buf -> is_word p -> (length p < fuel)%nat ->
  exists gs buf',
    chunk_step fuel max hard p (buf, joined_len buf)
    = (map join_space gs, Normal (buf', joined_len buf'))
    /\ tidy max hard buf'
    /\ Forall (fun g => g <> [] /\ tidy max hard g) gs
    /\ (len p <= hard -> concat gs ++ buf' = buf ++ [p]).
Proof.
  intros (Hbw & Hbh & Hbs) Hp Hfuel.
  destruct (pieces_parts_bounded hard p hard_pos Hp) as [Hinit Hlast].
  destruct (pieces_parts_words hard p hard_pos Hp) as [Hinitw Hlastw].
  pose proof (len_last_piece hard p) as Hlastp.
  pose proof (singleton_groups_tidy max hard _ Hinitw Hinit) as Hsingle.
  assert (Htl : tidy max hard [last (pieces hard p) []]).
  { split; [now constructor|]. split; [now rewrite joined_len_single|].
    right. cbn. lia. }
  pose proof Hp as [Hne _]. apply truthy_true in Hne.
  unfold chunk_step, add_word. rewrite Hne. cbn [negb].
  pose proof (force_split_spec hard [] hard_pos fuel p Hfuel) as push.
  cbn [app] in push. rewrite joined_len_single in push.
  destruct ((joined_len buf + ((if truthy buf then 1 else 0) + len p) >? max)
            && truthy buf) eqn:E.
  - (* flushed *)
    apply andb_prop in E. destruct E as [_ Hb]. apply truthy_true in Hb.
    exists (buf :: map (fun x => [x]) (removelast (pieces hard p))),
           [last (pieces hard p) []].
    rewrite yield_then_ret, bind_normal. cbn [fst snd].
    rewrite push, bind_normal.
    rewrite failsafe_idle by (now rewrite joined_len_single).
    cbn [fst snd ret map]. rewrite map_join_singletons, app_nil_r.
    split; [reflexivity|]. split; [assumption|]. split.
    + constructor; [|assumption]. split; [assumption | now repeat split].
    + intros Hshort. rewrite pieces_short by assumption.
      cbn [removelast last map concat]. now rewrite app_nil_r.
  - rewrite bind_ret. cbn [fst snd].
    assert (Hj : joined_len buf + ((if truthy buf then 1 else 0) + len p)
                 = joined_len (buf ++ [p])).
    { rewrite joined_len_step. destruct buf; cbn [truthy length Nat.ltb Nat.leb]; lia. }
    rewrite Hj.
    rewrite (force_split_spec hard buf hard_pos fuel p Hfuel), bind_normal.
    destruct (Z_le_gt_dec (joined_len (buf ++ [last (pieces hard p) []])) hard)
      as [Hfit|Hover].
    + (* the buffer with the rest of [p] fits *)
      exists (map (fun x => [x]) (removelast (pieces hard p))),
             (buf ++ [last (pieces hard p) []]).
      rewrite failsafe_idle by assumption.
      cbn [fst snd ret]. rewrite map_join_singletons, app_nil_r.
      split; [reflexivity|]. split; [|split].
      * split; [apply Forall_app; split; [assumption | now constructor]|].
        split; [assumption|].
        destruct buf as [|b buf]; [right; cbn; lia|]. left.
        cbn [truthy] in E. rewrite andb_true_r in E.
        destruct (Z.gtb_spec (joined_len (b :: buf) + (1 + len p)) max); [discriminate|].
        rewrite joined_len_snoc by discriminate. lia.
      * assumption.
      * intros Hshort. rewrite pieces_short by assumption. reflexivity.
    + (* the fail-safe yields the buffer and keeps the rest of [p] *)
      assert (Hb : buf <> []).
      { intros ->. cbn [app] in Hover. rewrite joined_len_single in Hover. lia. }
      exists (map (fun x => [x]) (removelast (pieces hard p)) ++ [buf]),
             [last (pieces hard p) []].
      unfold failsafe.
      destruct (Z.gtb_spec (joined_len (buf ++ [last (pieces hard p) []])) hard); [|lia].
      pose proof (failsafe_out_all_but_last hard (last (pieces hard p) []) buf []) as Hout.
      cbn [app length] in Hout. change (joined_len []) with 0 in Hout.
      rewrite Hout by (assumption || lia).
      apply truthy_true in Hb. rewrite Hb. apply truthy_true in Hb.
      rewrite yield_then_ret. cbn [fst snd].
      rewrite skipn_app, skipn_all, Nat.sub_diag. cbn [skipn app].
      rewrite map_app, map_join_singletons. cbn [map].
      split; [reflexivity|]. split; [assumption|]. split.
      * apply Forall_app. split; [assumption|].
        constructor; [|constructor]. split; [assumption | now repeat split].
      * intros Hshort. rewrite pieces_short by assumption.
        cbn [removelast last map app concat]. now rewrite app_nil_r.
Qed.

Lemma chunk_loop_tidy (fuel : nat) :
  forall (parts : list str) (buf : list str),
    tidy max hard buf ->
    Forall (fun p => space_free p /\ (length p < fuel)%nat) parts ->
    exists gs buf',
      chunk_loop fuel max hard parts (buf, joined_len buf)
      = (map join_space gs, Normal (buf', joined_len buf'))
      /\ tidy max hard buf'
      /\ Forall (fun g => g <> [] /\ tidy max hard g) gs
      /\ (Forall (fun w => len w <= hard) (filter truthy parts) ->
          concat gs ++ buf' = buf ++ filter truthy parts).
Proof.
  induction parts as [|p parts IH]; intros buf Hbuf Hparts.
  - exists [], buf. cbn. rewrite app_nil_r. auto.
  - inversion Hparts as [|? ? [Hsf Hfuel] Hrest]; subst.
    cbn [chunk_loop filter]. destruct (truthy p) eqn:Ep.
    + assert (Hp : is_word p) by (split; [now apply truthy_true | assumption]).
      destruct (chunk_step_tidy fuel p buf Hbuf Hp Hfuel)
        as (gs1 & buf1 & Hstep & Hbuf1 & Hgood1 & Hcat1).
      destruct (IH buf1 Hbuf1 Hrest) as (gs2 & buf2 & Hloop & Hbuf2 & Hgood2 & Hcat2).
      exists (gs1 ++ gs2), buf2.
      rewrite Hstep, bind_normal, Hloop. cbn [fst snd].
      rewrite map_app. split; [reflexivity|]. split; [assumption|]. split.
      * apply Forall_app. now split.
      * intros Hshort. inversion Hshort as [|? ? Hp1 Hps]; subst.
        rewrite concat_app, <- app_assoc, (Hcat2 Hps), app_assoc, (Hcat1 Hp1).
        now rewrite <- app_assoc.
    + unfold chunk_step. rewrite Ep. cbn [negb]. rewrite bind_ret.
      now apply IH.
Qed.

(** The chunker for any [max]: it returns, every chunk is a tidy group
    joined, and texts without long words come out in order. *)
Lemma chunker_tidy_groups (fuel : nat) (text : str) :
  (length text < fuel)%nat ->
  exists gs,
    _iter_space_chunks fuel text max hard = (map join_space gs, Normal tt)
    /\ Forall (fun g => g <> [] /\ tidy max hard g) gs
    /\ (Forall (fun w => len w <= hard) (words text) -> concat gs = words text).
Proof.
  intros Hfuel. unfold _iter_space_chunks.
  destruct (truthy text) eqn:Et; cbn [negb].
  2:{ apply truthy_false in Et. subst. exists []. cbn. auto. }
  assert (Hparts : Forall (fun p => space_free p /\ (length p < fuel)%nat)
                          (_SPACE_SPLIT_split (strip text))).
  { unfold _SPACE_SPLIT_split. apply Forall_forall. intros p Hin. split.
    - pose proof (split_parts_space_free (strip text) false [] (Forall_nil _)) as H.
      rewrite Forall_forall in H. now apply H.
    - pose proof (split_parts_length (strip text) false []) as H.
      rewrite Forall_forall in H. apply H in Hin. cbn [length] in Hin.
      pose proof (strip_length text). lia. }
  assert (H0 : tidy max hard []).
  { split; [constructor|]. split; [change (joined_len []) with 0; lia|].
    right. cbn. lia. }
  destruct (chunk_loop_tidy fuel _ [] H0 Hparts)
    as (gs & buf & Hloop & Hbuf & Hgood & Hcat).
  change (joined_len []) with 0 in Hloop. rewrite Hloop, bind_normal.
  cbn [fst snd app] in Hcat |- *. fold (words text) in Hcat.
  destruct buf as [|b buf]; cbn [truthy].
  - exists gs. cbn. rewrite !app_nil_r in *. auto.
  - exists (gs ++ [b :: buf]). cbn [yield fst snd]. rewrite map_app. cbn [map].
    split; [reflexivity|]. split.
    + apply Forall_app. split; [assumption|].
      constructor; [|constructor]. split; [discriminate | assumption].
    + intros Hshort. rewrite concat_app. cbn [concat]. rewrite app_nil_r. auto.
Qed.

End AnyMax.

Lemma flat_map_words_joined (gs : list (list str)) :
  Forall (Forall is_word) gs -> flat_map words (map join_space gs) = concat gs.
Proof.
  induction 1 as [|g gs Hg _ IH]; [reflexivity|].
  cbn [map flat_map concat]. now rewrite words_join_space, IH.
Qed.

(** X1: the hard limit does not depend on [max_chars]: for
    [1 <= hard_max_chars] and any [max_chars], also one above
    [hard_max_chars], the chunker returns and every chunk is a non-empty
    string of at most [hard_max_chars] characters. *)
Theorem hard_limit_for_any_max (fuel : nat) (text : str) (max_chars hard_max_chars : Z) :
  0 < hard_max_chars -> (length text < fuel)%nat ->
  ending (_iter_space_chunks fuel text max_chars hard_max_chars) = Normal tt
  /\ Forall (fun c : str => c <> [] /\ len c <= hard_max_chars)
       (yielded (_iter_space_chunks fuel text max_chars hard_max_chars)).
Proof.
  intros Hh Hfuel.
  destruct (chunker_tidy_groups max_chars hard_max_chars Hh fuel text Hfuel)
    as (gs & Hrun & Hgood & _).
  rewrite Hrun. cbn [ending yielded fst snd]. split; [reflexivity|].
  apply Forall_map. revert Hgood. apply Forall_impl.
  intros g (Hne & Hw & Hlen & _). split.
  - apply join_space_nonempty; [now apply is_word_nonempty | assumption].
  - now rewrite len_join_space.
Qed.

Lemma hard_limit_for_any_max_witness :
  ending (_iter_space_chunks 20 [A_; B_; SP; C_; D_; A_; B_; C_; SP; D_; A_] 100 3)
  = Normal tt
  /\ Forall (fun c : str => c <> [] /\ len c <= 3)
       (yielded (_iter_space_chunks 20 [A_; B_; SP; C_; D_; A_; B_; C_; SP; D_; A_] 100 3)).
Proof.
  apply (hard_limit_for_any_max 20 [A_; B_; SP; C_; D_; A_; B_; C_; SP; D_; A_] 100 3).
  - lia.
  - cbn. lia.
Defined.

(** X2: when no word of the text is longer than [hard_max_chars], then for
    any [max_chars] the chunks hold the words of the text in order, none
    lost, cut or repeated, and joined with single spaces they are the
    whitespace-collapsed text. *)
Theorem words_kept_for_any_max (fuel : nat) (text : str) (max_chars hard_max_chars : Z) :
  Forall (fun w => len w <= hard_max_chars) (words text) ->
  (length text < fuel)%nat ->
  ending (_iter_space_chunks fuel text max_chars hard_max_chars) = Normal tt
  /\ flat_map words (yielded (_iter_space_chunks fuel text max_chars hard_max_chars))
     = words text
  /\ join_space (yielded (_iter_space_chunks fuel text max_chars hard_max_chars))
     = collapse_whitespace text.
Proof.
  intros Hshort Hfuel. rewrite <- join_words_collapse.
  destruct (words text) as [|w ws] eqn:Ew.
  - rewrite chunker_no_words by assumption. now repeat split.
  - assert (Hh : 0 < hard_max_chars).
    { pose proof (words_is_word text) as Hw. rewrite Ew in Hw.
      inversion Hw as [|? ? [Hne _] _]; subst.
      inversion Hshort as [|? ? Hlen _]; subst.
      apply truthy_true, truthy_len in Hne. lia. }
    destruct (chunker_tidy_groups max_chars hard_max_chars Hh fuel text Hfuel)
      as (gs & Hrun & Hgood & Hcat).
    rewrite Ew in Hcat. specialize (Hcat Hshort).
    rewrite Hrun. cbn [ending yielded fst snd]. split; [reflexivity|]. split.
    + rewrite flat_map_words_joined; [assumption|].
      revert Hgood. apply Forall_impl. now intros g (_ & Hw & _).
    + rewrite join_join_concat; [now rewrite Hcat|].
      revert Hgood. apply Forall_impl. now intros g (Hne & _).
Qed.

Lemma words_kept_for_any_max_witness :
  ending (_iter_space_chunks 20 [A_; B_; SP; SP; C_; D_; A_; 10%N; D_; A_; SP] 100 3)
  = Normal tt
  /\ flat_map words
       (yielded (_iter_space_chunks 20 [A_; B_; SP; SP; C_; D_; A_; 10%N; D_; A_; SP] 100 3))
     = words [A_; B_; SP; SP; C_; D_; A_; 10%N; D_; A_; SP]
  /\ join_space
       (yielded (_iter_space_chunks 20 [A_; B_; SP; SP; C_; D_; A_; 10%N; D_; A_; SP] 100 3))
     = collapse_whitespace [A_; B_; SP; SP; C_; D_; A_; 10%N; D_; A_; SP].
Proof.
  apply (words_kept_for_any_max 20 [A_; B_; SP; SP; C_; D_; A_; 10%N; D_; A_; SP] 100 3).
  - vm_compute. repeat constructor; discriminate.
  - cbn. lia.
Defined.

(** X3: the soft limit: for [1 <= hard_max_chars] and any [max_chars],
    a chunk longer than [max_chars] is a single word (or a single piece of
    one): no chunk of two or more words exceeds [max_chars]. *)
Theorem soft_limit_but_for_single_words (fuel : nat) (text : str)
  (max_chars hard_max_chars : Z) :
  0 < hard_max_chars -> (length text < fuel)%nat ->
  Forall (fun c : str => len c <= max_chars \/ words c = [c])
    (yielded (_iter_space_chunks fuel text max_chars hard_max_chars)).
Proof.
  intros Hh Hfuel.
  destruct (chunker_tidy_groups max_chars hard_max_chars Hh fuel text Hfuel)
    as (gs & Hrun & Hgood & _).
  rewrite Hrun. cbn [yielded fst]. apply Forall_map.
  revert Hgood. apply Forall_impl. intros g (Hne & Hw & _ & [Hsoft|Hone]).
  - left. now rewrite len_join_space.
  - right. rewrite words_join_space by assumption.
    destruct g as [|x [|y g]]; [congruence | reflexivity | cbn in Hone; lia].
Qed.

Lemma soft_limit_but_for_single_words_witness :
  Forall (fun c : str => len c <= 4 \/ words c = [c])
    (yielded (_iter_space_chunks 20 [A_; SP; B_; SP; C_; D_; A_; B_; C_; D_; SP; A_] 4 6)).
Proof.
  apply (soft_limit_but_for_single_words 20
           [A_; SP; B_; SP; C_; D_; A_; B_; C_; D_; SP; A_] 4 6).
  - lia.
  - cbn. lia.
Defined.

(* ===================================================================== *)
(** * The chunker reads the words of the text and nothing else *)
(* ===================================================================== *)

Lemma bind_ext {A B} (m : gen A) (k1 k2 : A -> gen B) :
  (forall a, k1 a = k2 a) -> bind m k1 = bind m k2.
Proof. intros H. destruct m as [ys [a|e|]]; cbn [bind]; [now rewrite H | reflexivity..]. Qed.

Lemma bind_ret_r {A} (m : gen A) : bind m (fun a => ret a) = m.
Proof. destruct m as [ys [a|e|]]; cbn; now rewrite ?app_nil_r. Qed.

Lemma bind_ending {A B} (m : gen A) (k : A -> gen B) :
  ending (bind m k)
  = match ending m with
    | Normal a => ending (k a)
    | Raise e => Raise e
    | Spin => Spin
    end.
Proof.
  destruct m as [ys [a|e|]]; cbn [bind ending snd]; [|reflexivity..].
  now destruct (k a).
Qed.

Lemma chunk_loop_skips_empty (fuel : nat) (max hard : Z) (parts : list str) :
  forall st,
    chunk_loop fuel max hard parts st
    = chunk_loop fuel max hard (filter truthy parts) st.
Proof.
  induction parts as [|p parts IH]; intros st; [reflexivity|].
  cbn [chunk_loop filter]. destruct (truthy p) eqn:Ep.
  - cbn [chunk_loop]. apply bind_ext. intros st'. apply IH.
  - unfold chunk_step. rewrite Ep. cbn [negb]. rewrite bind_ret. apply IH.
Qed.

Lemma chunker_by_words (fuel : nat) (text : str) (max hard : Z) :
  _iter_space_chunks fuel text max hard
  = (st <- chunk_loop fuel max hard (words text) ([], 0) ;;
     if truthy (fst st) then yield (join_space (fst st)) else ret tt).
Proof.
  unfold _iter_space_chunks. destruct text as [|c text]; [reflexivity|].
  cbn [truthy negb]. now rewrite chunk_loop_skips_empty.
Qed.

(** X4: the chunks depend on the text only through its words: two texts
    with the same words, however the whitespace between and around them
    differs, are chunked alike, for all limits. *)
Theorem chunker_reads_words_only (fuel : nat) (text1 text2 : str)
  (max_chars hard_max_chars : Z) :
  words text1 = words text2 ->
  _iter_space_chunks fuel text1 max_chars hard_max_chars
  = _iter_space_chunks fuel text2 max_chars hard_max_chars.
Proof. intros H. rewrite !chunker_by_words. now rewrite H. Qed.

Lemma chunker_reads_words_only_witness :
  _iter_space_chunks 9 [9%N; A_; B_; 0x3000%N; 10%N; C_; D_; A_; B_; SP] 3 3
  = _iter_space_chunks 9 [A_; B_; SP; C_; D_; A_; B_] 3 3.
Proof.
  apply (chunker_reads_words_only 9 [9%N; A_; B_; 0x3000%N; 10%N; C_; D_; A_; B_; SP]
           [A_; B_; SP; C_; D_; A_; B_] 3 3).
  reflexivity.
Defined.

(* ===================================================================== *)
(** * Chunk order when [max_chars] is above [hard_max_chars] *)
(* ===================================================================== *)

Lemma chunk_step_first_word (fuel : nat) (max hard : Z) (w : str) :
  0 < hard -> is_word w -> len w <= hard -> (0 < fuel)%nat ->
  chunk_step fuel max hard w ([], 0) = ret ([w], len w).
Proof.
  intros Hh [Hne Hsf] Hshort Hfuel. unfold chunk_step, add_word.
  apply truthy_true in Hne. rewrite Hne. cbn [negb truthy app].
  rewrite andb_false_r, bind_ret. cbn [fst snd].
  replace (0 + (0 + len w)) with (len w) by lia.
  destruct fuel as [|fuel]; [lia|]. unroll_force_split.
  destruct (Z.gtb_spec (len w) hard); [lia|].
  rewrite bind_ret. now apply failsafe_idle.
Qed.

(** X5: with [max_chars] above [hard_max_chars] the chunks can leave text
    order: when a word [w2] longer than [hard_max_chars] follows a word [w1]
    and the two fit within [max_chars], the leading pieces of [w2] are
    yielded first, and [w1] only after them, alone or joined to the last
    piece of [w2]. *)
Theorem long_word_overtakes_buffer (fuel : nat) (w1 w2 : str)
  (max_chars hard_max_chars : Z) :
  is_word w1 -> is_word w2 ->
  0 < hard_max_chars -> len w1 <= hard_max_chars -> hard_max_chars < len w2 ->
  len w1 + 1 + len w2 <= max_chars ->
  (length w2 < fuel)%nat ->
  _iter_space_chunks fuel (w1 ++ SP :: w2) max_chars hard_max_chars
  = (removelast (pieces hard_max_chars w2)
     ++ (if len w1 + 1 + len (last (pieces hard_max_chars w2) []) >? hard_max_chars
         then [w1; last (pieces hard_max_chars w2) []]
         else [w1 ++ SP :: last (pieces hard_max_chars w2) []]),
     Normal tt)
  /\ hd_error (removelast (pieces hard_max_chars w2))
     = Some (firstn (Z.to_nat hard_max_chars) w2).
Proof.
  intros Hw1 Hw2 Hh Hshort Hlong Hmax Hfuel. split.
  - rewrite chunker_by_words.
    assert (Hwords : words (w1 ++ SP :: w2) = [w1; w2]).
    { change (w1 ++ SP :: w2) with (join_space [w1; w2]).
      apply words_join_space.
      constructor; [assumption|]. constructor; [assumption | constructor]. }
    rewrite Hwords. cbn [chunk_loop].
    rewrite chunk_step_first_word by (assumption || lia). rewrite bind_ret.
    unfold chunk_step, add_word. pose proof Hw2 as [Hne2 _].
    apply truthy_true in Hne2. rewrite Hne2. cbn [negb truthy andb].
    destruct (Z.gtb_spec (len w1 + (1 + len w2)) max_chars); [lia|].
    cbn [andb]. rewrite bind_ret. cbn [fst snd].
    pose proof (force_split_spec hard_max_chars [w1] Hh fuel w2 Hfuel) as push.
    rewrite joined_len_snoc in push by discriminate. rewrite joined_len_single in push.
    cbn [app] in push |- *.
    replace (len w1 + (1 + len w2)) with (len w1 + 1 + len w2) by lia.
    rewrite bind_ret_r, push, bind_normal. clear push.
    set (rest := last (pieces hard_max_chars w2) []).
    assert (Hj : joined_len [w1; rest] = len w1 + 1 + len rest).
    { change [w1; rest] with ([w1] ++ [rest]).
      rewrite joined_len_snoc by discriminate. now rewrite joined_len_single. }
    rewrite Hj. unfold failsafe.
    destruct (Z.gtb_spec (len w1 + 1 + len rest) hard_max_chars) as [Hover|Hfit].
    + pose proof (failsafe_out_all_but_last hard_max_chars rest [w1] []) as Hout.
      cbn [app length] in Hout. change (joined_len []) with 0 in Hout.
      rewrite Hout by (rewrite ?joined_len_single, ?Hj; lia).
      cbn [truthy]. rewrite yield_then_ret. cbn [fst snd length skipn].
      rewrite bind_normal. cbn [fst snd truthy join_space yield].
      now rewrite <- app_assoc.
    + cbn [ret fst snd]. rewrite bind_normal. cbn [fst snd truthy join_space yield].
      now rewrite !app_nil_r.
  - rewrite (pieces_long hard_max_chars w2 Hh Hlong).
    rewrite removelast_cons_ne by apply pieces_upto_nonempty. cbn [hd_error].
    unfold slice_to. rewrite slice_bound_inside by lia. reflexivity.
Qed.

Lemma long_word_overtakes_buffer_witness :
  _iter_space_chunks 10 [A_; B_; SP; C_; D_; A_; B_; C_] 100 3
  = ([[C_; D_; A_]; [A_; B_]; [B_; C_]], Normal tt).
Proof.
  assert (Hw1 : is_word [A_; B_]) by (split; [discriminate | repeat constructor]).
  assert (Hw2 : is_word [C_; D_; A_; B_; C_])
    by (split; [discriminate | repeat constructor]).
  destruct (long_word_overtakes_buffer 10 [A_; B_] [C_; D_; A_; B_; C_] 100 3 Hw1 Hw2)
    as [H _]; try (cbn; lia).
  exact H.
Defined.

(* ===================================================================== *)
(** * The chunker never raises, and when it returns *)
(* ===================================================================== *)

Lemma slice_from_nonempty (w : str) (hard : Z) :
  w <> [] -> hard < len w -> slice_from w hard <> [].
Proof.
  intros Hne Hlong. apply len_pos_nonempty.
  assert (Hpos : 0 < len w) by (apply truthy_len; now apply truthy_true).
  unfold slice_from, slice_bound, len in *. rewrite length_skipn.
  destruct (hard <? 0) eqn:E; lia.
Qed.

Lemma snoc_cases {A} (l : list A) : l = [] \/ exists pre x, l = pre ++ [x].
Proof.
  destruct l as [|a l]; [now left|]. right.
  destruct (exists_last (l := a :: l)) as (pre & x & ->); [discriminate|]. eauto.
Qed.

(** A buffer of non-empty words stays one through the forced split, which
    therefore never finds [buf] empty. *)
Lemma force_split_keeps_words (hard : Z) : forall fuel pre w cur,
  Forall (fun x : str => x <> []) (pre ++ [w]) ->
  match ending (force_split fuel hard (pre ++ [w]) cur) with
  | Normal st => Forall (fun x : str => x <> []) (fst st)
  | Raise _ => False
  | Spin => True
  end.
Proof.
  induction fuel as [|fuel IH]; intros pre w cur Hall; [exact I|].
  cbn [force_split]. rewrite last_item_snoc.
  destruct (len w >? hard) eqn:E; [|exact Hall].
  apply Z.gtb_lt in E. rewrite removelast_last, bind_ending. cbn [yield ending snd].
  apply Forall_app in Hall. destruct Hall as [Hpre Hw].
  inversion Hw as [|? ? Hne _]; subst.
  pose proof (slice_from_nonempty w hard Hne E) as Hrest.
  pose proof Hrest as Ht. apply truthy_true in Ht. rewrite Ht.
  apply IH. apply Forall_app. split; [assumption | now constructor].
Qed.

Lemma chunk_step_keeps_words (fuel : nat) (max hard : Z) (p : str) (buf : list str)
  (cur : Z) :
  Forall (fun x : str => x <> []) buf ->
  match ending (chunk_step fuel max hard p (buf, cur)) with
  | Normal st => Forall (fun x : str => x <> []) (fst st)
  | Raise _ => False
  | Spin => True
  end.
Proof.
  intros Hbuf. unfold chunk_step. destruct (truthy p) eqn:Ep; cbn [negb]; [|exact Hbuf].
  apply truthy_true in Ep.
  assert (Hadd : exists ys pre c,
            add_word max p (buf, cur) = (ys, Normal (pre ++ [p], c))
            /\ Forall (fun x : str => x <> []) (pre ++ [p])).
  { unfold add_word.
    destruct ((cur + ((if truthy buf then 1 else 0) + len p) >? max) && truthy buf).
    - exists [join_space buf], [], (len p). split; [reflexivity|]. now constructor.
    - exists [], buf, (cur + ((if truthy buf then 1 else 0) + len p)).
      split; [reflexivity|]. apply Forall_app. split; [assumption | now constructor]. }
  destruct Hadd as (ys & pre & c & -> & Hall).
  rewrite bind_ending. cbn [ending snd fst]. rewrite bind_ending.
  pose proof (force_split_keeps_words hard fuel pre p c Hall) as Hfs.
  destruct (ending (force_split fuel hard (pre ++ [p]) c)) as [[buf2 cur2]| |];
    [|contradiction|exact I].
  cbn [fst] in Hfs. unfold failsafe.
  destruct (cur2 >? hard); [|exact Hfs].
  destruct (truthy (failsafe_out hard 0 0 buf2)); [|exact Hfs].
  cbn [ending snd fst].
  rewrite <- (firstn_skipn (length (failsafe_out hard 0 0 buf2)) buf2) in Hfs.
  now apply Forall_app in Hfs.
Qed.

Lemma chunk_loop_never_raises (fuel : nat) (max hard : Z) (parts : list str) :
  forall buf cur e,
    Forall (fun x : str => x <> []) buf ->
    ending (chunk_loop fuel max hard parts (buf, cur)) <> Raise e.
Proof.
  induction parts as [|p parts IH]; intros buf cur e Hbuf; [discriminate|].
  cbn [chunk_loop]. rewrite bind_ending.
  pose proof (chunk_step_keeps_words fuel max hard p buf cur Hbuf) as Hstep.
  destruct (ending (chunk_step fuel max hard p (buf, cur))) as [[buf' cur']| |];
    [now apply IH | contradiction | discriminate].
Qed.

(** X6: the chunker never raises: [buf[-1]] and the slices of the forced
    split are always defined, for every text and all limits, also negative
    ones; it returns or it runs for ever. *)
Theorem chunker_never_raises (fuel : nat) (text : str) (max_chars hard_max_chars : Z)
  (e : exn) :
  ending (_iter_space_chunks fuel text max_chars hard_max_chars) <> Raise e.
Proof.
  unfold _iter_space_chunks. destruct (negb (truthy text)); [discriminate|].
  rewrite bind_ending.
  pose proof (chunk_loop_never_raises fuel max_chars hard_max_chars
                (_SPACE_SPLIT_split (strip text)) [] 0 e (Forall_nil _)) as H.
  destruct (ending (chunk_loop fuel max_chars hard_max_chars
                      (_SPACE_SPLIT_split (strip text)) ([], 0))) as [st| |];
    [|intros Heq; apply H; congruence|discriminate].
  destruct (truthy (fst st)); discriminate.
Qed.

(** With [hard_max_chars <= 0] the forced split of a non-empty word never
    ends. *)
Lemma force_split_spins (hard : Z) : hard <= 0 -> forall fuel pre w cur,
  w <> [] -> ending (force_split fuel hard (pre ++ [w]) cur) = Spin.
Proof.
  intros Hh. induction fuel as [|fuel IH]; intros pre w cur Hne; [reflexivity|].
  cbn [force_split]. rewrite last_item_snoc.
  assert (Hlong : hard < len w).
  { assert (0 < len w) by (apply truthy_len; now apply truthy_true). lia. }
  destruct (Z.gtb_spec (len w) hard); [|lia].
  rewrite removelast_last, bind_ending. cbn [yield ending snd].
  pose proof (slice_from_nonempty w hard Hne Hlong) as Hrest.
  pose proof Hrest as Ht. apply truthy_true in Ht. rewrite Ht.
  now apply IH.
Qed.

Lemma chunk_loop_spins (fuel : nat) (max hard : Z) : hard <= 0 ->
  forall parts st,
    filter truthy parts <> [] ->
    ending (chunk_loop fuel max hard parts st) = Spin.
Proof.
  intros Hh. induction parts as [|p parts IH]; intros [buf cur] Hne; [now cbn in Hne|].
  cbn [chunk_loop filter] in *. rewrite bind_ending. unfold chunk_step.
  destruct (truthy p) eqn:Ep; cbn [negb].
  - apply truthy_true in Ep. rewrite bind_ending.
    assert (Hadd : exists ys pre c,
              add_word max p (buf, cur) = (ys, Normal (pre ++ [p], c))).
    { unfold add_word.
      destruct ((cur + ((if truthy buf then 1 else 0) + len p) >? max) && truthy buf).
      - now exists [join_space buf], [], (len p).
      - now exists [], buf, (cur + ((if truthy buf then 1 else 0) + len p)). }
    destruct Hadd as (ys & pre & c & ->). cbn [ending snd fst].
    rewrite bind_ending. now rewrite force_split_spins.
  - cbn [ret ending snd]. now apply IH.
Qed.

(** X7: when the chunker returns: it returns, given fuel, exactly when
    [hard_max_chars] is positive or the text has no word; for
    [hard_max_chars <= 0] and a text with a word it runs for ever. *)
Theorem chunker_returns_iff (text : str) (max_chars hard_max_chars : Z) :
  (exists fuel, ending (_iter_space_chunks fuel text max_chars hard_max_chars) = Normal tt)
  <-> (0 < hard_max_chars \/ words text = []).
Proof.
  split.
  - intros [fuel Hret].
    destruct (Z_lt_le_dec 0 hard_max_chars) as [|Hh]; [now left|]. right.
    destruct (words text) as [|w ws] eqn:Ew; [reflexivity|]. exfalso.
    rewrite chunker_by_words, bind_ending in Hret.
    rewrite chunk_loop_spins in Hret; [discriminate | assumption |].
    rewrite Ew. unfold words.
    pose proof (words_is_word text) as Hw. rewrite Ew in Hw.
    assert (Hid : filter truthy (w :: ws) = w :: ws).
    { apply forallb_filter_id. apply forallb_forall. intros x Hx.
      rewrite Forall_forall in Hw. destruct (Hw x Hx) as [Hne _].
      now apply truthy_true. }
    rewrite Hid. discriminate.
  - intros [Hh | Hw].
    + exists (S (length text)).
      destruct (chunker_tidy_groups max_chars hard_max_chars Hh (S (length text)) text)
        as (gs & Hrun & _); [lia|].
      now rewrite Hrun.
    + exists O. now rewrite chunker_no_words.
Qed.

(* ===================================================================== *)
(** * Further properties of the normalizer *)
(* ===================================================================== *)

Lemma noise_is_not_space (c : codepoint) :
  is_space c = true -> existsb (N.eqb c) NOISE_CHARS = false.
Proof.
  intros Hc. destruct (existsb (N.eqb c) NOISE_CHARS) eqn:E; [|reflexivity].
  apply existsb_exists in E. destruct E as (n & Hin & Heq).
  apply N.eqb_eq in Heq. subst n. cbn in Hin.
  repeat (destruct Hin as [<- | Hin]; [discriminate Hc|]). contradiction.
Qed.

Lemma translate_delete_snoc (chars : list codepoint) (s : str) (c : codepoint) :
  translate_delete chars (s ++ [c])
  = translate_delete chars s ++ (if existsb (N.eqb c) chars then [] else [c]).
Proof.
  unfold translate_delete. rewrite filter_app. cbn [filter].
  now destruct (existsb (N.eqb c) chars).
Qed.

(** Deleting noise characters keeps the word boundaries: the words of the
    result are the words of the text, each with its noise deleted, those
    left empty dropped. *)
Lemma words_from_delete (s : str) : forall cur,
  words_from (translate_delete NOISE_CHARS cur) (translate_delete NOISE_CHARS s)
  = filter truthy (map (translate_delete NOISE_CHARS) (words_from cur s)).
Proof.
  induction s as [|c s IH]; intros cur.
  - cbn [translate_delete filter words_from].
    fold (translate_delete NOISE_CHARS cur).
    destruct cur as [|x cur]; [reflexivity|]. cbn [truthy map filter].
    now destruct (truthy (translate_delete NOISE_CHARS (x :: cur))).
  - rewrite words_from_cons. destruct (is_space c) eqn:Ec.
    + assert (Hkeep : translate_delete NOISE_CHARS (c :: s)
                      = c :: translate_delete NOISE_CHARS s).
      { unfold translate_delete. cbn [filter]. now rewrite noise_is_not_space. }
      rewrite Hkeep, words_from_cons, Ec.
      change (@nil N) with (translate_delete NOISE_CHARS []) at 1 2.
      rewrite IH.
      destruct cur as [|x cur].
      * reflexivity.
      * cbn [truthy map filter].
        now destruct (truthy (translate_delete NOISE_CHARS (x :: cur))).
    + rewrite <- IH, translate_delete_snoc.
      unfold translate_delete at 2. cbn [filter].
      fold (translate_delete NOISE_CHARS s).
      destruct (existsb (N.eqb c) NOISE_CHARS); cbn [negb].
      * now rewrite app_nil_r.
      * now rewrite words_from_cons, Ec.
Qed.

(** X8: the normalized text holds none of the noise characters, whatever
    NFKC produced, and deleting them moves no word boundary: its words are
    the words of the NFKC text with their noise characters deleted, the
    words left empty dropped. *)
Theorem clean_text_keeps_word_boundaries (_nfkc : str -> str) (text : str) :
  Forall (fun c => ~ In c NOISE_CHARS) (_clean_text _nfkc text)
  /\ words (_clean_text _nfkc text)
     = filter truthy (map (translate_delete NOISE_CHARS) (words (_nfkc text))).
Proof.
  unfold _clean_text. cbn [truthy NOISE_CHARS]. fold NOISE_CHARS. split.
  - apply Forall_forall. intros c Hc. unfold translate_delete in Hc.
    apply filter_In in Hc. destruct Hc as [_ Hc]. apply negb_true_iff in Hc.
    intros Hin. assert (existsb (N.eqb c) NOISE_CHARS = true); [|congruence].
    apply existsb_exists. exists c. split; [assumption | apply N.eqb_refl].
  - rewrite !words_words_from. apply (words_from_delete (_nfkc text) []).
Qed.

(* ===================================================================== *)
(** * Further properties of the pipeline *)
(* ===================================================================== *)

Lemma keep_token_sound (K NG : pyset) (m : Morpheme) (token : str) :
  keep_token K NG m = Normal (Some token) ->
  exists pos0 rest,
    part_of_speech m = pos0 :: rest
    /\ normalize_baseform m = Normal token
    /\ token <> [] /\ mem token NG = false
    /\ (K = [] \/ In pos0 K).
Proof.
  intros Hk. destruct (part_of_speech m) as [|pos0 rest] eqn:Hpos.
  - unfold keep_token in Hk. rewrite Hpos in Hk. discriminate.
  - destruct (keep_token_tagged K NG m pos0 rest Hpos) as [Hc Hk'].
    rewrite Hk' in Hk. exists pos0, rest. split; [reflexivity|].
    set (cand := if mem pos0 [POS_VERB; POS_ADJECTIVE]
                 then dictionary_form m else surface m) in *.
    destruct (truthy K && negb (mem pos0 K)) eqn:E1; [discriminate|].
    destruct (truthy cand) eqn:E2; [|discriminate].
    destruct (truthy NG && mem cand NG) eqn:E3; [discriminate|].
    cbn in Hk. injection Hk as <-.
    split; [assumption|]. split; [now apply truthy_true|]. split.
    + destruct NG; [reflexivity|]. cbn [truthy andb] in E3. exact E3.
    + destruct K as [|k K]; [now left|]. right. cbn [truthy andb] in E1.
      apply negb_false_iff in E1. now apply mem_In.
Qed.

Lemma scan_morphemes_sound (K NG : pyset) (ms : list Morpheme) : forall toks token,
  In token (fst (scan_morphemes K NG ms toks)) ->
  In token toks \/ exists m, In m ms /\ keep_token K NG m = Normal (Some token).
Proof.
  induction ms as [|m ms IH]; intros toks token Hin; cbn [scan_morphemes] in Hin.
  - now left.
  - destruct (keep_token K NG m) as [[surf|]| |] eqn:Hk; cbn [fst] in Hin.
    + apply IH in Hin. destruct Hin as [Hin | (m' & Hm' & Hk')].
      * apply in_app_or in Hin. destruct Hin as [Hin | [<- | []]]; [now left|].
        right. exists m. split; [now left | assumption].
      * right. exists m'. split; [now right | assumption].
    + apply IH in Hin. destruct Hin as [Hin | (m' & Hm' & Hk')]; [now left|].
      right. exists m'. split; [now right | assumption].
    + now left.
    + now left.
Qed.

(** X9: every token the pipeline returns is non-empty, is not an NG word,
    and is the candidate token of a morpheme that the analyzer returned for
    one of the chunks and whose primary tag is allowed (or the allow-list is
    empty). *)
Theorem every_token_is_accepted
  (_nfkc : str -> str) (_TOK : option Tokenizer) (fuel : nat) (text : str)
  (keep_pos ng_words : str_seq_or_bool) (max_chars_per_chunk hard_max_chars : Z)
  (tok : option Tokenizer) (split_mode : option SplitMode)
  (t : Tokenizer) (mode : SplitMode) (toks : list str) :
  match tok with None => _TOK | Some _ => tok end = Some t ->
  match split_mode with None => _SPLIT_MODE | Some _ => split_mode end = Some mode ->
  base_tokenize _nfkc _TOK fuel text keep_pos ng_words
    max_chars_per_chunk hard_max_chars tok split_mode = Normal toks ->
  Forall (fun token : str =>
            token <> []
            /\ mem token (normalize_ng_words ng_words) = false
            /\ exists chunk ms m pos0 rest,
                 In chunk (yielded (_iter_space_chunks fuel (_clean_text _nfkc text)
                                      max_chars_per_chunk hard_max_chars))
                 /\ tokenize t chunk mode = Morphemes ms /\ In m ms
                 /\ part_of_speech m = pos0 :: rest
                 /\ normalize_baseform m = Normal token
                 /\ (normalize_keep_pos keep_pos = []
                     \/ In pos0 (normalize_keep_pos keep_pos)))
         toks.
Proof.
  intros Htok Hmode Hres. unfold base_tokenize in Hres. rewrite Htok, Hmode in Hres.
  destruct (_iter_space_chunks fuel (_clean_text _nfkc text)
              max_chars_per_chunk hard_max_chars) as [chunks ended].
  destruct (analyse_chunks t mode (normalize_keep_pos keep_pos)
              (normalize_ng_words ng_words) chunks []) as [result|e|] eqn:Hrun;
    [|discriminate..].
  apply analyse_chunks_normal in Hrun. cbn [app] in Hrun. subst result.
  destruct ended as [u|e|]; [|discriminate..].
  injection Hres as <-. cbn [yielded fst].
  apply Forall_forall. intros token Hin.
  apply in_flat_map in Hin. destruct Hin as (chunk & Hchunk & Hin).
  destruct chunk as [|c chunk]; [contradiction|].
  destruct (tokenize t (c :: chunk) mode) as [ms|e] eqn:Hms;
    [|rewrite (chunk_tokens_raises _ _ _ _ _ _ Hms) in Hin; contradiction].
  rewrite (chunk_tokens_morphemes _ _ _ _ _ ms) in Hin by (discriminate || assumption).
  apply scan_morphemes_sound in Hin. destruct Hin as [[] | (m & Hm & Hk)].
  apply keep_token_sound in Hk.
  destruct Hk as (pos0 & rest & Hpos & Hcand & Hne & Hng & Hkeep).
  split; [assumption|]. split; [assumption|].
  exists (c :: chunk), ms, m, pos0, rest. auto 10.
Qed.

Lemma every_token_is_accepted_witness :
  Forall (fun token : str =>
            token <> []
            /\ mem token (normalize_ng_words (ArgStr [C_; C_; C_])) = false
            /\ exists chunk ms m pos0 rest,
                 In chunk (yielded (_iter_space_chunks 20
                                      (_clean_text NFKC.nfkc
                                         [A_; A_; A_; SP; B_; B_; B_; SP; C_; C_; C_])
                                      3 3))
                 /\ tokenize noun_tok chunk ModeC = Morphemes ms /\ In m ms
                 /\ part_of_speech m = pos0 :: rest
                 /\ normalize_baseform m = Normal token
                 /\ (normalize_keep_pos (ArgBool true) = []
                     \/ In pos0 (normalize_keep_pos (ArgBool true))))
         [[A_; A_; A_]].
Proof.
  apply (every_token_is_accepted NFKC.nfkc None 20
           [A_; A_; A_; SP; B_; B_; B_; SP; C_; C_; C_]
           (ArgBool true) (ArgStr [C_; C_; C_]) 3 3 (Some noun_tok) None
           noun_tok ModeC [[A_; A_; A_]]); reflexivity.
Defined.

Lemma scan_stops_at_faulty (K NG : pyset) (faulty : Morpheme) (after : list Morpheme) :
  part_of_speech faulty = [] ->
  forall before toks,
    fst (scan_morphemes K NG (before ++ faulty :: after) toks)
    = fst (scan_morphemes K NG before toks).
Proof.
  intros Hfaulty. induction before as [|m ms IH]; intros toks; cbn [app scan_morphemes].
  - unfold keep_token. now rewrite Hfaulty.
  - destruct (keep_token K NG m) as [[surf|]| |]; [apply IH | apply IH | reflexivity..].
Qed.

(** X10: an exception while the morphemes of a chunk are read (a morpheme
    without part-of-speech tags, on which [part_of_speech()[0]] raises) is
    swallowed with the rest of the chunk: the tokens the chunk had already
    added stay, the morphemes after the faulty one add nothing. *)
Theorem exception_cuts_chunk_short (t : Tokenizer) (mode : SplitMode)
  (_keep_pos _ng_words : pyset) (chunk : str)
  (before : list Morpheme) (faulty : Morpheme) (after : list Morpheme) :
  chunk <> [] ->
  tokenize t chunk mode = Morphemes (before ++ faulty :: after) ->
  Forall (fun m => part_of_speech m <> []) before ->
  part_of_speech faulty = [] ->
  chunk_tokens t mode _keep_pos _ng_words chunk
  = flat_map (kept _keep_pos _ng_words) before.
Proof.
  intros Hne Hms Htagged Hfaulty.
  rewrite (chunk_tokens_morphemes _ _ _ _ _ _ Hne Hms).
  rewrite scan_stops_at_faulty by assumption.
  now apply scan_tagged_morphemes.
Qed.

Lemma exception_cuts_chunk_short_witness :
  chunk_tokens faulty_tok ModeC DEFAULT_KEEP_POS [] [A_; B_] = [[A_; B_]].
Proof.
  apply (exception_cuts_chunk_short faulty_tok ModeC DEFAULT_KEEP_POS [] [A_; B_]
           [ {| surface := [A_; B_]; dictionary_form := [A_; B_];
                part_of_speech := [POS_NOUN; POS_GENERAL] |} ]
           {| surface := [A_; B_]; dictionary_form := [A_; B_]; part_of_speech := [] |}
           [ {| surface := [A_; B_]; dictionary_form := [A_; B_];
                part_of_speech := [POS_NOUN; POS_GENERAL] |} ]).
  - discriminate.
  - reflexivity.
  - constructor; [discriminate | constructor].
  - reflexivity.
Defined.

Lemma tidy_chunks_nonempty (max hard : Z) (gs : list (list str)) :
  Forall (fun g => g <> [] /\ tidy max hard g) gs ->
  Forall (fun c : str => c <> []) (map join_space gs).
Proof.
  intros Hgs. apply Forall_map. revert Hgs. apply Forall_impl.
  intros g (Hne & Hw & _).
  apply join_space_nonempty; [now apply is_word_nonempty | assumption].
Qed.

(** X11: given an analyzer and [1 <= hard_max_chars], the pipeline
    terminates for every text and any [max_chars], in one of two ways.  When
    no call of the analyzer on a chunk raises outside [Exception], it
    returns a list of tokens, whatever the analyzer returned or raised.
    Otherwise it raises the exception of the first such call: an exception
    that is not an [Exception] ([KeyboardInterrupt], [SystemExit], a
    [PanicException]) is not caught and the tokens gathered so far are
    lost. *)
Theorem pipeline_returns_or_propagates
  (_nfkc : str -> str) (_TOK : option Tokenizer) (fuel : nat) (text : str)
  (keep_pos ng_words : str_seq_or_bool) (max_chars_per_chunk hard_max_chars : Z)
  (tok : option Tokenizer) (split_mode : option SplitMode)
  (t : Tokenizer) (mode : SplitMode) :
  match tok with None => _TOK | Some _ => tok end = Some t ->
  match split_mode with None => _SPLIT_MODE | Some _ => split_mode end = Some mode ->
  0 < hard_max_chars ->
  (length (_clean_text _nfkc text) < fuel)%nat ->
  ((forall c e,
      In c (yielded (_iter_space_chunks fuel (_clean_text _nfkc text)
                       max_chars_per_chunk hard_max_chars)) ->
      tokenize t c mode = Raises e -> isinstance_Exception e = true)
   /\ exists toks,
        base_tokenize _nfkc _TOK fuel text keep_pos ng_words
          max_chars_per_chunk hard_max_chars tok split_mode = Normal toks)
  \/ (exists before c after e,
        yielded (_iter_space_chunks fuel (_clean_text _nfkc text)
                   max_chars_per_chunk hard_max_chars)
        = before ++ c :: after
        /\ (forall c' e', In c' before -> tokenize t c' mode = Raises e' ->
                          isinstance_Exception e' = true)
        /\ tokenize t c mode = Raises e
        /\ isinstance_Exception e = false
        /\ base_tokenize _nfkc _TOK fuel text keep_pos ng_words
             max_chars_per_chunk hard_max_chars tok split_mode = Raise e).
Proof.
  intros Htok Hmode Hh Hfuel. unfold base_tokenize. rewrite Htok, Hmode.
  destruct (chunker_tidy_groups max_chars_per_chunk hard_max_chars Hh fuel
              (_clean_text _nfkc text) Hfuel) as (gs & Hrun & Hgs & _).
  rewrite Hrun. cbn [yielded fst].
  pose proof (tidy_chunks_nonempty _ _ _ Hgs) as Hne.
  rewrite Forall_forall in Hne.
  destruct (analyse_chunks_cases t mode (normalize_keep_pos keep_pos)
              (normalize_ng_words ng_words) (map join_space gs) [])
    as [[Hres Hall] | (before & c & after & e & Hsplit & Hbefore & _ & He & Hcls & Hres)];
    rewrite Hres.
  - left. split; [|eexists; reflexivity].
    intros c e Hin. apply Hall; [assumption | now apply Hne].
  - right. exists before, c, after, e. split; [assumption|]. split.
    + intros c' e' Hin. apply Hbefore; [assumption|].
      apply Hne. rewrite Hsplit. apply in_or_app. now left.
    + auto.
Qed.

Lemma pipeline_returns_or_propagates_witness :
  ((forall c e,
      In c (yielded (_iter_space_chunks 20
                       (_clean_text NFKC.nfkc
                          [A_; A_; A_; A_; SP; B_; B_; B_; SP; C_]) 100 3)) ->
      tokenize interrupted_tok c ModeC = Raises e -> isinstance_Exception e = true)
   /\ exists toks,
        base_tokenize NFKC.nfkc None 20 [A_; A_; A_; A_; SP; B_; B_; B_; SP; C_]
          (ArgBool true) (ArgBool false) 100 3 (Some interrupted_tok) None
        = Normal toks)
  \/ (exists before c after e,
        yielded (_iter_space_chunks 20
                   (_clean_text NFKC.nfkc
                      [A_; A_; A_; A_; SP; B_; B_; B_; SP; C_]) 100 3)
        = before ++ c :: after
        /\ (forall c' e', In c' before ->
                          tokenize interrupted_tok c' ModeC = Raises e' ->
                          isinstance_Exception e' = true)
        /\ tokenize interrupted_tok c ModeC = Raises e
        /\ isinstance_Exception e = false
        /\ base_tokenize NFKC.nfkc None 20 [A_; A_; A_; A_; SP; B_; B_; B_; SP; C_]
             (ArgBool true) (ArgBool false) 100 3 (Some interrupted_tok) None
           = Raise e).
Proof.
  apply (pipeline_returns_or_propagates NFKC.nfkc None 20
           [A_; A_; A_; A_; SP; B_; B_; B_; SP; C_]
           (ArgBool true) (ArgBool false) 100 3 (Some interrupted_tok) None
           interrupted_tok ModeC).
  - reflexivity.
  - reflexivity.
  - lia.
  - cbn. lia.
Defined.

(* ===================================================================== *)
(** * The pipeline and a failing analyzer *)
(* ===================================================================== *)

Lemma chunker_spins (fuel : nat) (text : str) (max hard : Z) :
  hard <= 0 -> words text <> [] ->
  ending (_iter_space_chunks fuel text max hard) = Spin.
Proof.
  intros Hh Hw. rewrite chunker_by_words, bind_ending.
  rewrite chunk_loop_spins; [reflexivity | assumption |].
  assert (Hid : filter truthy (words text) = words text).
  { apply forallb_filter_id. apply forallb_forall. intros x Hx.
    pose proof (words_is_word text) as Hall. rewrite Forall_forall in Hall.
    destruct (Hall x Hx) as [Hne _]. now apply truthy_true. }
  now rewrite Hid.
Qed.

Lemma noun_tok_raises (c : str) (e : exn) :
  tokenize noun_tok c ModeC = Raises e -> isinstance_Exception e = true.
Proof.
  cbn [tokenize noun_tok]. destruct (str_eqb c [B_; B_; B_]); [|discriminate].
  intros H. injection H as <-. reflexivity.
Qed.

(** C3, as stated, fails in two ways.  An exception of the analyzer that is
    not an [Exception] is not caught: with the chunks "aaa", "bbb", "ccc"
    and an analyzer interrupted from the keyboard on "bbb", the pipeline
    raises [KeyboardInterrupt] and returns nothing.  And the pipeline need
    not return at all: with [hard_max_chars = -1] the chunker yields "bbb"
    from the text "bbbb", the analyzer fails on it, and the chunker then
    yields empty chunks for ever. *)
Lemma failed_chunk_counterexample :
  yielded (_iter_space_chunks 20
             (_clean_text NFKC.nfkc [A_; A_; A_; SP; B_; B_; B_; SP; C_; C_; C_]) 3 3)
  = [[A_; A_; A_]; [B_; B_; B_]; [C_; C_; C_]]
  /\ tokenize interrupted_tok [B_; B_; B_] ModeC = Raises KeyboardInterrupt
  /\ base_tokenize NFKC.nfkc None 20 [A_; A_; A_; SP; B_; B_; B_; SP; C_; C_; C_]
       (ArgBool true) (ArgBool false) 3 3 (Some interrupted_tok) None
     = Raise KeyboardInterrupt
  /\ yielded (_iter_space_chunks 4 (_clean_text NFKC.nfkc [B_; B_; B_; B_]) 3 (-1))
     = [[B_; B_; B_]; []; []; []]
  /\ tokenize noun_tok [B_; B_; B_] ModeC = Raises AnalyzerError
  /\ (forall fuel,
        base_tokenize NFKC.nfkc None fuel [B_; B_; B_; B_]
          (ArgBool true) (ArgBool false) 3 (-1) (Some noun_tok) None
        = Spin).
Proof.
  split; [reflexivity|]. split; [reflexivity|]. split; [reflexivity|].
  split; [reflexivity|]. split; [reflexivity|].
  intros fuel. unfold base_tokenize. cbn [_SPLIT_MODE].
  change (_clean_text NFKC.nfkc [B_; B_; B_; B_]) with [B_; B_; B_; B_].
  pose proof (chunker_spins fuel [B_; B_; B_; B_] 3 (-1)) as Hspin.
  destruct (_iter_space_chunks fuel [B_; B_; B_; B_] 3 (-1)) as [chunks ended].
  cbn [ending snd] in Hspin.
  rewrite analyse_chunks_caught by (intros c e _; apply noun_tok_raises).
  rewrite Hspin; [reflexivity | lia | discriminate].
Qed.

(** C3, amended: given an analyzer and [1 <= hard_max_chars], if every
    exception the analyzer raises on a chunk is an [Exception], the pipeline
    returns the concatenation, in chunk order, of what each chunk adds; a
    chunk on which the call of the analyzer raises adds nothing, a chunk it
    analyses adds its accepted tokens in the analyzer's order; so with three
    chunks and a failure on the second the result is the tokens of the
    first followed by those of the third. *)
Theorem failed_chunk_is_skipped
  (_nfkc : str -> str) (_TOK : option Tokenizer) (fuel : nat) (text : str)
  (keep_pos ng_words : str_seq_or_bool) (max_chars_per_chunk hard_max_chars : Z)
  (tok : option Tokenizer) (split_mode : option SplitMode)
  (t : Tokenizer) (mode : SplitMode) :
  match tok with None => _TOK | Some _ => tok end = Some t ->
  match split_mode with None => _SPLIT_MODE | Some _ => split_mode end = Some mode ->
  0 < hard_max_chars ->
  (length (_clean_text _nfkc text) < fuel)%nat ->
  (forall c e,
     In c (yielded (_iter_space_chunks fuel (_clean_text _nfkc text)
                      max_chars_per_chunk hard_max_chars)) ->
     tokenize t c mode = Raises e -> isinstance_Exception e = true) ->
  ending (_iter_space_chunks fuel (_clean_text _nfkc text)
            max_chars_per_chunk hard_max_chars) = Normal tt
  /\ base_tokenize _nfkc _TOK fuel text keep_pos ng_words
       max_chars_per_chunk hard_max_chars tok split_mode
     = Normal (flat_map (chunk_tokens t mode (normalize_keep_pos keep_pos)
                           (normalize_ng_words ng_words))
                 (yielded (_iter_space_chunks fuel (_clean_text _nfkc text)
                             max_chars_per_chunk hard_max_chars)))
  /\ (forall c e, tokenize t c mode = Raises e ->
        chunk_tokens t mode (normalize_keep_pos keep_pos)
          (normalize_ng_words ng_words) c = [])
  /\ (forall c ms, c <> [] -> tokenize t c mode = Morphemes ms ->
        Forall (fun mo => part_of_speech mo <> []) ms ->
        chunk_tokens t mode (normalize_keep_pos keep_pos)
          (normalize_ng_words ng_words) c
        = flat_map (kept (normalize_keep_pos keep_pos)
                      (normalize_ng_words ng_words)) ms)
  /\ (forall c1 c2 c3 e,
        yielded (_iter_space_chunks fuel (_clean_text _nfkc text)
                   max_chars_per_chunk hard_max_chars) = [c1; c2; c3] ->
        tokenize t c2 mode = Raises e ->
        base_tokenize _nfkc _TOK fuel text keep_pos ng_words
          max_chars_per_chunk hard_max_chars tok split_mode
        = Normal (chunk_tokens t mode (normalize_keep_pos keep_pos)
                    (normalize_ng_words ng_words) c1
                  ++ chunk_tokens t mode (normalize_keep_pos keep_pos)
                       (normalize_ng_words ng_words) c3)).
Proof.
  intros Htok Hmode Hh Hfuel Hcaught.
  set (K := normalize_keep_pos keep_pos). set (NG := normalize_ng_words ng_words).
  destruct (chunker_tidy_groups max_chars_per_chunk hard_max_chars Hh fuel
              (_clean_text _nfkc text) Hfuel) as (gs & Hrun & _).
  assert (Hres : base_tokenize _nfkc _TOK fuel text keep_pos ng_words
                   max_chars_per_chunk hard_max_chars tok split_mode
                 = Normal (flat_map (chunk_tokens t mode K NG)
                             (yielded (_iter_space_chunks fuel (_clean_text _nfkc text)
                                         max_chars_per_chunk hard_max_chars)))).
  { unfold base_tokenize. rewrite Htok, Hmode. rewrite Hrun in *.
    cbn [yielded fst] in *. fold K NG.
    now rewrite (analyse_chunks_caught t mode K NG _ [] Hcaught). }
  assert (Hfail : forall c e, tokenize t c mode = Raises e ->
                              chunk_tokens t mode K NG c = []).
  { intros c e. apply chunk_tokens_raises. }
  split; [now rewrite Hrun|]. split; [exact Hres|]. split; [exact Hfail|]. split.
  - intros c ms Hne Hc Htags.
    rewrite (chunk_tokens_morphemes t mode K NG c ms Hne Hc).
    now apply scan_tagged_morphemes.
  - intros c1 c2 c3 e Hchunks Hc2. rewrite Hres, Hchunks. cbn [flat_map].
    rewrite (Hfail c2 e Hc2). now rewrite app_nil_r.
Qed.

Lemma failed_chunk_is_skipped_witness :
  base_tokenize NFKC.nfkc None 20
    [A_; A_; A_; SP; B_; B_; B_; SP; C_; C_; C_]
    (ArgBool true) (ArgBool false) 3 3 (Some noun_tok) None
  = Normal [[A_; A_; A_]; [C_; C_; C_]].
Proof.
  destruct (failed_chunk_is_skipped NFKC.nfkc None 20
              [A_; A_; A_; SP; B_; B_; B_; SP; C_; C_; C_]
              (ArgBool true) (ArgBool false) 3 3 (Some noun_tok) None
              noun_tok ModeC eq_refl eq_refl eq_refl)
    as (_ & _ & _ & _ & H).
  - cbn. lia.
  - intros c e _. apply noun_tok_raises.
  - exact (H [A_; A_; A_] [B_; B_; B_] [C_; C_; C_] AnalyzerError eq_refl eq_refl).
Defined.

(* ===================================================================== *)
(** * Greedy packing under [max_chars <= hard_max_chars] *)
(* ===================================================================== *)

Lemma greedy_cons (max : Z) (g h : list str) (tl : list (list str)) :
  greedy max (g :: h :: tl)
  <-> max < joined_len g + 1 + len (hd [] h) /\ greedy max (h :: tl).
Proof. reflexivity. Qed.

(** The last group may grow: only its first item is looked at. *)
Lemma greedy_change_last (max : Z) (g g' : list str) : hd [] g' = hd [] g ->
  forall l, greedy max (l ++ [g]) -> greedy max (l ++ [g']).
Proof.
  intros Hhd. induction l as [|x l IH]; intros H; [exact I|].
  destruct l as [|y l].
  - cbn [app] in *. apply greedy_cons in H. apply greedy_cons.
    rewrite Hhd. split; [apply H | exact I].
  - cbn [app] in *. apply greedy_cons in H. apply greedy_cons.
    split; [apply H | apply IH, H].
Qed.

Lemma greedy_app (max : Z) (g : list str) (l2 : list (list str)) :
  greedy max (g :: l2) ->
  forall l, greedy max (l ++ [g]) -> greedy max (l ++ g :: l2).
Proof.
  intros H2. induction l as [|x l IH]; intros H; [exact H2|].
  destruct l as [|y l].
  - cbn [app] in *. apply greedy_cons in H. apply greedy_cons.
    split; [apply H | exact H2].
  - cbn [app] in *. apply greedy_cons in H. apply greedy_cons.
    split; [apply H | apply IH, H].
Qed.

(** The pieces of a word, each alone in its group, are packed greedily:
    every piece but the last is full. *)
Lemma greedy_pieces_upto (max hard : Z) : 0 < hard -> max <= hard -> forall n w,
  greedy max (map (fun x => [x]) (pieces_upto n hard w)).
Proof.
  intros Hh Hmax. induction n as [|n IH]; intros w; [exact I|].
  cbn [pieces_upto]. destruct (len w >? hard) eqn:E; [|exact I].
  apply Z.gtb_lt in E. cbn [map]. specialize (IH (slice_from w hard)).
  destruct (pieces_upto n hard (slice_from w hard)) as [|q qs] eqn:Eq.
  - now apply pieces_upto_nonempty in Eq.
  - cbn [map] in *. apply greedy_cons. split; [|exact IH].
    rewrite joined_len_single, len_slice_to by lia.
    cbn [hd]. pose proof (len_nonneg q). lia.
Qed.

Lemma hd_pieces (hard : Z) (p : str) :
  0 < hard ->
  hd [] (pieces hard p) = if len p >? hard then slice_to p hard else p.
Proof.
  intros Hh. destruct (Z.gtb_spec (len p) hard) as [Hl|Hs].
  - now rewrite pieces_long.
  - now rewrite pieces_short.
Qed.

Lemma map_single_pieces (hard : Z) (p : str) :
  map (fun x : str => [x]) (removelast (pieces hard p)) ++ [[last (pieces hard p) []]]
  = map (fun x => [x]) (pieces hard p).
Proof.
  rewrite (pieces_split_last hard p) at 3. now rewrite map_app.
Qed.

Lemma singleton_groups_nonempty (l : list str) :
  Forall (fun g : list str => g <> []) (map (fun x => [x]) l).
Proof. apply Forall_map, Forall_forall. intros x _. discriminate. Qed.

Section GreedyChunker.

Variables max hard : Z.
Hypothesis hard_pos : 0 < hard.
Hypothesis max_le_hard : max <= hard.

(** One word through the loop body, with the groups before it: the groups
    yielded so far, closed by the buffer, stay greedily packed. *)
Lemma chunk_step_greedy (fuel : nat) (p : str) (buf : list str)
  (before : list (list str)) :
  Forall is_word buf -> joined_len buf <= hard ->
  (buf = [] -> before = []) -> greedy max (before ++ [buf]) ->
  is_word p -> (length p < fuel)%nat ->
  exists gs buf',
    chunk_step fuel max hard p (buf, joined_len buf)
    = (map join_space gs, Normal (buf', joined_len buf'))
    /\ Forall is_word buf' /\ joined_len buf' <= hard /\ buf' <> []
    /\ Forall (Forall is_word) gs
    /\ Forall (fun g => g <> []) gs
    /\ greedy max ((before ++ gs) ++ [buf']).
Proof.
  intros Hbw Hbh Hempty Hgreedy Hp Hfuel.
  destruct (pieces_parts_bounded hard p hard_pos Hp) as [Hinit Hlast].
  destruct (pieces_parts_words hard p hard_pos Hp) as [Hinitw Hlastw].
  assert (Hsw : Forall (Forall is_word)
                  (map (fun x : str => [x]) (removelast (pieces hard p)))).
  { apply Forall_map. revert Hinitw. apply Forall_impl. intros x Hx. now constructor. }
  pose proof (singleton_groups_nonempty (removelast (pieces hard p))) as Hsn.
  pose proof (greedy_pieces_upto max hard hard_pos max_le_hard (length p) p) as Hgp.
  fold (pieces hard p) in Hgp.
  pose proof Hp as [Hne _]. apply truthy_true in Hne.
  unfold chunk_step, add_word. rewrite Hne. cbn [negb].
  pose proof (force_split_spec hard [] hard_pos fuel p Hfuel) as push.
  cbn [app] in push. rewrite joined_len_single in push.
  destruct ((joined_len buf + ((if truthy buf then 1 else 0) + len p) >? max)
            && truthy buf) eqn:E.
  - (* flushed *)
    apply andb_prop in E. destruct E as [Hover Hb].
    rewrite Hb in Hover. apply Z.gtb_lt in Hover. apply truthy_true in Hb.
    exists (buf :: map (fun x => [x]) (removelast (pieces hard p))),
           [last (pieces hard p) []].
    rewrite yield_then_ret, bind_normal. cbn [fst snd].
    rewrite push, bind_normal.
    rewrite failsafe_idle by (now rewrite joined_len_single).
    cbn [fst snd ret map]. rewrite map_join_singletons, app_nil_r.
    split; [reflexivity|]. split; [now constructor|].
    split; [now rewrite joined_len_single|]. split; [discriminate|].
    split; [now constructor|]. split; [now constructor|].
    rewrite <- app_assoc. cbn [app]. rewrite map_single_pieces.
    apply greedy_app; [|assumption].
    destruct (pieces hard p) as [|q qs] eqn:Eq; [now apply pieces_upto_nonempty in Eq|].
    cbn [map]. apply greedy_cons. split; [|exact Hgp].
    cbn [hd]. pose proof (hd_pieces hard p hard_pos) as Hhd.
    rewrite Eq in Hhd. cbn [hd] in Hhd. rewrite Hhd.
    destruct (Z.gtb_spec (len p) hard).
    + rewrite len_slice_to by lia. pose proof (joined_len_nonneg buf). lia.
    + lia.
  - rewrite bind_ret. cbn [fst snd]. destruct buf as [|b buf].
    + (* the first word *)
      rewrite (Hempty eq_refl).
      exists (map (fun x => [x]) (removelast (pieces hard p))),
             [last (pieces hard p) []].
      cbn [app truthy]. change (joined_len []) with 0.
      replace (0 + (0 + len p)) with (len p) by lia.
      rewrite push, bind_normal.
      rewrite failsafe_idle by (now rewrite joined_len_single).
      cbn [fst snd ret]. rewrite map_join_singletons, app_nil_r.
      split; [reflexivity|]. split; [now constructor|].
      split; [now rewrite joined_len_single|]. split; [discriminate|].
      split; [assumption|]. split; [assumption|].
      now rewrite map_single_pieces.
    + (* appended *)
      cbn [truthy] in E |- *. rewrite andb_true_r in E.
      destruct (Z.gtb_spec (joined_len (b :: buf) + (1 + len p)) max) as [|Hfit];
        [discriminate|].
      assert (Hj : joined_len ((b :: buf) ++ [p]) = joined_len (b :: buf) + (1 + len p))
        by (rewrite joined_len_snoc by discriminate; lia).
      pose proof (joined_len_nonneg (b :: buf)) as Hnn.
      assert (Hshort : len p <= hard) by lia.
      pose proof (force_split_spec hard (b :: buf) hard_pos fuel p Hfuel) as push'.
      rewrite pieces_short in push' by assumption. cbn [removelast last] in push'.
      exists [], ((b :: buf) ++ [p]).
      rewrite <- Hj, push', bind_normal.
      rewrite failsafe_idle by lia.
      cbn [fst snd ret map]. rewrite !app_nil_r.
      split; [reflexivity|].
      split; [apply Forall_app; split; [assumption | now constructor]|].
      split; [lia|]. split; [discriminate|]. split; [constructor|].
      split; [constructor|].
      now apply (greedy_change_last max (b :: buf)).
Qed.

Lemma chunk_loop_greedy (fuel : nat) :
  forall (parts : list str) (buf : list str) (before : list (list str)),
    Forall is_word buf -> joined_len buf <= hard ->
    (buf = [] -> before = []) -> greedy max (before ++ [buf]) ->
    Forall (fun p => space_free p /\ (length p < fuel)%nat) parts ->
    exists gs buf',
      chunk_loop fuel max hard parts (buf, joined_len buf)
      = (map join_space gs, Normal (buf', joined_len buf'))
      /\ Forall is_word buf'
      /\ (buf' = [] -> before ++ gs = [])
      /\ Forall (Forall is_word) gs
      /\ Forall (fun g => g <> []) gs
      /\ greedy max ((before ++ gs) ++ [buf']).
Proof.
  induction parts as [|p parts IH]; intros buf before Hbw Hbh Hempty Hgreedy Hparts.
  - exists [], buf. cbn [chunk_loop ret map]. rewrite !app_nil_r.
    repeat split; auto.
  - inversion Hparts as [|? ? [Hsf Hfuel] Hrest]; subst.
    cbn [chunk_loop]. destruct (truthy p) eqn:Ep.
    + assert (Hp : is_word p) by (split; [now apply truthy_true | assumption]).
      destruct (chunk_step_greedy fuel p buf before Hbw Hbh Hempty Hgreedy Hp Hfuel)
        as (gs1 & buf1 & Hstep & Hbw1 & Hbh1 & Hne1 & Hw1 & Hn1 & Hg1).
      destruct (IH buf1 (before ++ gs1) Hbw1 Hbh1 (fun H => False_ind _ (Hne1 H)) Hg1 Hrest)
        as (gs2 & buf2 & Hloop & Hbw2 & Hempty2 & Hw2 & Hn2 & Hg2).
      exists (gs1 ++ gs2), buf2.
      rewrite Hstep, bind_normal, Hloop. cbn [fst snd].
      rewrite map_app, !app_assoc. split; [reflexivity|]. split; [assumption|].
      split; [assumption|].
      split; [apply Forall_app; now split|].
      split; [apply Forall_app; now split | assumption].
    + unfold chunk_step. rewrite Ep. cbn [negb]. rewrite bind_ret.
      now apply IH.
Qed.

Lemma chunker_greedy_groups (fuel : nat) (text : str) :
  (length text < fuel)%nat ->
  exists gs,
    _iter_space_chunks fuel text max hard = (map join_space gs, Normal tt)
    /\ Forall (Forall is_word) gs /\ Forall (fun g => g <> []) gs
    /\ greedy max gs.
Proof.
  intros Hfuel. unfold _iter_space_chunks.
  destruct (truthy text) eqn:Et; cbn [negb].
  2:{ exists []. cbn. auto. }
  assert (Hparts : Forall (fun p => space_free p /\ (length p < fuel)%nat)
                          (_SPACE_SPLIT_split (strip text))).
  { unfold _SPACE_SPLIT_split. apply Forall_forall. intros p Hin. split.
    - pose proof (split_parts_space_free (strip text) false [] (Forall_nil _)) as H.
      rewrite Forall_forall in H. now apply H.
    - pose proof (split_parts_length (strip text) false []) as H.
      rewrite Forall_forall in H. apply H in Hin. cbn [length] in Hin.
      pose proof (strip_length text). lia. }
  assert (H0 : joined_len [] <= hard)
    by (change (joined_len []) with 0; pose proof hard_pos; lia).
  destruct (chunk_loop_greedy fuel _ [] [] (Forall_nil _) H0 (fun _ => eq_refl) I Hparts)
    as (gs & buf & Hloop & Hbw & Hempty & Hw & Hn & Hg).
  change (joined_len []) with 0 in Hloop. rewrite Hloop, bind_normal.
  cbn [fst snd app] in *.
  destruct buf as [|b buf]; cbn [truthy].
  - rewrite (Hempty eq_refl). exists []. cbn. auto.
  - exists (gs ++ [b :: buf]). cbn [yield fst snd]. rewrite map_app. cbn [map].
    split; [reflexivity|].
    split; [apply Forall_app; split; [assumption | now constructor]|].
    split; [|assumption].
    apply Forall_app. split; [assumption|]. constructor; [discriminate | constructor].
Qed.

End GreedyChunker.

Lemma packed_of_greedy (max : Z) (gs : list (list str)) :
  Forall (Forall is_word) gs -> Forall (fun g => g <> []) gs ->
  greedy max gs -> packed max (map join_space gs).
Proof.
  induction gs as [|g gs IH]; intros Hw Hn Hg; [exact I|].
  destruct gs as [|h gs]; [exact I|].
  inversion Hw as [|? ? Hwg Hw']; inversion Hn as [|? ? Hng Hn']; subst.
  apply greedy_cons in Hg. destruct Hg as [Hpair Hg].
  cbn [map packed]. split.
  - rewrite len_join_space by assumption.
    inversion Hw' as [|? ? Hwh _]; subst. now rewrite words_join_space.
  - now apply IH.
Qed.

(** X12: greedy packing: for [1 <= hard_max_chars] and
    [max_chars <= hard_max_chars], a chunk is closed only when the next
    item does not fit: each chunk, a space and the first word of the chunk
    after it are together longer than [max_chars]. *)
Theorem chunks_are_packed_greedily (fuel : nat) (text : str)
  (max_chars hard_max_chars : Z) :
  0 < hard_max_chars -> max_chars <= hard_max_chars ->
  (length text < fuel)%nat ->
  packed max_chars (yielded (_iter_space_chunks fuel text max_chars hard_max_chars)).
Proof.
  intros Hh Hmax Hfuel.
  destruct (chunker_greedy_groups max_chars hard_max_chars Hh Hmax fuel text Hfuel)
    as (gs & Hrun & Hw & Hn & Hg).
  rewrite Hrun. cbn [yielded fst]. now apply packed_of_greedy.
Qed.

Lemma chunks_are_packed_greedily_witness :
  packed 5 (yielded (_iter_space_chunks 20
                       [A_; B_; SP; C_; SP; D_; A_; B_; SP; C_; D_; A_; B_; C_; D_; A_] 5 6)).
Proof.
  apply (chunks_are_packed_greedily 20
           [A_; B_; SP; C_; SP; D_; A_; B_; SP; C_; D_; A_; B_; C_; D_; A_] 5 6).
  - lia.
  - lia.
  - cbn. lia.
Defined.

(* ===================================================================== *)
(** * The collector: [clean_text] *)
(* ===================================================================== *)

Import Collect.

Lemma starts_with_nil (s : str) : starts_with [] s = true.
Proof. reflexivity. Qed.

Lemma starts_with_cons (a x : codepoint) (p t : str) :
  starts_with (a :: p) (x :: t) = ((x =? a)%N && starts_with p t).
Proof.
  unfold starts_with. cbn [length firstn].
  destruct (N.eqb_spec x a) as [->|Hne]; cbn [andb].
  - destruct (str_eqb (firstn (length p) t) p) eqn:E.
    + apply str_eqb_eq in E. apply str_eqb_eq. now rewrite E.
    + destruct (str_eqb (a :: firstn (length p) t) (a :: p)) eqn:E'; [|reflexivity].
      apply str_eqb_eq in E'. injection E' as E'. apply str_eqb_eq in E'. congruence.
  - destruct (str_eqb (x :: firstn (length p) t) (a :: p)) eqn:E'; [|reflexivity].
    apply str_eqb_eq in E'. congruence.
Qed.

Lemma starts_with_empty (a : codepoint) (p : str) : starts_with (a :: p) [] = false.
Proof.
  unfold starts_with. destruct (str_eqb (firstn (length (a :: p)) []) (a :: p)) eqn:E;
    [|reflexivity].
  apply str_eqb_eq in E. now rewrite firstn_nil in E.
Qed.

Lemma starts_with_split (p s : str) :
  starts_with p s = true -> s = p ++ skipn (length p) s.
Proof.
  unfold starts_with. intros H. apply str_eqb_eq in H.
  rewrite <- H at 1. symmetry. apply firstn_skipn.
Qed.

(** Replacing a single character. *)
Lemma replace_single (a : codepoint) (new s : str) :
  str_replace s [a] new = flat_map (fun c => if (c =? a)%N then new else [c]) s.
Proof.
  unfold str_replace. induction s as [|c s IH]; [reflexivity|].
  cbn [replace_from flat_map length Nat.pred].
  rewrite starts_with_cons, starts_with_nil, andb_true_r.
  destruct (c =? a)%N; cbn [app]; now rewrite IH.
Qed.

Lemma mark_both (text : str) :
  str_replace (str_replace text LINE_FEED NL_MARK) IDEOGRAPHIC_SPACE NL_MARK
  = flat_map marked text.
Proof.
  unfold LINE_FEED, IDEOGRAPHIC_SPACE. rewrite !replace_single.
  induction text as [|c text IH]; [reflexivity|].
  cbn [flat_map]. rewrite flat_map_app, IH. f_equal.
  unfold marked. destruct (c =? 0x0A)%N eqn:E1; cbn [orb].
  - reflexivity.
  - cbn [flat_map]. rewrite app_nil_r. now destruct (c =? 0x3000)%N.
Qed.

Lemma starts_with_itself (p t : str) : starts_with p (p ++ t) = true.
Proof.
  unfold starts_with. apply str_eqb_eq.
  rewrite firstn_app, Nat.sub_diag, firstn_all. cbn [firstn]. apply app_nil_r.
Qed.

Lemma starts_with_mark (c : codepoint) (t : str) :
  starts_with NL_MARK (c :: t)
  = ((c =? 0x3C)%N && starts_with [0x4E; 0x4C; 0x3E]%N t).
Proof. apply starts_with_cons. Qed.

(** A pattern without line feed, ideographic space, "<" and space starts
    the marked text and the spaced text exactly where it starts the text. *)
Lemma plain_prefix (pat : str) :
  Forall (fun a => a <> 0x0A /\ a <> 0x3000 /\ a <> 0x3C /\ a <> 0x20)%N pat ->
  forall s,
    starts_with pat (flat_map marked s) = starts_with pat s
    /\ starts_with pat (map spaced s) = starts_with pat s.
Proof.
  induction 1 as [|a pat (Ha1 & Ha2 & Ha3 & Ha4) _ IH]; intros s.
  - now rewrite !starts_with_nil.
  - destruct s as [|x s]; [now split|].
    cbn [flat_map map]. unfold marked at 1, spaced at 1.
    destruct ((x =? 0x0A) || (x =? 0x3000))%N eqn:Ex.
    + unfold NL_MARK, SP. cbn [app]. rewrite !starts_with_cons.
      assert (Hx : (x =? a)%N = false).
      { apply N.eqb_neq. intros ->. apply orb_prop in Ex.
        destruct Ex as [Ex|Ex]; apply N.eqb_eq in Ex; congruence. }
      rewrite Hx.
      destruct (N.eqb_spec 0x3C a); [congruence|].
      destruct (N.eqb_spec 0x20 a); [congruence|]. now split.
    + cbn [app]. rewrite !starts_with_cons.
      destruct (IH s) as [-> ->]. now split.
Qed.

(** Writing the mark for line feeds and ideographic spaces and then
    replacing the mark by a space gives what replacing the mark gives on the
    text with those characters turned into spaces directly. *)
Lemma unmark_marked : forall n text, (length text <= n)%nat ->
  replace_from O NL_MARK [SP] (flat_map marked text)
  = replace_from O NL_MARK [SP] (map spaced text).
Proof.
  induction n as [|n IH]; intros text Hn.
  - destruct text; [reflexivity | cbn in Hn; lia].
  - destruct text as [|c rest]; [reflexivity|].
    cbn [length] in Hn. cbn [flat_map map]. unfold marked at 1, spaced at 1.
    destruct ((c =? 0x0A) || (c =? 0x3000))%N eqn:Ec.
    + (* a line feed or an ideographic space *)
      cbn [replace_from].
      change (NL_MARK ++ flat_map marked rest)
        with (0x3C%N :: ([0x4E; 0x4C; 0x3E]%N ++ flat_map marked rest)).
      cbn [replace_from].
      change (0x3C%N :: ([0x4E; 0x4C; 0x3E]%N ++ flat_map marked rest))
        with (NL_MARK ++ flat_map marked rest).
      rewrite starts_with_itself. unfold NL_MARK at 2 3.
      rewrite starts_with_cons. change (SP =? 0x3C)%N with false. cbn [andb].
      cbn [length Nat.pred app replace_from]. f_equal. apply IH. lia.
    + (* any other character *)
      cbn [app replace_from]. rewrite !starts_with_mark.
      assert (Hplain : Forall (fun a => a <> 0x0A /\ a <> 0x3000 /\ a <> 0x3C /\ a <> 0x20)%N
                         [0x4E; 0x4C; 0x3E]%N).
      { repeat constructor; discriminate. }
      destruct (plain_prefix _ Hplain rest) as [Hf Hm]. rewrite Hf, Hm.
      destruct ((c =? 0x3C)%N && starts_with [0x4E; 0x4C; 0x3E]%N rest) eqn:Eb.
      * apply andb_prop in Eb. destruct Eb as [_ Htail].
        apply starts_with_split in Htail. cbn [length] in Htail.
        set (rest' := skipn 3 rest) in *. rewrite Htail.
        rewrite flat_map_app, map_app. cbn [length Nat.pred].
        change (flat_map marked [0x4E; 0x4C; 0x3E]%N) with ([0x4E; 0x4C; 0x3E]%N).
        change (map spaced [0x4E; 0x4C; 0x3E]%N) with ([0x4E; 0x4C; 0x3E]%N).
        cbn [app replace_from]. f_equal. apply IH.
        assert (Hl : length rest = (3 + length rest')%nat)
          by (rewrite Htail at 1; now rewrite length_app).
        lia.
      * f_equal. apply IH. lia.
Qed.

Lemma replace_without_start (old new : str) (a : codepoint) (s : str) :
  ~ In a s -> replace_from O (a :: old) new s = s.
Proof.
  induction s as [|c s IH]; intros Hnot; [reflexivity|].
  cbn [replace_from]. rewrite starts_with_cons.
  destruct (N.eqb_spec c a) as [->|_]; [exfalso; apply Hnot; now left|].
  cbn [andb]. f_equal. apply IH. intros Hin. apply Hnot. now right.
Qed.

(** X13: [clean_text] turns every line feed and every ideographic space
    into a space, turns every "<NL>" that the text itself holds into a
    space too, and lowercases; the result of [neologdn.normalize] is not
    used.  On a text without "<" it is the lowercased text with line feeds
    and ideographic spaces as spaces, character for character. *)
Theorem clean_text_spaces_only (neologdn_normalize lower : str -> str) (text : str) :
  clean_text neologdn_normalize lower text
  = lower (str_replace (map spaced text) NL_MARK [SP])
  /\ (~ In 0x3C%N text ->
      clean_text neologdn_normalize lower text = lower (map spaced text)).
Proof.
  assert (H : clean_text neologdn_normalize lower text
              = lower (str_replace (map spaced text) NL_MARK [SP])).
  { unfold clean_text. rewrite mark_both. f_equal.
    unfold str_replace, NL_MARK at 1 3. fold NL_MARK.
    now apply (unmark_marked (length text)). }
  split; [exact H|].
  intros Hnot. rewrite H. f_equal. unfold str_replace, NL_MARK.
  apply replace_without_start. intros Hin. apply in_map_iff in Hin.
  destruct Hin as (c & Hc & Hin). unfold spaced in Hc.
  destruct ((c =? 0x0A) || (c =? 0x3000))%N; [discriminate Hc | congruence].
Qed.

Lemma clean_text_spaces_only_witness :
  clean_text (fun s => s) (fun s => s) [A_; 0x0A%N; B_; 0x3000%N; 0xFF21%N]
  = [A_; SP; B_; SP; 0xFF21%N].
Proof.
  destruct (clean_text_spaces_only (fun s => s) (fun s => s)
              [A_; 0x0A%N; B_; 0x3000%N; 0xFF21%N]) as [_ H].
  apply H. cbn. intros [H1|[H1|[H1|[H1|[H1|[]]]]]]; discriminate H1.
Defined.

(* ===================================================================== *)
(** * The collector: pages and songs *)
(* ===================================================================== *)

Lemma py_range_In (lo hi x : Z) : In x (py_range lo hi) <-> lo <= x < hi.
Proof.
  unfold py_range. rewrite in_map_iff. split.
  - intros (i & <- & Hi). apply in_seq in Hi. lia.
  - intros Hx. exists (Z.to_nat (x - lo)). split; [lia|]. apply in_seq. lia.
Qed.

Lemma py_range_first (hi : Z) : 2 <= hi -> exists rest, py_range 1 hi = 1 :: rest.
Proof.
  intros Hhi. unfold py_range.
  destruct (Z.to_nat (hi - 1)) as [|n] eqn:E; [lia|].
  cbn [seq map]. eauto.
Qed.

Lemma io_bind_ok {A B} (log : list request) (a : A) (k : A -> io B) :
  io_bind (log, Ok a) k = (log ++ fst (k a), snd (k a)).
Proof. cbn. now destruct (k a). Qed.

Lemma io_bind_lift {A B} (a : A) (k : A -> io B) : io_bind (io_lift (Ok a)) k = k a.
Proof. unfold io_lift. rewrite io_bind_ok. now destruct (k a). Qed.

Section ListingFacts.

Variable lower : str -> str.
Variable neologdn_normalize : str -> str.
Variable Soup : Type.
Variable page_of : request -> Soup.
Variable parse_total_pages : Soup -> result Z.
Variable get_song_list_from_soup : Soup -> result (list Song).
Variable kashi_area_text : Soup -> str.
Variable release_date_of : Soup -> str.

Lemma get_target_lyric_soup_valid (target_id target : str) (mode page_no : Z) :
  mem (lower target) [ARTIST; LYRICIST; COMPOSER; ARRANGER] = true ->
  1 <= mode <= 6 ->
  get_target_lyric_soup lower Soup page_of target_id target mode page_no
  = ([ListingPage (lower target) target_id mode page_no],
     Ok (page_of (ListingPage (lower target) target_id mode page_no))).
Proof.
  intros Ht Hm. unfold get_target_lyric_soup. rewrite Ht. cbn [negb].
  destruct (Z.leb_spec 1 mode); [|lia]. destruct (Z.leb_spec mode 6); [|lia].
  reflexivity.
Qed.

Lemma get_target_lyric_soup_invalid (target_id target : str) (mode page_no : Z) :
  mem (lower target) [ARTIST; LYRICIST; COMPOSER; ARRANGER] = false
  \/ ~ 1 <= mode <= 6 ->
  get_target_lyric_soup lower Soup page_of target_id target mode page_no
  = ([], Error ValueError).
Proof.
  intros H. unfold get_target_lyric_soup.
  destruct (mem (lower target) [ARTIST; LYRICIST; COMPOSER; ARRANGER]);
    cbn [negb]; [|reflexivity].
  destruct H as [H|H]; [discriminate|].
  destruct (Z.leb_spec 1 mode); destruct (Z.leb_spec mode 6); cbn [andb negb];
    try reflexivity. lia.
Qed.

Lemma fetch_more_pages_spec (target_id : str) :
  lower ARTIST = ARTIST ->
  forall pages soup_list,
    fetch_more_pages lower Soup page_of target_id pages soup_list
    = (map (fun i => ListingPage ARTIST target_id 4 i) pages,
       Ok (soup_list ++ map (fun i => page_of (ListingPage ARTIST target_id 4 i)) pages)).
Proof.
  intros Hlow. induction pages as [|i pages IH]; intros soup_list.
  - cbn. now rewrite app_nil_r.
  - cbn [fetch_more_pages map].
    rewrite get_target_lyric_soup_valid; [|rewrite Hlow; reflexivity | lia].
    rewrite Hlow, io_bind_ok, IH. cbn [fst snd app]. now rewrite <- app_assoc.
Qed.

(** X14: the pages of a listing: after the first page, asked for with the
    target and mode given, [get_whole_song_list] asks for pages
    [1 .. ttl_page - 1] with the default target "artist" and mode 4,
    whatever target and mode were given: with two or more pages the first
    page is asked for again and page [ttl_page], the last, is never asked
    for.  The songs are those of the pages asked for, in that order. *)
Theorem pages_requested (target_id target : str) (mode ttl_page : Z) :
  mem (lower target) [ARTIST; LYRICIST; COMPOSER; ARRANGER] = true ->
  1 <= mode <= 6 ->
  lower ARTIST = ARTIST ->
  parse_total_pages (page_of (ListingPage (lower target) target_id mode 1)) = Ok ttl_page ->
  get_whole_song_list lower Soup page_of parse_total_pages get_song_list_from_soup
    target_id target mode
  = (ListingPage (lower target) target_id mode 1
     :: map (fun i => ListingPage ARTIST target_id 4 i) (py_range 1 ttl_page),
     gather_songs Soup get_song_list_from_soup
       (page_of (ListingPage (lower target) target_id mode 1)
        :: map (fun i => page_of (ListingPage ARTIST target_id 4 i)) (py_range 1 ttl_page))
       [])
  /\ (2 <= ttl_page ->
      In (ListingPage ARTIST target_id 4 1)
         (map (fun i => ListingPage ARTIST target_id 4 i) (py_range 1 ttl_page))
      /\ forall lower_target id m,
           ~ In (ListingPage lower_target id m ttl_page)
                (ListingPage (lower target) target_id mode 1
                 :: map (fun i => ListingPage ARTIST target_id 4 i) (py_range 1 ttl_page))).
Proof.
  intros Ht Hm Hlow Httl. split.
  - unfold get_whole_song_list.
    rewrite get_target_lyric_soup_valid by assumption.
    rewrite io_bind_ok. cbn beta. rewrite Httl, !io_bind_lift.
    rewrite fetch_more_pages_spec by assumption. rewrite io_bind_ok.
    cbn [fst snd io_lift app]. now rewrite !app_nil_r.
  - intros Hmany. split.
    + apply in_map_iff. exists 1. split; [reflexivity|]. apply py_range_In. lia.
    + intros lt id m [Hin|Hin].
      * injection Hin as _ _ _ Hp. lia.
      * apply in_map_iff in Hin. destruct Hin as (i & Hi & Hin).
        injection Hi as _ Hp. apply py_range_In in Hin. lia.
Qed.

(** X15: a target that, lowered, is none of the four names, or a mode
    outside 1..6, is refused before anything is requested:
    [get_whole_song_lyrics] raises [ValueError] and sends no request. *)
Theorem invalid_listing_sends_nothing (target_id target : str) (mode : Z)
  (sample_n : option Z) :
  mem (lower target) [ARTIST; LYRICIST; COMPOSER; ARRANGER] = false
  \/ ~ 1 <= mode <= 6 ->
  get_whole_song_lyrics lower neologdn_normalize Soup page_of parse_total_pages
    get_song_list_from_soup kashi_area_text release_date_of
    target_id target mode sample_n
  = ([], Error ValueError).
Proof.
  intros H. unfold get_whole_song_lyrics, get_whole_song_list.
  now rewrite get_target_lyric_soup_invalid.
Qed.

Lemma fill_lyrics_titled (songs : list Song) :
  Forall (fun song => title song <> None) songs ->
  fill_lyrics lower neologdn_normalize Soup page_of kashi_area_text release_date_of songs
  = (flat_map lyric_requests songs,
     Ok (map (with_lyric lower neologdn_normalize Soup page_of
                kashi_area_text release_date_of) songs)).
Proof.
  induction 1 as [|song songs Ht _ IH]; [reflexivity|].
  cbn [fill_lyrics flat_map map]. destruct (title song); [|congruence].
  rewrite IH. unfold get_lyric_and_release.
  assert (H1 : lyric_requests song
               = match lyrics_url song with
                 | Some url => if truthy url then [LyricPage url] else []
                 | None => []
                 end) by reflexivity.
  assert (H2 : with_lyric lower neologdn_normalize Soup page_of
                 kashi_area_text release_date_of song
               = match lyrics_url song with
                 | Some url =>
                     if truthy url
                     then set_lyric song
                            (clean_text neologdn_normalize lower
                               (kashi_area_text (page_of (LyricPage url))))
                            (release_date_of (page_of (LyricPage url)))
                     else set_lyric song [] []
                 | None => set_lyric song [] []
                 end) by reflexivity.
  rewrite H1, H2.
  destruct (lyrics_url song) as [url|]; [destruct (truthy url)|];
    cbn [io_bind io_ret fst snd app]; now rewrite ?app_nil_r.
Qed.

Lemma fill_lyrics_untitled (songs : list Song) :
  Exists (fun song => title song = None) songs ->
  snd (fill_lyrics lower neologdn_normalize Soup page_of kashi_area_text
         release_date_of songs) = Error TypeError.
Proof.
  induction songs as [|song songs IH]; intros Hex; [inversion Hex|].
  cbn [fill_lyrics]. destruct (title song) eqn:Et; [|reflexivity].
  assert (Hrest : Exists (fun song => title song = None) songs)
    by (inversion Hex; subst; [congruence | assumption]).
  specialize (IH Hrest).
  destruct (fill_lyrics lower neologdn_normalize Soup page_of kashi_area_text
              release_date_of songs) as [log [filled|e]]; cbn [snd] in IH;
    [discriminate|]. injection IH as ->.
  unfold get_lyric_and_release.
  destruct (lyrics_url song) as [url|]; [destruct (truthy url)|]; reflexivity.
Qed.

Lemma slice_bound_sampled (sample_n : option Z) (n : Z) :
  0 <= n -> slice_bound n (sample_bound sample_n n) = sampled sample_n n.
Proof.
  intros Hn. unfold slice_bound, sample_bound, sampled.
  destruct sample_n as [k|].
  - destruct (Z.eqb_spec k 0).
    + destruct (Z.ltb_spec n 0); f_equal; lia.
    + destruct (Z.ltb_spec 0 k).
      * destruct (Z.ltb_spec (Z.min k n) 0); f_equal; lia.
      * destruct (Z.ltb_spec (Z.min k n) 0); f_equal; lia.
  - destruct (Z.ltb_spec n 0); f_equal; lia.
Qed.

(** X16: [get_whole_song_lyrics] returns every song of the listing, in
    order; the first [sampled sample_n n] of them (all for no [sample_n]
    and for 0, all but the last [-sample_n] for a negative one) carry a
    lyric and a release date, fetched once per song that has a URL and
    empty otherwise, and the others are as they were.  If one of the songs
    to fill has no title, it raises [TypeError] instead. *)
Theorem lyrics_for_sampled_songs (target_id target : str) (mode : Z)
  (sample_n : option Z) (log : list request) (song_list : list Song) :
  get_whole_song_list lower Soup page_of parse_total_pages get_song_list_from_soup
    target_id target mode = (log, Ok song_list) ->
  (Forall (fun song => title song <> None)
     (firstn (sampled sample_n (len song_list)) song_list) ->
   get_whole_song_lyrics lower neologdn_normalize Soup page_of parse_total_pages
     get_song_list_from_soup kashi_area_text release_date_of
     target_id target mode sample_n
   = (log ++ flat_map lyric_requests
               (firstn (sampled sample_n (len song_list)) song_list),
      Ok (map (with_lyric lower neologdn_normalize Soup page_of
                 kashi_area_text release_date_of)
            (firstn (sampled sample_n (len song_list)) song_list)
          ++ skipn (sampled sample_n (len song_list)) song_list)))
  /\ (Exists (fun song => title song = None)
        (firstn (sampled sample_n (len song_list)) song_list) ->
      snd (get_whole_song_lyrics lower neologdn_normalize Soup page_of parse_total_pages
             get_song_list_from_soup kashi_area_text release_date_of
             target_id target mode sample_n)
      = Error TypeError).
Proof.
  intros Hlist. unfold get_whole_song_lyrics. rewrite Hlist, io_bind_ok.
  rewrite slice_bound_sampled by apply len_nonneg. split.
  - intros Htitled. rewrite (fill_lyrics_titled _ Htitled), io_bind_ok.
    cbn [fst snd io_ret]. now rewrite !app_nil_r.
  - intros Hnone. pose proof (fill_lyrics_untitled _ Hnone) as Hfill.
    destruct (fill_lyrics lower neologdn_normalize Soup page_of kashi_area_text
                release_date_of (firstn (sampled sample_n (len song_list)) song_list))
      as [log' [filled|e]]; cbn [snd] in Hfill; [discriminate|].
    injection Hfill as ->. reflexivity.
Qed.

End ListingFacts.

Lemma pages_requested_witness :
  fst (get_whole_song_list same Z sample_page_of sample_total_pages sample_song_list
         [0x33; 0x39]%N COMPOSER 2)
  = [ListingPage COMPOSER [0x33; 0x39]%N 2 1;
     ListingPage ARTIST [0x33; 0x39]%N 4 1;
     ListingPage ARTIST [0x33; 0x39]%N 4 2].
Proof.
  destruct (pages_requested same Z sample_page_of sample_total_pages sample_song_list
              [0x33; 0x39]%N COMPOSER 2 3) as [H _];
    [reflexivity | lia | reflexivity | reflexivity |].
  rewrite H. reflexivity.
Defined.

Lemma invalid_listing_sends_nothing_witness :
  get_whole_song_lyrics same same Z sample_page_of sample_total_pages sample_song_list
    sample_text sample_date [0x33; 0x39]%N ARTIST 7 None
  = ([], Error ValueError).
Proof.
  apply (invalid_listing_sends_nothing same same Z sample_page_of sample_total_pages
           sample_song_list sample_text sample_date [0x33; 0x39]%N ARTIST 7 None).
  right. lia.
Defined.

Lemma lyrics_for_sampled_songs_witness :
  get_whole_song_lyrics same same Z sample_page_of sample_total_pages sample_song_list
    sample_text sample_date [0x33; 0x39]%N ARTIST 4 (Some (-1))
  = ([ListingPage ARTIST [0x33; 0x39]%N 4 1;
      ListingPage ARTIST [0x33; 0x39]%N 4 1;
      ListingPage ARTIST [0x33; 0x39]%N 4 2;
      LyricPage [0x75]%N; LyricPage [0x75]%N],
     Ok [set_lyric (sample_song 1) [0x4C; SP; 0x61]%N [0x32; 0x30]%N;
         set_lyric (sample_song 1) [0x4C; SP; 0x61]%N [0x32; 0x30]%N;
         sample_song 2]).
Proof.
  destruct (lyrics_for_sampled_songs same same Z sample_page_of sample_total_pages
              sample_song_list sample_text sample_date [0x33; 0x39]%N ARTIST 4 (Some (-1))
              [ListingPage ARTIST [0x33; 0x39]%N 4 1;
               ListingPage ARTIST [0x33; 0x39]%N 4 1;
               ListingPage ARTIST [0x33; 0x39]%N 4 2]
              [sample_song 1; sample_song 1; sample_song 2] eq_refl) as [H _].
  rewrite H; [reflexivity|].
  repeat constructor; discriminate.
Defined.
